(** * Puti-AI batch image tool: the sequential queue processor

    A shallow embedding of [src/putiai/index.tsx]: the aspect-ratio
    matcher of [prepareImageForGenAI], the queue handlers of [App]
    ([handleFiles], [removeItem], [updateItemPrompt], [processQueue],
    [cancelProcessing]) and the properties of the specification that
    concern them.

    JavaScript numbers are IEEE-754 binary64 values; they are modelled
    with the Standard Library's executable specification of binary
    floating point ([SpecFloat], precision 53, maximal exponent 1024).
    An [async] function is modelled as a coroutine: a record holding
    what the closure captured and the [await] it is suspended at. *)

From Stdlib Require Import ZArith Bool List String Ascii Lia.
From Stdlib Require Import Floats.SpecFloat.
Import ListNotations.

Local Open Scope list_scope.
Local Open Scope string_scope.

(** ** JavaScript numbers *)

Module Num.

Definition prec : Z := 53.
Definition emax : Z := 1024.

Definition number := spec_float.

(** An integer as a number (exact below 2^53, rounded to nearest even above). *)
Definition ofInt (n : Z) : number := binary_normalize prec emax n 0 false.

Definition div : number -> number -> number := SFdiv prec emax.
Definition sub : number -> number -> number := SFsub prec emax.
Definition abs : number -> number := SFabs.
Definition ltb : number -> number -> bool := SFltb.
Definition leb : number -> number -> bool := SFleb.

(** The decimal literal [n / 10^k] of the source text. A numeric literal
    denotes the binary64 value nearest to the decimal; the correctly
    rounded quotient of the two integers, both exact, is that value. *)
Definition decimal (n : Z) (k : nat) : number :=
  div (ofInt n) (ofInt (10 ^ Z.of_nat k)).

Definition isNaN (x : number) : bool :=
  match x with S754_nan => true | _ => false end.

(** A finite number greater than zero. *)
Definition posFinite (x : number) : bool :=
  match x with S754_finite false _ _ => true | _ => false end.

Definition isZero (x : number) : bool :=
  match x with S754_zero _ => true | _ => false end.

Definition finite (x : number) : bool :=
  match x with S754_finite _ _ _ => true | _ => false end.

(** The place of a number on the line: its class (infinities outermost,
    zeros in the middle), then exponent and mantissa, mirrored for the
    negative numbers. [SFcompare] is the lexicographic comparison of
    these triples. *)
Definition rank (x : number) : Z * Z * Z :=
  match x with
  | S754_zero _ => (0, 0, 0)
  | S754_nan => (0, 0, 0)
  | S754_infinity true => (-2, 0, 0)
  | S754_infinity false => (2, 0, 0)
  | S754_finite false m e => (1, e, Z.pos m)
  | S754_finite true m e => (-1, - e, Z.neg m)
  end%Z.

Definition lexlt (a b : Z * Z * Z) : Prop :=
  let '(a1, a2, a3) := a in
  let '(b1, b2, b3) := b in
  (a1 < b1 \/ (a1 = b1 /\ (a2 < b2 \/ (a2 = b2 /\ a3 < b3))))%Z.

Definition lexle (a b : Z * Z * Z) : Prop :=
  let '(a1, a2, a3) := a in
  let '(b1, b2, b3) := b in
  (a1 < b1 \/ (a1 = b1 /\ (a2 < b2 \/ (a2 = b2 /\ a3 <= b3))))%Z.

End Num.

(** ** [Array.prototype.reduce] without an initial value

    The first element seeds the accumulator; on an empty array the call
    throws a [TypeError], modelled by [None]. *)

Definition reduce {A : Type} (f : A -> A -> A) (l : list A) : option A :=
  match l with
  | [] => None
  | x :: t => Some (fold_left f t x)
  end.

(** ** The aspect-ratio matcher (index.tsx, lines 56-76) *)

Record Ratio := mkRatio { rid : string; val : Num.number }.

Definition supported : list Ratio :=
  [ mkRatio "1:1"  (Num.decimal 10 1);
    mkRatio "3:4"  (Num.decimal 75 2);
    mkRatio "4:3"  (Num.decimal 13333 4);
    mkRatio "9:16" (Num.decimal 5625 4);
    mkRatio "16:9" (Num.decimal 17778 4) ].

Definition labels : list string := map rid supported.

(** [Math.abs(c.val - ratio)] *)
Definition distance (ratio : Num.number) (c : Ratio) : Num.number :=
  Num.abs (Num.sub (val c) ratio).

Definition closer (ratio : Num.number) (prev curr : Ratio) : Ratio :=
  if Num.ltb (distance ratio curr) (distance ratio prev) then curr else prev.

Definition bestMatch (width height : Num.number) : option Ratio :=
  let ratio := Num.div width height in
  reduce (closer ratio) supported.

(** The label handed to [resolve]; [supported] is a non-empty literal, so
    the [TypeError] branch of [reduce] is never taken. *)
Definition aspectRatioOf (width height : Num.number) : option string :=
  option_map rid (bestMatch width height).

(** ** Strings *)

(** [s.includes(needle)] *)
Fixpoint includes (s needle : string) : bool :=
  if String.prefix needle s then true
  else match s with
       | EmptyString => false
       | String _ s' => includes s' needle
       end.

(** [e?.includes(needle)] in a condition: [undefined] is falsy. *)
Definition optIncludes (e : option string) (needle : string) : bool :=
  match e with
  | Some s => includes s needle
  | None => false
  end.

(** [e || d] on an optional string: [undefined] and [""] are falsy. *)
Definition orElse (e : option string) (d : string) : string :=
  match e with
  | Some s => if String.eqb s "" then d else s
  | None => d
  end.

(** [s.split(',')[1]]: the text between the first and the second comma,
    [undefined] when [s] has no comma. *)
Fixpoint uptoComma (s : string) : string :=
  match s with
  | EmptyString => EmptyString
  | String c s' => if Ascii.eqb c "," then EmptyString else String c (uptoComma s')
  end.

Fixpoint splitComma1 (s : string) : option string :=
  match s with
  | EmptyString => None
  | String c s' => if Ascii.eqb c "," then Some (uptoComma s') else splitComma1 s'
  end.

(** ** Data model (index.tsx, lines 7-15) *)

Inductive Status := idle | processing | success | error.

Definition Status_eqb (a b : Status) : bool :=
  match a, b with
  | idle, idle | processing, processing | success, success | error, error => true
  | _, _ => false
  end.

(** What the browser gives for a [File]: its name and declared media
    type, the data URL that [FileReader.readAsDataURL] produces ([None]
    when the reader fires [onerror]) and the dimensions the decoded
    [Image] reports ([None] when the image fires [onerror]). *)
Record File := mkFile {
  name : string;
  type : string;
  dataURL : option string;
  dimensions : option (Num.number * Num.number)
}.

Record QueueItem := mkItem {
  id : string;
  file : File;
  previewUrl : string;
  status : Status;
  resultUrl : option string;
  customPrompt : option string;
  errorMsg : option string
}.

Definition withPrompt (i : QueueItem) (p : string) : QueueItem :=
  mkItem (id i) (file i) (previewUrl i) (status i) (resultUrl i) (Some p) (errorMsg i).

(** [{ ...i, status: 'processing', errorMsg: undefined }] *)
Definition asProcessing (i : QueueItem) : QueueItem :=
  mkItem (id i) (file i) (previewUrl i) processing (resultUrl i) (customPrompt i) None.

(** [{ ...i, status: 'success', resultUrl: imageUrl }] *)
Definition asSuccess (imageUrl : string) (i : QueueItem) : QueueItem :=
  mkItem (id i) (file i) (previewUrl i) success (Some imageUrl) (customPrompt i) (errorMsg i).

(** [{ ...i, status: 'error', errorMsg }] *)
Definition asError (msg : string) (i : QueueItem) : QueueItem :=
  mkItem (id i) (file i) (previewUrl i) error (resultUrl i) (customPrompt i) (Some msg).

(** [prev.map(i => i.id === key ? f(i) : i)] *)
Definition mapItem (key : string) (f : QueueItem -> QueueItem)
    (q : list QueueItem) : list QueueItem :=
  map (fun i => if String.eqb (id i) key then f i else i) q.

(** [q.find(i => i.id === key)] used as a condition *)
Definition present (key : string) (q : list QueueItem) : bool :=
  existsb (fun i => String.eqb (id i) key) q.

(** [item.status === 'idle' || item.status === 'error'] *)
Definition eligible (i : QueueItem) : bool :=
  Status_eqb (status i) idle || Status_eqb (status i) error.

(** ** [prepareImageForGenAI] (lines 48-84)

    The promise rejects when the reader or the image fires [onerror];
    the rejection value is a DOM event, which has no [message]. *)

Record Prepared := mkPrepared { base64 : option string; aspectRatio : option string }.

Inductive Settled (A : Type) :=
  | Resolved (v : A)
  | Rejected (message : option string).
Arguments Resolved {A} v.
Arguments Rejected {A} message.

Definition prepareImageForGenAI (f : File) : Settled Prepared :=
  match dataURL f with
  | None => Rejected None
  | Some base64String =>
      let base64Data := splitComma1 base64String in
      match dimensions f with
      | None => Rejected None
      | Some (width, height) =>
          Resolved (mkPrepared base64Data (aspectRatioOf width height))
      end
  end.

(** ** The external image-edit API

    [request] is the argument of [ai.models.generateContent]; a response
    carries [response.candidates?.[0]?.content?.parts]. *)

Record Request := mkRequest {
  model : string;
  data : option string;
  mimeType : string;
  text : string;
  imageSize : string;
  reqAspectRatio : option string
}.

Record Part := mkPart { inlineData : option string }.

Record Response := mkResponse { parts : option (list Part) }.

(** Lines 150-152. *)
Definition finalPrompt (globalPrompt : string) (item : QueueItem) : string :=
  let specificInstruction := orElse (customPrompt item) "" in
  globalPrompt ++ " " ++ specificInstruction.

(** Lines 154-175. *)
Definition buildRequest (globalPrompt : string) (item : QueueItem)
    (p : Prepared) : Request :=
  mkRequest "gemini-3-pro-image-preview"
            (base64 p)
            (orElse (Some (type (file item))) "image/png")
            (finalPrompt globalPrompt item)
            "4K"
            (aspectRatio p).

(** Lines 178-186: the first part that carries inline data. The data of
    the part is text here; the URL is a non-empty string, hence truthy
    in the test of line 188. *)
Fixpoint firstInline (ps : list Part) : option string :=
  match ps with
  | [] => None
  | p :: ps' =>
      match inlineData p with
      | Some d => Some ("data:image/png;base64," ++ d)
      | None => firstInline ps'
      end
  end.

Definition extractImage (r : Response) : option string :=
  match parts r with
  | Some ps => firstInline ps
  | None => None
  end.

(** ** Error labels (lines 196-207) *)

Definition msgGenerationFailed : string := "生成失敗".
Definition msgSafety : string := "觸發安全限制".
Definition msgRateLimited : string := "請求過於頻繁，請稍候".

Definition authRejected (message : option string) : bool :=
  optIncludes message "Requested entity was not found".

Definition errorLabel (message : option string) : string :=
  let errorMsg := msgGenerationFailed in
  let errorMsg := if optIncludes message "Safety" then msgSafety else errorMsg in
  let errorMsg := if optIncludes message "429" then msgRateLimited else errorMsg in
  errorMsg.

(** ** The application state and the runs of [processQueue]

    [processQueue] is an [async] function. A call of it that has not
    returned is a [Run]: the rest of the [pendingItems] iterator, the
    [globalPrompt] its closure captured, and the [await] it waits at. *)

Inductive Pc :=
  | AwaitQueue                       (* line 135, for the head of the iterator *)
  | AwaitPrepare (item : QueueItem)  (* line 148 *)
  | AwaitGenerate (item : QueueItem) (* line 154 *)
  | Done.

Record Run := mkRun {
  pendingItems : list QueueItem;
  pc : Pc;
  runPrompt : string
}.

Record App := mkApp {
  hasKey : bool;
  queue : list QueueItem;
  isProcessing : bool;
  globalPrompt : string;
  runs : list Run;
  outbox : list Request   (* the calls of generateContent made so far *)
}.

Definition initialPrompt : string :=
  "Keep the exact composition and background. Replace the text with the following Traditional Chinese text. Ensure typography is sharp, high-definition, and legible: ".

Definition initial : App := mkApp false [] false initialPrompt [] [].

Definition setHasKey (b : bool) (s : App) : App :=
  mkApp b (queue s) (isProcessing s) (globalPrompt s) (runs s) (outbox s).

Definition setQueue (f : list QueueItem -> list QueueItem) (s : App) : App :=
  mkApp (hasKey s) (f (queue s)) (isProcessing s) (globalPrompt s) (runs s) (outbox s).

Definition setIsProcessing (b : bool) (s : App) : App :=
  mkApp (hasKey s) (queue s) b (globalPrompt s) (runs s) (outbox s).

Definition setGlobalPrompt (t : string) (s : App) : App :=
  mkApp (hasKey s) (queue s) (isProcessing s) t (runs s) (outbox s).

Definition setRuns (rs : list Run) (s : App) : App :=
  mkApp (hasKey s) (queue s) (isProcessing s) (globalPrompt s) rs (outbox s).

Definition send (r : Request) (s : App) : App :=
  mkApp (hasKey s) (queue s) (isProcessing s) (globalPrompt s) (runs s) (outbox s ++ [r])%list.

(** Replace the [n]-th element of a list (nothing out of range). *)
Fixpoint setNth {A : Type} (n : nat) (x : A) (l : list A) : list A :=
  match l, n with
  | [], _ => []
  | _ :: t, O => x :: t
  | y :: t, S n' => y :: setNth n' x t
  end.

Definition setRun (r : nat) (rn : Run) (s : App) : App :=
  setRuns (setNth r rn (runs s)) s.

(** ** The body of [processQueue] (lines 126-214) *)

(** The [for ... of] loop advances: the next item waits for the queue
    (line 135), or the iterator is exhausted and line 213 runs. *)
Definition nextIteration (r : nat) (rest : list QueueItem) (prompt : string)
    (s : App) : App :=
  match rest with
  | [] => setRun r (mkRun [] Done prompt) (setIsProcessing false s)
  | _ :: _ => setRun r (mkRun rest AwaitQueue prompt) s
  end.

(** The [catch] block (lines 194-210) for the failure [message] of [item]. *)
Definition catchBlock (r : nat) (item : QueueItem) (rest : list QueueItem)
    (prompt : string) (message : option string) (s : App) : App :=
  if authRejected message then
    setRun r (mkRun rest Done prompt) (setIsProcessing false (setHasKey false s))
  else
    nextIteration r rest prompt
      (setQueue (mapItem (id item) (asError (errorLabel message))) s).

(** The call itself, up to its first [await] (lines 127-135). *)
Definition processQueue (s : App) : App :=
  if isProcessing s then s
  else
    let r := List.length (runs s) in
    let pending := filter eligible (queue s) in
    let s1 := setIsProcessing true s in
    let s2 := setRuns (runs s1 ++ [mkRun pending AwaitQueue (globalPrompt s)])%list s1 in
    nextIteration r pending (globalPrompt s) s2.

(** Run [r] continues after the [await] of line 135 (lines 138-148) or
    after the [await] of line 148 (lines 150-154). *)
Definition resume (r : nat) (s : App) : App :=
  match nth_error (runs s) r with
  | None => s
  | Some rn =>
      match pc rn, pendingItems rn with
      | AwaitQueue, item :: rest =>
          let currentQueue := queue s in
          if present (id item) currentQueue then
            setRun r (mkRun rest (AwaitPrepare item) (runPrompt rn))
              (setQueue (mapItem (id item) asProcessing) s)
          else nextIteration r rest (runPrompt rn) s
      | AwaitPrepare item, rest =>
          match prepareImageForGenAI (file item) with
          | Resolved p =>
              setRun r (mkRun rest (AwaitGenerate item) (runPrompt rn))
                (send (buildRequest (runPrompt rn) item p) s)
          | Rejected message => catchBlock r item rest (runPrompt rn) message s
          end
      | _, _ => s
      end
  end.

(** Run [r] continues after [generateContent] settled (lines 177-210). *)
Definition respond (r : nat) (res : Settled Response) (s : App) : App :=
  match nth_error (runs s) r with
  | None => s
  | Some rn =>
      match pc rn with
      | AwaitGenerate item =>
          let rest := pendingItems rn in
          match res with
          | Resolved response =>
              match extractImage response with
              | Some imageUrl =>
                  nextIteration r rest (runPrompt rn)
                    (setQueue (mapItem (id item) (asSuccess imageUrl)) s)
              | None =>
                  catchBlock r item rest (runPrompt rn) (Some "No image generated.") s
              end
          | Rejected message => catchBlock r item rest (runPrompt rn) message s
          end
      | _ => s
      end
  end.

(** ** The other handlers (lines 87-123, 216-219, 265) *)

(** One selected file with the identifier and the object URL drawn for it. *)
Record Upload := mkUpload { newId : string; newUrl : string; newFile : File }.

(** [files] is [None] for a [null] file list (line 88). *)
Definition handleFiles (files : option (list Upload)) (s : App) : App :=
  match files with
  | None => s
  | Some files =>
      let newItems :=
        map (fun u => mkItem (newId u) (newFile u) (newUrl u) idle None None None)
            files in
      setQueue (fun prev => prev ++ newItems)%list s
  end.

Definition removeItem (key : string) (s : App) : App :=
  setQueue (filter (fun item => negb (String.eqb (id item) key))) s.

Definition updateItemPrompt (key prompt : string) (s : App) : App :=
  setQueue (mapItem key (fun item => withPrompt item prompt)) s.

Definition cancelProcessing (s : App) : App := setIsProcessing false s.

Definition clearAll (s : App) : App := setQueue (fun _ => []) s.

(** ** Events

    What can happen between two steps of the event loop: the key poll
    fires, the user acts on a control that is rendered and enabled, or
    an [await] of a run settles. *)

Inductive Event :=
  | Poll (selected : bool)
  | HandleFiles (files : list Upload)
  | RemoveItem (key : string)
  | UpdateItemPrompt (key prompt : string)
  | SetGlobalPrompt (t : string)
  | ClearAll
  | ProcessQueue
  | CancelProcessing
  | Resume (r : nat)
  | Respond (r : nat) (res : Settled Response).

(** The textarea of an item is disabled while it is processing or done
    (line 439). *)
Definition editable (i : QueueItem) : bool :=
  negb (Status_eqb (status i) processing || Status_eqb (status i) success).

(** The controls exist only on the main screen (line 221) and carry the
    [disabled] conditions of lines 265, 294, 303 and 439. *)
Definition enabled (s : App) (e : Event) : bool :=
  match e with
  | Poll _ => true
  | HandleFiles _ => hasKey s
  | RemoveItem key => hasKey s && present key (queue s)
  | UpdateItemPrompt key _ =>
      hasKey s && existsb (fun i => String.eqb (id i) key && editable i) (queue s)
  | SetGlobalPrompt _ => hasKey s
  | ClearAll =>
      hasKey s && negb (isProcessing s || Nat.eqb (List.length (queue s)) 0)
  | ProcessQueue =>
      hasKey s && negb (isProcessing s || Nat.eqb (List.length (filter eligible (queue s))) 0)
  | CancelProcessing => hasKey s && isProcessing s
  | Resume _ => true
  | Respond _ _ => true
  end.

Definition handle (e : Event) (s : App) : App :=
  match e with
  | Poll selected => setHasKey selected s
  | HandleFiles files => handleFiles (Some files) s
  | RemoveItem key => removeItem key s
  | UpdateItemPrompt key prompt => updateItemPrompt key prompt s
  | SetGlobalPrompt t => setGlobalPrompt t s
  | ClearAll => clearAll s
  | ProcessQueue => processQueue s
  | CancelProcessing => cancelProcessing s
  | Resume r => resume r s
  | Respond r res => respond r res s
  end.

Definition step (s : App) (e : Event) : App :=
  if enabled s e then handle e s else s.

Definition exec (es : list Event) (s : App) : App := fold_left step es s.

(** Observations on a queue. *)

Definition statusOf (key : string) (q : list QueueItem) : option Status :=
  option_map status (find (fun i => String.eqb (id i) key) q).

Definition countProcessing (q : list QueueItem) : nat :=
  List.length (filter (fun i => Status_eqb (status i) processing) q).

(** The items a run still holds: the one in flight, then the iterator. *)
Definition workList (rn : Run) : list QueueItem :=
  match pc rn with
  | AwaitPrepare item | AwaitGenerate item => item :: pendingItems rn
  | AwaitQueue => pendingItems rn
  | Done => []
  end.

(** The item whose request a run is preparing or awaiting. *)
Definition current (rn : Run) : option QueueItem :=
  match pc rn with
  | AwaitPrepare item | AwaitGenerate item => Some item
  | AwaitQueue | Done => None
  end.

Definition inFlight (rn : Run) : option string := option_map id (current rn).

Definition isSet {A : Type} (o : option A) : bool :=
  match o with Some _ => true | None => false end.

(** The data-model invariant of one item. *)
Definition wellFormed (i : QueueItem) : bool :=
  Bool.eqb (isSet (resultUrl i)) (Status_eqb (status i) success)
  && Bool.eqb (isSet (errorMsg i)) (Status_eqb (status i) error).

(** A step of run [rn] that leaves it as [rn']: the prompt it captured
    is kept, its work list only loses items from the front, and the
    queue is changed only at identifiers of its work list. *)
Definition advances (q q' : list QueueItem) (rn rn' : Run) : Prop :=
  runPrompt rn' = runPrompt rn /\
  (exists done, workList rn = (done ++ workList rn')%list) /\
  (exists g, q' = map g q /\
             forall x, ~ In (id x) (map id (workList rn)) -> g x = x).

(** ** The moves of a run

    [Move abort q p rn q' p' rn']: one step of run [rn], with the queue
    [q] and the active flag [p], leaves the run as [rn'], the queue as
    [q'] and the flag as [p']. The constructors follow the paths of the
    loop body; [abort] tells whether the step may take the
    fatal-failure exit of line 203. *)

Definition continue (rest : list QueueItem) (prompt : string) : Run :=
  mkRun rest (match rest with [] => Done | _ :: _ => AwaitQueue end) prompt.

Definition flagAfter (rest : list QueueItem) (p : bool) : bool :=
  match rest with [] => false | _ :: _ => p end.

Inductive Move (abort : bool) (q : list QueueItem) (p : bool) (rn : Run) :
    list QueueItem -> bool -> Run -> Prop :=
  | MoveStay : Move abort q p rn q p rn
  | MoveSkip item rest :
      pc rn = AwaitQueue -> pendingItems rn = item :: rest ->
      present (id item) q = false ->
      Move abort q p rn q (flagAfter rest p) (continue rest (runPrompt rn))
  | MoveMark item rest :
      pc rn = AwaitQueue -> pendingItems rn = item :: rest ->
      present (id item) q = true ->
      Move abort q p rn (mapItem (id item) asProcessing q) p
           (mkRun rest (AwaitPrepare item) (runPrompt rn))
  | MoveSend item :
      pc rn = AwaitPrepare item ->
      Move abort q p rn q p (mkRun (pendingItems rn) (AwaitGenerate item) (runPrompt rn))
  | MoveSuccess item imageUrl :
      current rn = Some item ->
      Move abort q p rn (mapItem (id item) (asSuccess imageUrl) q)
           (flagAfter (pendingItems rn) p) (continue (pendingItems rn) (runPrompt rn))
  | MoveError item msg :
      current rn = Some item ->
      Move abort q p rn (mapItem (id item) (asError msg) q)
           (flagAfter (pendingItems rn) p) (continue (pendingItems rn) (runPrompt rn))
  | MoveAbort item :
      abort = true -> current rn = Some item ->
      Move abort q p rn q false (mkRun (pendingItems rn) Done (runPrompt rn)).

(** Whether a settled call makes the [catch] block take the fatal exit. *)
Definition authFailure (res : Settled Response) : bool :=
  match res with
  | Rejected message => authRejected message
  | Resolved _ => false
  end.

(** ** Orderly executions *)

Fixpoint distinct (l : list string) : bool :=
  match l with
  | [] => true
  | x :: t => negb (existsb (String.eqb x) t) && distinct t
  end.

(** An event of an execution without cancellation in which every
    identifier drawn for an upload is new to the queue. *)
Definition calm (s : App) (e : Event) : bool :=
  match e with
  | CancelProcessing => false
  | HandleFiles files => distinct (map id (queue s) ++ map newId files)%list
  | _ => true
  end.

(** The run has returned. *)
Definition returned (rn : Run) : bool :=
  match pc rn with Done => true | _ => false end.

(** An event of an execution in which a call of [processQueue] is let
    through only when every earlier run has returned, and every
    identifier drawn for an upload is new to the queue. Stop may be
    pressed at any time. *)
Definition exclusive (s : App) (e : Event) : bool :=
  match e with
  | ProcessQueue => negb (enabled s ProcessQueue) || forallb returned (runs s)
  | HandleFiles files => distinct (map id (queue s) ++ map newId files)%list
  | _ => true
  end.

(** An exclusive event that is not an authentication rejection. *)
Definition accepted (s : App) (e : Event) : bool :=
  exclusive s e &&
  match e with
  | Respond _ res => negb (authFailure res)
  | _ => true
  end.

(** Every event of a sequence satisfies [ok] in the state it occurs in. *)
Fixpoint allAlong (ok : App -> Event -> bool) (s : App) (es : list Event) : bool :=
  match es with
  | [] => true
  | e :: es' => ok s e && allAlong ok (step s e) es'
  end.

(** What holds of a run and the queue in a calm execution: the work list
    has no identifier twice; the queue entries that carry the
    identifier of a waiting item are eligible; those that carry the
    identifier of the item in flight are [processing], or [idle] when
    queued anew under that identifier. *)
Definition RunInv (q : list QueueItem) (rn : Run) : Prop :=
  NoDup (map id (workList rn)) /\
  (forall w i, pc rn <> Done -> In w (pendingItems rn) -> In i q ->
               id i = id w -> eligible i = true) /\
  (forall i, inFlight rn = Some (id i) -> In i q ->
             status i = processing \/ status i = idle).

(** The invariant of calm executions. *)
Definition Inv (s : App) : Prop :=
  NoDup (map id (queue s)) /\
  (isProcessing s = false ->
   forall r rn, nth_error (runs s) r = Some rn -> pc rn = Done) /\
  (forall r1 r2 rn1 rn2,
      nth_error (runs s) r1 = Some rn1 -> nth_error (runs s) r2 = Some rn2 ->
      pc rn1 <> Done -> pc rn2 <> Done -> r1 = r2) /\
  (forall i, In i (queue s) -> wellFormed i = true) /\
  (forall r rn, nth_error (runs s) r = Some rn -> RunInv (queue s) rn).

(** The invariant of exclusive executions: that of calm executions but
    for the clause on the active flag, which Stop may clear while a run
    is alive. *)
Definition Sequential (s : App) : Prop :=
  NoDup (map id (queue s)) /\
  (forall r1 r2 rn1 rn2,
      nth_error (runs s) r1 = Some rn1 -> nth_error (runs s) r2 = Some rn2 ->
      pc rn1 <> Done -> pc rn2 <> Done -> r1 = r2) /\
  (forall i, In i (queue s) -> wellFormed i = true) /\
  (forall r rn, nth_error (runs s) r = Some rn -> RunInv (queue s) rn).

(** Every item in [processing] is the item some run has in flight. *)
Definition Flying (s : App) : Prop :=
  forall i, In i (queue s) -> status i = processing ->
  exists r rn, nth_error (runs s) r = Some rn /\ inFlight rn = Some (id i).

(** A change of the queue by the user: every entry either stands for an
    earlier entry with the same identifier, status, result and error, or
    is a newly queued idle item. *)
Definition sameShape (i j : QueueItem) : Prop :=
  id i = id j /\ status i = status j /\
  resultUrl i = resultUrl j /\ errorMsg i = errorMsg j.

Definition newlyQueued (i : QueueItem) : Prop :=
  status i = idle /\ resultUrl i = None /\ errorMsg i = None.

Definition gentle (q q' : list QueueItem) : Prop :=
  forall i', In i' q' -> (exists i, In i q /\ sameShape i' i) \/ newlyQueued i'.

(** ** Scenarios

    Concrete files, responses and event sequences, used to run the
    model. *)

Module Scenario.

Definition png (fileName : string) (w h : Z) : File :=
  mkFile fileName "image/png" (Some "data:image/png;base64,iVBORw0KGgo=")
         (Some (Num.ofInt w, Num.ofInt h)).

Definition upload (key fileName : string) (w h : Z) : Upload :=
  mkUpload key ("blob:" ++ key) (png fileName w h).

Definition fileA := upload "k3x9a01aa" "a.png" 1000 1000.
Definition fileB := upload "p7m2b02bb" "b.png" 1920 1080.
Definition fileC := upload "z5q8c03cc" "c.png" 800 600.

Definition idA := newId fileA.
Definition idB := newId fileB.
Definition idC := newId fileC.

(** A response whose second part carries the edited image. *)
Definition image : Settled Response :=
  Resolved (mkResponse (Some [mkPart None; mkPart (Some "QUJD")])).

Definition notFound : Settled Response :=
  Rejected (Some "Requested entity was not found.").

(** The key is selected and three files are queued. *)
Definition threeQueued : list Event :=
  [Poll true; HandleFiles [fileA; fileB; fileC]].

(** One run over three items: the first succeeds, the request of the
    second is rejected because the credential is not found. *)
Definition authRejectedAtSecond : list Event :=
  threeQueued ++
  [ProcessQueue; Resume 0; Resume 0; Respond 0 image;
   Resume 0; Resume 0; Respond 0 notFound]%list.

(** The user presses stop while the first item is in flight; the
    request of the first item then completes. *)
Definition cancelledFirstDone : list Event :=
  threeQueued ++
  [ProcessQueue; Resume 0; Resume 0; CancelProcessing; Respond 0 image]%list.

(** The run, which was told to stop, takes its next step. *)
Definition cancelDuringFirst : list Event :=
  cancelledFirstDone ++ [Resume 0]%list.

(** Stop, then start again while the first request is still in flight. *)
Definition restartAfterCancel : list Event :=
  threeQueued ++
  [ProcessQueue; Resume 0; Resume 0; CancelProcessing;
   ProcessQueue; Resume 1]%list.

(** As above; the second run completes the second item and the first
    request returns. *)
Definition secondDoneTwice : list Event :=
  restartAfterCancel ++ [Resume 1; Respond 1 image; Respond 0 image]%list.

(** The first run, which was never stopped, reaches the second item. *)
Definition overlappingRuns : list Event :=
  secondDoneTwice ++ [Resume 0]%list.

(** After the aborted run the key is selected again and a new run starts. *)
Definition restartAfterAuthAbort : list Event :=
  authRejectedAtSecond ++ [Poll true; ProcessQueue; Resume 1]%list.

(** The second item is removed while the first is in flight. *)
Definition removedBeforeTurn : list Event :=
  threeQueued ++
  [ProcessQueue; Resume 0; Resume 0; RemoveItem idB; Respond 0 image]%list.

(** The first request of a run over the three files is in flight. *)
Definition firstInFlight : list Event :=
  threeQueued ++ [ProcessQueue; Resume 0; Resume 0]%list.

(** The queue entry made for an upload. *)
Definition itemOf (u : Upload) : QueueItem :=
  mkItem (newId u) (newFile u) (newUrl u) idle None None None.

(** What is shown of an item: identifier, status, result and error. *)
Definition view (s : App) : list (string * Status * option string * option string) :=
  map (fun i => (id i, status i, resultUrl i, errorMsg i)) (queue s).

End Scenario.

(** ** The download name (line 468)

    [`Puti-AI-${item.file.name.split('.')[0]}.png`] *)

(** [s.split('.')[0]]: the text before the first dot, all of [s] when it
    has none. *)
Fixpoint beforeDot (s : string) : string :=
  match s with
  | EmptyString => EmptyString
  | String c s' => if Ascii.eqb c "." then EmptyString else String c (beforeDot s')
  end.

Definition downloadName (fileName : string) : string :=
  "Puti-AI-" ++ beforeDot fileName ++ ".png".

(** [c] does not occur in [s]. *)
Fixpoint lacks (c : ascii) (s : string) : bool :=
  match s with
  | EmptyString => true
  | String d s' => negb (Ascii.eqb d c) && lacks c s'
  end.

(** ** Driving a run

    The awaits of run [r] settle one after the other, with one answer of
    the API per round. *)
Definition serve (r : nat) (responses : list (Settled Response)) : list Event :=
  flat_map (fun res => [Resume r; Resume r; Respond r res]) responses.

(** A run that waits for the queue has an item to wait for; a run that
    has returned has cleared the active flag; at most [n] items are left. *)
Definition Ready (s : App) (r n : nat) : Prop :=
  exists rn,
    nth_error (runs s) r = Some rn /\
    (pc rn = AwaitQueue -> pendingItems rn <> []) /\
    (pc rn = Done -> isProcessing s = false) /\
    List.length (workList rn) <= n.

(** No run holds the identifier [key] in its work list. *)
Definition unheld (s : App) (key : string) : Prop :=
  forall r rn, nth_error (runs s) r = Some rn -> ~ In key (map id (workList rn)).

(** The event draws [key] for none of its uploads. *)
Definition spares (key : string) (e : Event) : bool :=
  match e with
  | HandleFiles files => negb (existsb (String.eqb key) (map newId files))
  | _ => true
  end.

(** Every queue entry with the identifier of [i] is [i] itself. *)
Definition onlyAs (i : QueueItem) (q : list QueueItem) : Prop :=
  forall i', In i' q -> id i' = id i -> i' = i.

(** When the active flag is set, some run has not returned. *)
Definition Alive (s : App) : Prop :=
  isProcessing s = true ->
  exists r rn, nth_error (runs s) r = Some rn /\ pc rn <> Done.

(** What every request to the API has in common. *)
Definition standardRequest (req : Request) : Prop :=
  model req = "gemini-3-pro-image-preview" /\
  imageSize req = "4K" /\
  mimeType req <> "" /\
  exists label, reqAspectRatio req = Some label /\ In label labels.

(** ** Further scenarios *)

Module Cases.

(** A file the reader can read but the image decoder rejects. *)
Definition broken : Upload :=
  mkUpload "b4d9x77qq" "blob:b4d9x77qq"
           (mkFile "broken.png" "image/png"
                   (Some "data:image/png;base64,AAAA") None).

(** The broken file is first in the work list and has been marked. *)
Definition brokenMarked : list Event :=
  [Poll true; HandleFiles [broken; Scenario.fileB]; ProcessQueue; Resume 0].

(** A response with two images after a part without inline data. *)
Definition twoImages : Response :=
  mkResponse (Some [mkPart None; mkPart (Some "QUJD"); mkPart (Some "WFla")]).

(** The first item is removed while its request is in flight. *)
Definition removedInFlight : list Event :=
  Scenario.firstInFlight ++ [RemoveItem Scenario.idA]%list.

(** The first item of the three-file run has succeeded. *)
Definition firstSucceeded : list Event :=
  Scenario.firstInFlight ++ [Respond 0 Scenario.image]%list.

Definition doneA : QueueItem :=
  asSuccess "data:image/png;base64,QUJD" (asProcessing (Scenario.itemOf Scenario.fileA)).

(** The run goes on, is cancelled, and a second run is started. *)
Definition afterSuccess : list Event :=
  [Resume 0; Resume 0; CancelProcessing; ProcessQueue; Resume 1;
   Respond 0 Scenario.image; Resume 0; Resume 1].

(** The request of the second item is in flight. *)
Definition secondInFlight : list Event :=
  firstSucceeded ++ [Resume 0; Resume 0]%list.

(** After the fatal exit: the key is selected again and a new run works. *)
Definition afterAbort : list Event :=
  [Poll true; ProcessQueue; Resume 1; Resume 1; Respond 1 Scenario.image].

(** Stop is pressed during the first request, which then fails with a
    rate-limit message; the run goes on over the other two items and
    returns. *)
Definition stoppedFailedOnce : list Event :=
  Scenario.threeQueued ++
  [ProcessQueue; Resume 0; Resume 0; CancelProcessing;
   Respond 0 (Rejected (Some "429 Too Many Requests"));
   Resume 0; Resume 0; Respond 0 Scenario.image;
   Resume 0; Resume 0; Respond 0 Scenario.image]%list.

(** The first item as the failed request left it. *)
Definition failedA : QueueItem :=
  asError msgRateLimited (asProcessing (Scenario.itemOf Scenario.fileA)).

(** A second run is started; it holds the failed item. *)
Definition stoppedRestarted : list Event :=
  stoppedFailedOnce ++ [ProcessQueue]%list.

(** The second run takes the failed item up again. *)
Definition stoppedThenResubmitted : list Event :=
  stoppedRestarted ++ [Resume 1]%list.

(** A fourth file. *)
Definition fileD := Scenario.upload "w1r4d04dd" "d.png" 640 480.

(** One run: the first item succeeds, the second fails with a rate-limit
    message, the request of the third is rejected because the credential
    is not found. The key is selected again and a fourth file is queued. *)
Definition mixed : list Event :=
  Scenario.threeQueued ++
  [ProcessQueue; Resume 0; Resume 0; Respond 0 Scenario.image;
   Resume 0; Resume 0; Respond 0 (Rejected (Some "429 Too Many Requests"));
   Resume 0; Resume 0; Respond 0 Scenario.notFound;
   Poll true; HandleFiles [fileD]]%list.

(** Stop is pressed while the request of the second item is in flight. *)
Definition secondInFlightStopped : list Event :=
  secondInFlight ++ [CancelProcessing]%list.

(** The first request of a run fails; the second item is removed before
    its turn; a file is queued meanwhile; the third item succeeds. *)
Definition served : list Event :=
  [Resume 0; Resume 0; Respond 0 (Rejected (Some "429 Too Many Requests"));
   RemoveItem Scenario.idB; HandleFiles [fileD]; Resume 0;
   Resume 0; Resume 0; Respond 0 Scenario.image; Resume 0;
   Respond 0 Scenario.image].

(** A run over the three files has just been started. *)
Definition started : list Event := Scenario.threeQueued ++ [ProcessQueue]%list.

(** The prompt of the second item is edited while the first is worked
    on; then the run reaches the second item and sends its request. *)
Definition editedDuringRun : list Event :=
  [Resume 0; UpdateItemPrompt Scenario.idB "use a red title"; Resume 0;
   Respond 0 Scenario.image; Resume 0; Resume 0].

End Cases.

(** ** Editing prompts during a run *)

Definition isEdit (e : Event) : bool :=
  match e with UpdateItemPrompt _ _ => true | _ => false end.

Definition isStart (e : Event) : bool :=
  match e with ProcessQueue => true | _ => false end.

(** Two queue entries that differ at most in their custom prompt. *)
Definition samePicture (i j : QueueItem) : Prop :=
  id i = id j /\ file i = file j /\ previewUrl i = previewUrl j /\
  status i = status j /\ resultUrl i = resultUrl j /\ errorMsg i = errorMsg j.

(** Two states that differ at most in the custom prompts of the queue. *)
Definition alike (s t : App) : Prop :=
  hasKey s = hasKey t /\
  Forall2 samePicture (queue s) (queue t) /\
  isProcessing s = isProcessing t /\
  globalPrompt s = globalPrompt t /\
  runs s = runs t /\
  outbox s = outbox t.

(** ** The requests of a run *)

(** The items a run may still send a request for: the one whose image is
    being prepared and those that wait in the iterator. *)
Definition toSendItems (rn : Run) : list QueueItem :=
  match pc rn with
  | AwaitPrepare item => item :: pendingItems rn
  | AwaitQueue | AwaitGenerate _ => pendingItems rn
  | Done => []
  end.

(** The request made for an item and the picture prepared from its file. *)
Definition requestOf (prompt : string) (ip : QueueItem * Prepared) : Request :=
  buildRequest prompt (fst ip) (snd ip).

(** [Subseq l1 l2]: [l1] is [l2] with some entries left out; the order
    is kept and no entry of [l2] is used twice. *)
Inductive Subseq {A : Type} : list A -> list A -> Prop :=
  | SubNil : Subseq [] []
  | SubSkip x l1 l2 : Subseq l1 l2 -> Subseq l1 (x :: l2)
  | SubTake x l1 l2 : Subseq l1 l2 -> Subseq (x :: l1) (x :: l2).

(** The event resumes no run other than [r]. *)
Definition onlyRun (r : nat) (e : Event) : bool :=
  match e with
  | Resume r' => Nat.eqb r' r
  | _ => true
  end.

(** * Properties *)

Local Open Scope list_scope.

(** ** Binary64 arithmetic never invents a NaN from finite operands *)

Module NumFacts.
Import Num.

Local Open Scope Z_scope.

Lemma iter_pos_invariant {A : Type} (P : A -> Prop) (f : A -> A) :
  (forall x, P x -> P (f x)) ->
  forall n x, P x -> P (iter_pos f n x).
Proof.
  intros Hf n; induction n as [n IH | n IH | ]; intros x Hx; simpl.
  - apply IH, IH, Hf, Hx.
  - apply IH, IH, Hx.
  - apply Hf, Hx.
Qed.

Lemma shr_1_nonneg mrs : 0 <= shr_m mrs -> 0 <= shr_m (shr_1 mrs).
Proof.
  destruct mrs as [m r s]; simpl.
  destruct m as [ | p | p ]; try destruct p; simpl; lia.
Qed.

Lemma shr_nonneg mrs e n : 0 <= shr_m mrs -> 0 <= shr_m (fst (shr mrs e n)).
Proof.
  intros H; unfold shr; destruct n; simpl; auto.
  apply (iter_pos_invariant (fun x => 0 <= shr_m x)); auto using shr_1_nonneg.
Qed.

Lemma shr_record_of_loc_m m l : shr_m (shr_record_of_loc m l) = m.
Proof. destruct l as [ | [ | | ] ]; reflexivity. Qed.

Lemma shr_fexp_nonneg m e l :
  0 <= m -> 0 <= shr_m (fst (shr_fexp prec emax m e l)).
Proof.
  intros H; unfold shr_fexp; apply shr_nonneg.
  rewrite shr_record_of_loc_m; exact H.
Qed.

Lemma round_nearest_even_nonneg m l : 0 <= m -> 0 <= round_nearest_even m l.
Proof.
  intros H; unfold round_nearest_even.
  destruct l as [ | [ | | ] ]; try destruct (Z.even m); lia.
Qed.

Lemma binary_round_aux_not_nan sx mx ex lx :
  0 <= mx -> isNaN (binary_round_aux prec emax sx mx ex lx) = false.
Proof.
  intros H; unfold binary_round_aux.
  pose proof (shr_fexp_nonneg mx ex lx H) as H1.
  destruct (shr_fexp prec emax mx ex lx) as [mrs' e']; simpl in H1.
  pose proof (shr_fexp_nonneg _ e' loc_Exact
                (round_nearest_even_nonneg _ (loc_of_shr_record mrs') H1)) as H2.
  destruct (shr_fexp prec emax _ e' loc_Exact) as [mrs'' e'']; simpl in H2.
  destruct (shr_m mrs'') as [ | m | m ]; try reflexivity.
  - destruct (e'' <=? emax - prec); reflexivity.
  - lia.
Qed.

Lemma binary_round_not_nan sx mx ex :
  isNaN (binary_round prec emax sx mx ex) = false.
Proof.
  unfold binary_round.
  destruct (shl_align mx ex _) as [mz ez].
  apply binary_round_aux_not_nan; lia.
Qed.

Lemma binary_normalize_not_nan m e sz :
  isNaN (binary_normalize prec emax m e sz) = false.
Proof.
  destruct m; simpl; auto using binary_round_not_nan.
Qed.

Lemma div_core_nonneg m1 e1 m2 e2 :
  0 <= fst (fst (SFdiv_core_binary prec emax (Z.pos m1) e1 (Z.pos m2) e2)).
Proof.
  unfold SFdiv_core_binary.
  set (s := _ - _ - _).
  set (m' := match s with Z.pos _ => _ | Z0 => _ | Z.neg _ => _ end).
  assert (Hm : 0 <= m').
  { subst m'; destruct s; try lia. apply Z.shiftl_nonneg; lia. }
  pose proof (Z.div_eucl_eq m' (Z.pos m2) ltac:(lia)) as Heq.
  pose proof (Z.mod_pos_bound m' (Z.pos m2) ltac:(lia)) as Hmod.
  unfold Z.modulo in Hmod.
  destruct (Z.div_eucl m' (Z.pos m2)) as [q r]; simpl.
  nia.
Qed.

(** The quotient of two finite positive numbers is a number. *)
Lemma div_not_nan x y :
  posFinite x = true -> posFinite y = true -> isNaN (div x y) = false.
Proof.
  destruct x as [ | | | [ | ] mx ex ]; try discriminate.
  destruct y as [ | | | [ | ] my ey ]; try discriminate.
  intros _ _; unfold div, SFdiv.
  pose proof (div_core_nonneg mx ex my ey) as H.
  destruct (SFdiv_core_binary _ _ _ _ _ _) as [[mz ez] lz]; simpl in H.
  apply binary_round_aux_not_nan; exact H.
Qed.

Lemma sub_not_nan x y :
  finite x = true -> isNaN y = false -> isNaN (sub x y) = false.
Proof.
  destruct x as [ | | | sx mx ex ]; try discriminate.
  destruct y as [ sy | sy | | sy my ey ]; try discriminate; intros _ _;
    try reflexivity.
  unfold sub, SFsub. apply binary_normalize_not_nan.
Qed.

Lemma abs_not_nan x : isNaN x = false -> isNaN (abs x) = false.
Proof. destruct x; auto. Qed.

(** *** The comparison is a total preorder on the numbers *)

Ltac split_compare :=
  repeat match goal with
  | |- context [Z.compare ?a ?b] => destruct (Z.compare_spec a b)
  | |- context [Pos.compare_cont Eq ?a ?b] =>
      change (Pos.compare_cont Eq a b) with (Pos.compare a b);
      destruct (Pos.compare_spec a b)
  end.

Lemma ltb_rank x y :
  isNaN x = false -> isNaN y = false ->
  (ltb x y = true <-> lexlt (rank x) (rank y)).
Proof.
  destruct x as [ sx | sx | | sx mx ex ]; try discriminate;
  destruct y as [ sy | sy | | sy my ey ]; try discriminate; intros _ _;
  unfold ltb, SFltb, SFcompare, rank, lexlt;
  try destruct sx; try destruct sy; split_compare; simpl;
  split; intro; try discriminate; try reflexivity; try lia.
Qed.

Lemma leb_rank x y :
  isNaN x = false -> isNaN y = false ->
  (leb x y = true <-> lexle (rank x) (rank y)).
Proof.
  destruct x as [ sx | sx | | sx mx ex ]; try discriminate;
  destruct y as [ sy | sy | | sy my ey ]; try discriminate; intros _ _;
  unfold leb, SFleb, SFcompare, rank, lexle;
  try destruct sx; try destruct sy; split_compare; simpl;
  split; intro; try discriminate; try reflexivity; try lia.
Qed.

Lemma ltb_trans x y z :
  isNaN x = false -> isNaN y = false -> isNaN z = false ->
  ltb x y = true -> ltb y z = true -> ltb x z = true.
Proof.
  intros Hx Hy Hz.
  rewrite !ltb_rank by assumption.
  destruct (rank x) as [[? ?] ?], (rank y) as [[? ?] ?], (rank z) as [[? ?] ?].
  simpl; lia.
Qed.

Lemma ltb_leb_trans x y z :
  isNaN x = false -> isNaN y = false -> isNaN z = false ->
  ltb x y = true -> leb y z = true -> ltb x z = true.
Proof.
  intros Hx Hy Hz.
  rewrite !ltb_rank, leb_rank by assumption.
  destruct (rank x) as [[? ?] ?], (rank y) as [[? ?] ?], (rank z) as [[? ?] ?].
  simpl; lia.
Qed.

Lemma ltb_false_leb x y :
  isNaN x = false -> isNaN y = false ->
  ltb x y = false -> leb y x = true.
Proof.
  intros Hx Hy H.
  apply leb_rank; try assumption.
  assert (Hn : ~ lexlt (rank x) (rank y)).
  { intros Hlt. apply (ltb_rank x y Hx Hy) in Hlt. congruence. }
  destruct (rank x) as [[? ?] ?], (rank y) as [[? ?] ?].
  simpl in *; lia.
Qed.

Lemma ltb_leb x y :
  isNaN x = false -> isNaN y = false -> ltb x y = true -> leb x y = true.
Proof.
  intros Hx Hy.
  rewrite ltb_rank, leb_rank by assumption.
  destruct (rank x) as [[? ?] ?], (rank y) as [[? ?] ?].
  simpl; lia.
Qed.

Lemma leb_refl x : isNaN x = false -> leb x x = true.
Proof.
  intros Hx. apply leb_rank; try assumption.
  destruct (rank x) as [[? ?] ?]; simpl; lia.
Qed.

End NumFacts.

(** ** [reduce] with a strict comparison keeps the first minimum *)

Section ReduceMin.
Context {A : Type}.
Variables (lt le : A -> A -> bool) (ok : A -> Prop) (f : A -> A -> A).

Hypothesis f_keeps : forall prev curr,
  f prev curr = if lt curr prev then curr else prev.
Hypothesis lt_trans : forall x y z, ok x -> ok y -> ok z ->
  lt x y = true -> lt y z = true -> lt x z = true.
Hypothesis lt_le_trans : forall x y z, ok x -> ok y -> ok z ->
  lt x y = true -> le y z = true -> lt x z = true.
Hypothesis total : forall x y, ok x -> ok y -> lt x y = false -> le y x = true.
Hypothesis le_refl : forall x, ok x -> le x x = true.
Hypothesis lt_le : forall x y, ok x -> ok y -> lt x y = true -> le x y = true.

(** The accumulator [a] beats strictly what precedes it ([pre]) and is
    not beaten by what was seen since ([mid]). *)
Lemma fold_keeps_first_min l : forall pre a mid,
  Forall ok (pre ++ a :: mid ++ l) ->
  Forall (fun c => lt a c = true) pre ->
  Forall (fun c => le a c = true) mid ->
  exists pre' mid',
    pre ++ a :: mid ++ l = pre' ++ fold_left f l a :: mid' /\
    Forall (fun c => lt (fold_left f l a) c = true) pre' /\
    Forall (fun c => le (fold_left f l a) c = true) mid'.
Proof.
  induction l as [ | x l IH ]; intros pre a mid Hok Hpre Hmid; simpl.
  - exists pre, mid. rewrite app_nil_r. auto.
  - assert (Ha : ok a) by (rewrite Forall_forall in Hok; apply Hok; apply in_or_app; right; left; reflexivity).
    assert (Hx : ok x).
    { rewrite Forall_forall in Hok; apply Hok.
      apply in_or_app; right; right; apply in_or_app; right; left; reflexivity. }
    assert (Hokpre : Forall ok pre) by (apply Forall_app in Hok; tauto).
    assert (Hokmid : Forall ok mid).
    { apply Forall_app in Hok; destruct Hok as [_ Hok].
      inversion Hok as [ | ? ? _ Hok' ]; subst.
      apply Forall_app in Hok'; tauto. }
    rewrite f_keeps. destruct (lt x a) eqn:Hlt.
    + (* the newcomer is strictly closer: everything before it loses *)
      destruct (IH (pre ++ a :: mid) x []) as (pre' & mid' & Heq & H1 & H2).
      * simpl. rewrite <- app_assoc. simpl. exact Hok.
      * apply Forall_app; split; [ | constructor ].
        -- rewrite Forall_forall in *; intros c Hc.
           apply (lt_trans x a c); auto.
        -- exact Hlt.
        -- rewrite Forall_forall in *; intros c Hc.
           apply (lt_le_trans x a c); auto.
      * constructor.
      * exists pre', mid'. split; [ | auto ].
        rewrite <- Heq. simpl. rewrite <- app_assoc. reflexivity.
    + (* the accumulator stays *)
      destruct (IH pre a (mid ++ [x])) as (pre' & mid' & Heq & H1 & H2).
      * rewrite <- app_assoc. simpl. exact Hok.
      * exact Hpre.
      * apply Forall_app; split; [ exact Hmid | ].
        constructor; [ | constructor ]. apply total; auto.
      * exists pre', mid'. split; [ | auto ].
        rewrite <- Heq, <- app_assoc. reflexivity.
Qed.

Lemma reduce_first_min l :
  l <> [] -> Forall ok l ->
  exists before best after,
    reduce f l = Some best /\
    l = before ++ best :: after /\
    Forall (fun c => lt best c = true) before /\
    Forall (fun c => le best c = true) l.
Proof.
  destruct l as [ | a l ]; [ congruence | intros _ Hok ].
  destruct (fold_keeps_first_min l [] a []) as (pre' & mid' & Heq & H1 & H2);
    [ exact Hok | constructor | constructor | ].
  simpl in Heq.
  assert (Hin : forall c, In c (pre' ++ fold_left f l a :: mid') -> ok c).
  { rewrite <- Heq. apply Forall_forall, Hok. }
  assert (Hb : ok (fold_left f l a)).
  { apply Hin, in_or_app; right; left; reflexivity. }
  exists pre', (fold_left f l a), mid'. simpl. repeat split; auto.
  rewrite Heq. apply Forall_app; split.
  - rewrite Forall_forall in *; intros c Hc.
    apply lt_le; auto. apply Hin, in_or_app; left; exact Hc.
  - constructor; auto.
Qed.
End ReduceMin.

(** ** The aspect-ratio matcher *)

Module Matcher.
Import Num NumFacts.

Lemma supported_labels : map rid supported = labels.
Proof. reflexivity. Qed.

Lemma supported_finite : Forall (fun c => finite (val c) = true) supported.
Proof. repeat constructor. Qed.

Lemma distance_not_nan ratio c :
  isNaN ratio = false -> finite (val c) = true ->
  isNaN (distance ratio c) = false.
Proof.
  intros Hr Hc. unfold distance. apply abs_not_nan, sub_not_nan; assumption.
Qed.

Lemma closer_either ratio prev curr :
  closer ratio prev curr = prev \/ closer ratio prev curr = curr.
Proof. unfold closer. destruct (ltb _ _); auto. Qed.

Lemma fold_closer_in ratio l : forall a, In (fold_left (closer ratio) l a) (a :: l).
Proof.
  induction l as [ | x l IH ]; intros a; simpl.
  - left; reflexivity.
  - destruct (closer_either ratio a x) as [-> | ->].
    + destruct (IH a) as [H | H]; [ left; exact H | right; right; exact H ].
    + right. apply IH.
Qed.

(** Whatever the dimensions, the matcher answers with one of the five labels. *)
Lemma aspectRatioOf_total width height :
  exists label, aspectRatioOf width height = Some label /\ In label labels.
Proof.
  unfold aspectRatioOf, bestMatch.
  set (ratio := div width height).
  change supported with (hd (mkRatio "" S754_nan) supported :: tl supported).
  unfold reduce.
  pose proof (fold_closer_in ratio (tl supported) (hd (mkRatio "" S754_nan) supported)) as H.
  change (hd (mkRatio "" S754_nan) supported :: tl supported) with supported in H.
  eexists; split; [ reflexivity | ].
  rewrite <- supported_labels. apply in_map. exact H.
Qed.

(** With a height of zero the ratio is an infinity or a NaN, every
    distance is then the same infinity or a NaN, no comparison
    succeeds, and the first entry stays. *)
Lemma aspectRatioOf_zero_height width height :
  isZero height = true -> aspectRatioOf width height = Some "1:1".
Proof.
  destruct height as [ sy | | | ]; try discriminate; intros _.
  destruct width as [ [ | ] | [ | ] | | [ | ] m e ]; destruct sy;
    unfold aspectRatioOf, bestMatch, div; cbn [SFdiv xorb];
    vm_compute; reflexivity.
Qed.

End Matcher.

(** C3. For every finite positive width and height the matcher returns
    the label of the supported ratio whose binary64 distance
    [Math.abs(val - width/height)] is smallest (no candidate is closer),
    and every ratio declared before it is strictly farther, so a tie
    goes to the earliest declared label. (1000,1000) gives "1:1",
    (1920,1080) gives "16:9", (1080,1920) gives "9:16" and (800,600)
    gives "4:3". *)
Theorem closest_aspect_ratio :
  (forall width height,
      Num.posFinite width = true -> Num.posFinite height = true ->
      exists before best after,
        supported = before ++ best :: after /\
        aspectRatioOf width height = Some (rid best) /\
        (forall c, In c supported ->
           Num.leb (distance (Num.div width height) best)
                   (distance (Num.div width height) c) = true) /\
        (forall c, In c before ->
           Num.ltb (distance (Num.div width height) best)
                   (distance (Num.div width height) c) = true))
  /\ aspectRatioOf (Num.ofInt 1000) (Num.ofInt 1000) = Some "1:1"
  /\ aspectRatioOf (Num.ofInt 1920) (Num.ofInt 1080) = Some "16:9"
  /\ aspectRatioOf (Num.ofInt 1080) (Num.ofInt 1920) = Some "9:16"
  /\ aspectRatioOf (Num.ofInt 800) (Num.ofInt 600) = Some "4:3".
Proof.
  split; [ | repeat split; vm_compute; reflexivity ].
  intros width height Hw Hh.
  pose proof (NumFacts.div_not_nan width height Hw Hh) as Hr.
  set (ratio := Num.div width height) in *.
  set (d := distance ratio).
  destruct (reduce_first_min
              (fun a b => Num.ltb (d a) (d b)) (fun a b => Num.leb (d a) (d b))
              (fun c => Num.isNaN (d c) = false) (closer ratio))
    with (l := supported)
    as (before & best & after & Hred & Hsplit & Hlt & Hle).
  - reflexivity.
  - intros; apply (NumFacts.ltb_trans _ (d y)); assumption.
  - intros; apply (NumFacts.ltb_leb_trans _ (d y)); assumption.
  - intros; apply NumFacts.ltb_false_leb; assumption.
  - intros; apply NumFacts.leb_refl; assumption.
  - intros; apply NumFacts.ltb_leb; assumption.
  - discriminate.
  - eapply Forall_impl; [ | exact Matcher.supported_finite ].
    intros c Hc. apply Matcher.distance_not_nan; assumption.
  - exists before, best, after. repeat split.
    + exact Hsplit.
    + unfold aspectRatioOf, bestMatch. fold ratio. rewrite Hred. reflexivity.
    + rewrite Forall_forall in Hle. exact Hle.
    + rewrite Forall_forall in Hlt. exact Hlt.
Qed.

(** The matcher at an 800 by 600 image. *)
Lemma closest_aspect_ratio_witness :
  Num.posFinite (Num.ofInt 800) = true /\ Num.posFinite (Num.ofInt 600) = true /\
  exists before best after,
    supported = before ++ best :: after /\
    aspectRatioOf (Num.ofInt 800) (Num.ofInt 600) = Some (rid best) /\
    (forall c, In c supported ->
       Num.leb (distance (Num.div (Num.ofInt 800) (Num.ofInt 600)) best)
               (distance (Num.div (Num.ofInt 800) (Num.ofInt 600)) c) = true) /\
    (forall c, In c before ->
       Num.ltb (distance (Num.div (Num.ofInt 800) (Num.ofInt 600)) best)
               (distance (Num.div (Num.ofInt 800) (Num.ofInt 600)) c) = true).
Proof.
  split; [ reflexivity | split; [ reflexivity | ] ].
  apply (proj1 closest_aspect_ratio (Num.ofInt 800) (Num.ofInt 600));
    reflexivity.
Defined.

(** C7 fails on the code: with a height of zero the matcher still
    answers, and the promise of [prepareImageForGenAI] resolves. *)
Lemma zero_height_is_matched :
  Num.isZero (Num.ofInt 0) = true /\
  aspectRatioOf (Num.ofInt 100) (Num.ofInt 0) = Some "1:1" /\
  prepareImageForGenAI
    (mkFile "flat.png" "image/png" (Some "data:image/png;base64,AAAA")
            (Some (Num.ofInt 100, Num.ofInt 0)))
  = Resolved (mkPrepared (Some "AAAA") (Some "1:1")).
Proof. repeat split; vm_compute; reflexivity. Qed.

(** C7, amended. The matcher has no failure of its own: for every width
    and height, zero, infinite and NaN included, it returns one of the
    five supported labels, and "1:1" when the height is zero; the
    promise of [prepareImageForGenAI] resolves with that label whenever
    the file could be read and decoded. *)
Theorem matcher_never_fails :
  forall width height,
    exists label,
      aspectRatioOf width height = Some label /\
      In label labels /\
      (Num.isZero height = true -> label = "1:1") /\
      (forall f url,
          dataURL f = Some url -> dimensions f = Some (width, height) ->
          prepareImageForGenAI f
          = Resolved (mkPrepared (splitComma1 url) (Some label))).
Proof.
  intros width height.
  destruct (Matcher.aspectRatioOf_total width height) as (label & Hl & Hin).
  exists label. repeat split; auto.
  - intros Hz. rewrite (Matcher.aspectRatioOf_zero_height _ _ Hz) in Hl.
    congruence.
  - intros f url Hu Hd. unfold prepareImageForGenAI.
    rewrite Hu, Hd, Hl. reflexivity.
Qed.

(** The amended C7 at a 100 by 0 image. *)
Lemma matcher_never_fails_witness :
  exists label,
    aspectRatioOf (Num.ofInt 100) (Num.ofInt 0) = Some label /\
    In label labels /\
    (Num.isZero (Num.ofInt 0) = true -> label = "1:1") /\
    (forall f url,
        dataURL f = Some url ->
        dimensions f = Some (Num.ofInt 100, Num.ofInt 0) ->
        prepareImageForGenAI f
        = Resolved (mkPrepared (splitComma1 url) (Some label))).
Proof. exact (matcher_never_fails (Num.ofInt 100) (Num.ofInt 0)). Defined.

(** ** The processor *)

Module Processor.

Lemma nth_error_setNth_eq {A : Type} (l : list A) : forall n x y,
  nth_error l n = Some y -> nth_error (setNth n x l) n = Some x.
Proof.
  induction l as [ | a l IH ]; intros [ | n ] x y H; simpl in *;
    try discriminate; eauto.
Qed.

Lemma nth_error_setNth_neq {A : Type} (l : list A) : forall n m x,
  n <> m -> nth_error (setNth n x l) m = nth_error l m.
Proof.
  induction l as [ | a l IH ]; intros [ | n ] [ | m ] x H; simpl;
    try reflexivity; try congruence.
  apply IH; congruence.
Qed.

(** What [nextIteration] leaves alone, and the run it records. *)
Lemma nextIteration_frame r rest prompt s :
  queue (nextIteration r rest prompt s) = queue s /\
  hasKey (nextIteration r rest prompt s) = hasKey s /\
  globalPrompt (nextIteration r rest prompt s) = globalPrompt s /\
  outbox (nextIteration r rest prompt s) = outbox s /\
  runs (nextIteration r rest prompt s)
  = setNth r (mkRun rest (match rest with [] => Done | _ => AwaitQueue end) prompt)
           (runs s) /\
  isProcessing (nextIteration r rest prompt s)
  = match rest with [] => false | _ => isProcessing s end.
Proof. destruct rest; repeat split; reflexivity. Qed.

Lemma mapItem_hit key f q i :
  (forall j, id (f j) = id j) ->
  In i (mapItem key f q) -> id i = key ->
  exists j, In j q /\ id j = key /\ i = f j.
Proof.
  intros Hf Hin Hid. unfold mapItem in Hin.
  apply in_map_iff in Hin. destruct Hin as (j & Hj & Hin).
  exists j. destruct (String.eqb (id j) key) eqn:E.
  - apply String.eqb_eq in E. auto.
  - apply String.eqb_neq in E. congruence.
Qed.

End Processor.

(** C9. When it is the turn of a work-list item that is no longer in
    the queue, the step of the run changes neither the queue nor the
    credential flag, the prompt, the requests sent or any other run; it
    does not end the run early: the run goes on to wait for the next
    item of its work list, or, when this was the last one, finishes as a
    run normally does. *)
Theorem removed_item_is_skipped :
  forall s r rn item rest,
    nth_error (runs s) r = Some rn ->
    pc rn = AwaitQueue ->
    pendingItems rn = item :: rest ->
    present (id item) (queue s) = false ->
    queue (step s (Resume r)) = queue s /\
    hasKey (step s (Resume r)) = hasKey s /\
    globalPrompt (step s (Resume r)) = globalPrompt s /\
    outbox (step s (Resume r)) = outbox s /\
    (forall r', r' <> r ->
       nth_error (runs (step s (Resume r))) r' = nth_error (runs s) r') /\
    match rest with
    | [] =>
        nth_error (runs (step s (Resume r))) r = Some (mkRun [] Done (runPrompt rn)) /\
        isProcessing (step s (Resume r)) = false
    | next :: _ =>
        nth_error (runs (step s (Resume r))) r
        = Some (mkRun rest AwaitQueue (runPrompt rn)) /\
        isProcessing (step s (Resume r)) = isProcessing s
    end.
Proof.
  intros s r rn item rest Hr Hpc Hpend Habs.
  unfold step, enabled, handle, resume.
  rewrite Hr, Hpc, Hpend, Habs.
  destruct (Processor.nextIteration_frame r rest (runPrompt rn) s)
    as (Hq & Hk & Hg & Ho & Hruns & Hp).
  repeat split; try assumption.
  - intros r' Hne. rewrite Hruns. apply Processor.nth_error_setNth_neq. congruence.
  - destruct rest as [ | next rest' ]; rewrite Hruns, Hp; split;
      try reflexivity; eapply Processor.nth_error_setNth_eq; eassumption.
Qed.

(** *** The fatal failure *)

(** On a rejection classified as [AuthRejected] the run clears both
    flags and returns: the queue is exactly as it was, so the item in
    flight keeps the status it was given on entry and the items not yet
    started are untouched; nothing resumes the run afterwards. *)
Lemma auth_rejected_aborts_run :
  forall s r rn item message,
    nth_error (runs s) r = Some rn ->
    pc rn = AwaitGenerate item ->
    authRejected message = true ->
    hasKey (step s (Respond r (Rejected message))) = false /\
    isProcessing (step s (Respond r (Rejected message))) = false /\
    queue (step s (Respond r (Rejected message))) = queue s /\
    outbox (step s (Respond r (Rejected message))) = outbox s /\
    nth_error (runs (step s (Respond r (Rejected message)))) r
    = Some (mkRun (pendingItems rn) Done (runPrompt rn)) /\
    (forall res,
        step (step s (Respond r (Rejected message))) (Resume r)
        = step s (Respond r (Rejected message)) /\
        step (step s (Respond r (Rejected message))) (Respond r res)
        = step s (Respond r (Rejected message))).
Proof.
  intros s r rn item message Hr Hpc Hauth.
  assert (Hs : step s (Respond r (Rejected message))
               = setRun r (mkRun (pendingItems rn) Done (runPrompt rn))
                   (setIsProcessing false (setHasKey false s))).
  { unfold step, enabled, handle, respond, catchBlock.
    rewrite Hr, Hpc, Hauth. reflexivity. }
  rewrite Hs.
  assert (Hn : nth_error (runs (setRun r (mkRun (pendingItems rn) Done (runPrompt rn))
                                  (setIsProcessing false (setHasKey false s)))) r
               = Some (mkRun (pendingItems rn) Done (runPrompt rn))).
  { simpl. eapply Processor.nth_error_setNth_eq; eassumption. }
  repeat split; try reflexivity; try exact Hn.
  - unfold step, enabled, handle, resume. rewrite Hn. reflexivity.
  - unfold step, enabled, handle, respond. rewrite Hn. reflexivity.
Qed.

(** C1, on the code. A run over three items whose second request is
    rejected with "Requested entity was not found.": the credential flag
    and the active flag are cleared, the run has returned, the first
    item is [success], the third is still [idle], but the second item is
    left [processing], not [error]. *)
Theorem auth_rejected_leaves_item_processing :
  hasKey (exec Scenario.authRejectedAtSecond initial) = false /\
  isProcessing (exec Scenario.authRejectedAtSecond initial) = false /\
  map pc (runs (exec Scenario.authRejectedAtSecond initial)) = [Done] /\
  Scenario.view (exec Scenario.authRejectedAtSecond initial)
  = [ (Scenario.idA, success, Some "data:image/png;base64,QUJD", None);
      (Scenario.idB, processing, None, None);
      (Scenario.idC, idle, None, None) ].
Proof. vm_compute. repeat split. Qed.

(** *** Cancellation *)

(** A step of the loop never reads the active flag: with the flag
    cleared, the next item present in the queue is still started. *)
Lemma cleared_flag_does_not_stop_run :
  forall s r rn item rest,
    nth_error (runs s) r = Some rn ->
    pc rn = AwaitQueue ->
    pendingItems rn = item :: rest ->
    present (id item) (queue s) = true ->
    isProcessing s = false ->
    queue (step s (Resume r)) = mapItem (id item) asProcessing (queue s) /\
    nth_error (runs (step s (Resume r))) r
    = Some (mkRun rest (AwaitPrepare item) (runPrompt rn)).
Proof.
  intros s r rn item rest Hr Hpc Hpend Hpres _.
  unfold step, enabled, handle, resume. rewrite Hr, Hpc, Hpend, Hpres.
  split; [ reflexivity | ].
  simpl. eapply Processor.nth_error_setNth_eq; eassumption.
Qed.

(** C2, on the code. Stop is pressed while the first item is in flight.
    When its request has completed the active flag is cleared and the
    second item is idle; the next step of the run nevertheless moves the
    second item to [processing] and goes on to prepare its request. *)
Theorem cancel_does_not_stop_next_item :
  isProcessing (exec Scenario.cancelledFirstDone initial) = false /\
  statusOf Scenario.idB (queue (exec Scenario.cancelledFirstDone initial)) = Some idle /\
  isProcessing (exec Scenario.cancelDuringFirst initial) = false /\
  statusOf Scenario.idB (queue (exec Scenario.cancelDuringFirst initial)) = Some processing /\
  map inFlight (runs (exec Scenario.cancelledFirstDone initial)) = [None] /\
  map inFlight (runs (exec Scenario.cancelDuringFirst initial)) = [Some Scenario.idB].
Proof. vm_compute. repeat split. Qed.

(** *** Single flight *)

(** C4 fails on the code. (a) Stop, then start while the first request is
    still in flight: the new run moves the second item to [processing]
    while the first item is still [processing]. (b) After a run aborted
    by an authentication failure its item stays [processing]; the next
    run puts a second item in [processing] beside it. *)
Theorem two_items_processing :
  countProcessing (queue (exec Scenario.restartAfterCancel initial)) = 2 /\
  Scenario.view (exec Scenario.restartAfterCancel initial)
  = [ (Scenario.idA, processing, None, None);
      (Scenario.idB, processing, None, None);
      (Scenario.idC, idle, None, None) ] /\
  countProcessing (queue (exec Scenario.restartAfterAuthAbort initial)) = 2 /\
  Scenario.view (exec Scenario.restartAfterAuthAbort initial)
  = [ (Scenario.idA, success, Some "data:image/png;base64,QUJD", None);
      (Scenario.idB, processing, None, None);
      (Scenario.idC, processing, None, None) ].
Proof. vm_compute. repeat split. Qed.

(** *** The data-model invariant *)

(** Entering [processing] clears the error message of the item: after
    the step every queue entry with the identifier of the item is
    [processing] and has no error message. *)
Lemma processing_clears_error :
  forall s r rn item rest,
    nth_error (runs s) r = Some rn ->
    pc rn = AwaitQueue ->
    pendingItems rn = item :: rest ->
    present (id item) (queue s) = true ->
    forall i, In i (queue (step s (Resume r))) -> id i = id item ->
              status i = processing /\ errorMsg i = None.
Proof.
  intros s r rn item rest Hr Hpc Hpend Hpres i Hin Hid.
  unfold step, enabled, handle, resume in Hin.
  rewrite Hr, Hpc, Hpend, Hpres in Hin. simpl in Hin.
  apply Processor.mapItem_hit in Hin; [ | reflexivity | exact Hid ].
  destruct Hin as (j & _ & _ & ->). split; reflexivity.
Qed.

(** C5 fails on the code. Two runs overlap after stop and start. The second
    run completes the second item; every item then satisfies the
    invariant. The first run, never stopped, reaches the same item and
    moves it to [processing] with its result still attached. *)
Theorem overlapping_runs_break_invariant :
  forallb wellFormed (queue (exec Scenario.secondDoneTwice initial)) = true /\
  forallb wellFormed (queue (exec Scenario.overlappingRuns initial)) = false /\
  Scenario.view (exec Scenario.overlappingRuns initial)
  = [ (Scenario.idA, success, Some "data:image/png;base64,QUJD", None);
      (Scenario.idB, processing, Some "data:image/png;base64,QUJD", None);
      (Scenario.idC, idle, None, None) ].
Proof. vm_compute. repeat split. Qed.

(** *** Error labels *)

(** C8 fails on the code: a message that carries both markers is
    labelled as rate-limited, not as a safety rejection. *)
Lemma safety_message_with_429 :
  authRejected (Some "Safety block (request 4290)") = false /\
  optIncludes (Some "Safety block (request 4290)") "Safety" = true /\
  errorLabel (Some "Safety block (request 4290)") = msgRateLimited /\
  msgRateLimited <> msgSafety.
Proof. repeat split; try (vm_compute; reflexivity). discriminate. Qed.

(** C8, amended. For a failure that is not an authentication rejection
    the label is the rate-limit label whenever the message contains
    "429", the safety label when it contains "Safety" and not "429", and
    the generic generation-failed label otherwise; that label is recorded
    on the item: every queue entry with the identifier of the item ends
    in [error] with the label as its error message. *)
Theorem error_label_recorded :
  forall s r rn item message,
    nth_error (runs s) r = Some rn ->
    pc rn = AwaitGenerate item ->
    authRejected message = false ->
    errorLabel message
    = (if optIncludes message "429" then msgRateLimited
       else if optIncludes message "Safety" then msgSafety
       else msgGenerationFailed) /\
    queue (step s (Respond r (Rejected message)))
    = mapItem (id item) (asError (errorLabel message)) (queue s) /\
    (forall i, In i (queue (step s (Respond r (Rejected message)))) ->
               id i = id item ->
               status i = error /\ errorMsg i = Some (errorLabel message)).
Proof.
  intros s r rn item message Hr Hpc Hauth.
  assert (Hq : queue (step s (Respond r (Rejected message)))
               = mapItem (id item) (asError (errorLabel message)) (queue s)).
  { unfold step, enabled, handle, respond, catchBlock.
    rewrite Hr, Hpc, Hauth.
    apply (Processor.nextIteration_frame r (pendingItems rn) (runPrompt rn)). }
  split; [ | split; [ exact Hq | ] ].
  - unfold errorLabel.
    destruct (optIncludes message "429"), (optIncludes message "Safety"); reflexivity.
  - intros i Hin Hid. rewrite Hq in Hin.
    apply Processor.mapItem_hit in Hin; [ | reflexivity | assumption ].
    destruct Hin as (j & _ & _ & ->). split; reflexivity.
Qed.

(** *** What a step of a run can do *)

Module RunFacts.
Import Processor.

Lemma setNth_same {A : Type} (l : list A) : forall n x,
  nth_error l n = Some x -> setNth n x l = l.
Proof.
  induction l as [ | a l IH ]; intros [ | n ] x H; simpl in *;
    try discriminate; try congruence.
  f_equal. auto.
Qed.

Lemma advances_refl q rn : advances q q rn rn.
Proof.
  repeat split.
  - exists []; reflexivity.
  - exists (fun x => x). split; [ symmetry; apply map_id | reflexivity ].
Qed.

Lemma mapItem_touches key f q (l : list QueueItem) :
  In key (map id l) ->
  exists g, mapItem key f q = map g q /\
            forall x, ~ In (id x) (map id l) -> g x = x.
Proof.
  intros Hin. exists (fun i => if String.eqb (id i) key then f i else i).
  split; [ reflexivity | ].
  intros x Hx. destruct (String.eqb (id x) key) eqn:E; [ | reflexivity ].
  apply String.eqb_eq in E. congruence.
Qed.

Lemma untouched (q : list QueueItem) (l : list QueueItem) :
  exists g, q = map g q /\ forall x, ~ In (id x) (map id l) -> g x = x.
Proof. exists (fun x => x). split; [ symmetry; apply map_id | reflexivity ]. Qed.

Ltac solve_suffix :=
  match goal with
  | |- exists done, ?l = done ++ ?l => exists []; reflexivity
  | |- exists done, ?a :: ?l = done ++ ?l => exists [a]; reflexivity
  | |- exists done, ?l = done ++ [] => exists l; symmetry; apply app_nil_r
  end.

(** The steps of the model are moves. *)

Lemma catchBlock_moves r item pend c prompt message k q p g rs o abort :
  current (mkRun pend c prompt) = Some item ->
  (authRejected message = true -> abort = true) ->
  exists rn' k' q' p' o',
    catchBlock r item pend prompt message (mkApp k q p g rs o)
    = mkApp k' q' p' g (setNth r rn' rs) o' /\
    Move abort q p (mkRun pend c prompt) q' p' rn'.
Proof.
  intros Hc Hab. unfold catchBlock. destruct (authRejected message).
  - exists (mkRun pend Done prompt), false, q, false, o.
    split; [ reflexivity | ].
    apply (MoveAbort abort q p (mkRun pend c prompt) item); auto.
  - exists (continue pend prompt), k,
      (mapItem (id item) (asError (errorLabel message)) q), (flagAfter pend p), o.
    split; [ destruct pend; reflexivity | ].
    apply (MoveError abort q p (mkRun pend c prompt) item); exact Hc.
Qed.

Lemma resume_move r s rn :
  nth_error (runs s) r = Some rn ->
  exists rn' k' q' p' o',
    resume r s = mkApp k' q' p' (globalPrompt s) (setNth r rn' (runs s)) o' /\
    Move false (queue s) (isProcessing s) rn q' p' rn'.
Proof.
  intros Hr. destruct s as [k q p g rs o]; simpl in *.
  assert (Hstay : forall rn0, nth_error rs r = Some rn0 ->
    exists rn' k' q' p' o',
      mkApp k q p g rs o = mkApp k' q' p' g (setNth r rn' rs) o' /\
      Move false q p rn0 q' p' rn').
  { intros rn0 H0. exists rn0, k, q, p, o.
    rewrite (setNth_same rs r _ H0). split; [ reflexivity | constructor ]. }
  unfold resume; simpl; rewrite Hr.
  destruct rn as [pend c prompt]; simpl.
  destruct c as [ | item | item | ]; simpl; try (apply Hstay; exact Hr).
  - destruct pend as [ | item rest ]; [ apply Hstay; exact Hr | ].
    destruct (present (id item) q) eqn:Hpres.
    + exists (mkRun rest (AwaitPrepare item) prompt), k,
        (mapItem (id item) asProcessing q), p, o.
      split; [ reflexivity | ].
      apply (MoveMark false q p (mkRun (item :: rest) AwaitQueue prompt) item rest);
        auto.
    + exists (continue rest prompt), k, q, (flagAfter rest p), o.
      split; [ destruct rest; reflexivity | ].
      apply (MoveSkip false q p (mkRun (item :: rest) AwaitQueue prompt) item rest);
        auto.
  - destruct (prepareImageForGenAI (file item)) as [ prepared | message ] eqn:Hprep.
    + exists (mkRun pend (AwaitGenerate item) prompt), k, q, p,
        (o ++ [buildRequest prompt item prepared]).
      split; [ reflexivity | ].
      apply (MoveSend false q p (mkRun pend (AwaitPrepare item) prompt) item).
      reflexivity.
    + apply catchBlock_moves; [ reflexivity | ].
      (* the rejection of a reader or an image has no message *)
      unfold prepareImageForGenAI in Hprep.
      destruct (dataURL (file item)); [ | injection Hprep as <-; discriminate ].
      destruct (dimensions (file item)) as [ [w h] | ];
        [ discriminate | injection Hprep as <-; discriminate ].
Qed.

Lemma respond_move r res s rn :
  nth_error (runs s) r = Some rn ->
  exists rn' k' q' p' o',
    respond r res s = mkApp k' q' p' (globalPrompt s) (setNth r rn' (runs s)) o' /\
    Move (authFailure res) (queue s) (isProcessing s) rn q' p' rn'.
Proof.
  intros Hr. destruct s as [k q p g rs o]; simpl in *.
  unfold respond; simpl; rewrite Hr.
  destruct rn as [pend c prompt]; simpl.
  destruct c as [ | item | item | ]; simpl;
    try (eexists (mkRun pend _ prompt), k, q, p, o;
         rewrite (setNth_same rs r _ Hr);
         split; [ reflexivity | constructor ]).
  destruct res as [ response | message ].
  - destruct (extractImage response) as [ imageUrl | ].
    + exists (continue pend prompt), k,
        (mapItem (id item) (asSuccess imageUrl) q), (flagAfter pend p), o.
      split; [ destruct pend; reflexivity | ].
      apply (MoveSuccess _ q p (mkRun pend (AwaitGenerate item) prompt) item).
      reflexivity.
    + apply catchBlock_moves; [ reflexivity | ].
      vm_compute. discriminate.
  - apply catchBlock_moves; [ reflexivity | ].
    simpl. auto.
Qed.

Lemma move_advances abort q p rn q' p' rn' :
  Move abort q p rn q' p' rn' -> advances q q' rn rn'.
Proof.
  intros H. destruct rn as [pend c prompt].
  destruct H as [ | item rest Hpc Hpend Hpres | item rest Hpc Hpend Hpres
                | item Hpc | item url Hcur | item msg Hcur | item Hab Hcur ];
    simpl in *; subst;
    try apply advances_refl;
    try (unfold current in Hcur; simpl in Hcur;
         destruct c as [ | it | it | ]; try discriminate;
         injection Hcur as ->);
    unfold advances, workList, continue; simpl;
    repeat split;
    try (destruct rest; simpl; solve_suffix);
    try (destruct pend; simpl; solve_suffix);
    try solve_suffix;
    try apply (untouched q (item :: rest));
    try apply (untouched q (item :: pend));
    try (apply (mapItem_touches _ _ _ (item :: rest)); left; reflexivity);
    try (apply (mapItem_touches _ _ _ (item :: pend)); left; reflexivity).
Qed.

Lemma resume_effect r s rn :
  nth_error (runs s) r = Some rn ->
  exists rn' k' q' p' o',
    resume r s = mkApp k' q' p' (globalPrompt s) (setNth r rn' (runs s)) o' /\
    advances (queue s) q' rn rn'.
Proof.
  intros Hr.
  destruct (resume_move r s rn Hr) as (rn' & k' & q' & p' & o' & Heq & Hm).
  exists rn', k', q', p', o'. split; [ exact Heq | ].
  eapply move_advances; eassumption.
Qed.

Lemma respond_effect r res s rn :
  nth_error (runs s) r = Some rn ->
  exists rn' k' q' p' o',
    respond r res s = mkApp k' q' p' (globalPrompt s) (setNth r rn' (runs s)) o' /\
    advances (queue s) q' rn rn'.
Proof.
  intros Hr.
  destruct (respond_move r res s rn Hr) as (rn' & k' & q' & p' & o' & Heq & Hm).
  exists rn', k', q', p', o'. split; [ exact Heq | ].
  eapply move_advances; eassumption.
Qed.

(** The runs that exist keep their place; a call of [processQueue] can
    only add one at the end. *)
Lemma processQueue_runs s r rn :
  nth_error (runs s) r = Some rn ->
  nth_error (runs (processQueue s)) r = Some rn.
Proof.
  intros Hr. unfold processQueue. destruct (isProcessing s); [ exact Hr | ].
  assert (Hlt : r < List.length (runs s)) by (apply nth_error_Some; congruence).
  match goal with
  | |- nth_error (runs (nextIteration ?i ?l ?p ?t)) _ = _ =>
      destruct (nextIteration_frame i l p t) as (_ & _ & _ & _ & -> & _)
  end.
  rewrite nth_error_setNth_neq by lia.
  simpl. rewrite nth_error_app1 by exact Hlt. exact Hr.
Qed.

(** Any event leaves a run where it was or advances it. *)
Lemma step_run s e r rn :
  nth_error (runs s) r = Some rn ->
  exists rn',
    nth_error (runs (step s e)) r = Some rn' /\
    runPrompt rn' = runPrompt rn /\
    exists done, workList rn = done ++ workList rn'.
Proof.
  intros Hr.
  assert (Hsame : exists rn', nth_error (runs s) r = Some rn' /\
                    runPrompt rn' = runPrompt rn /\
                    exists done, workList rn = done ++ workList rn').
  { exists rn. repeat split; [ exact Hr | exists []; reflexivity ]. }
  unfold step. destruct (enabled s e); [ | exact Hsame ].
  destruct e; simpl handle; try exact Hsame.
  - exists rn. repeat split; [ apply processQueue_runs, Hr | exists []; reflexivity ].
  - destruct (Nat.eq_dec r0 r) as [ -> | Hne ].
    + destruct (resume_effect r s rn Hr)
        as (rn' & k' & q' & p' & o' & -> & Hp & Hsuf & _).
      exists rn'. simpl. split; [ | auto ].
      eapply nth_error_setNth_eq; eassumption.
    + destruct (nth_error (runs s) r0) as [ rn0 | ] eqn:Hr0.
      * destruct (resume_effect r0 s rn0 Hr0)
          as (rn' & k' & q' & p' & o' & -> & _).
        simpl. rewrite nth_error_setNth_neq by exact Hne. exact Hsame.
      * unfold resume. rewrite Hr0. exact Hsame.
  - destruct (Nat.eq_dec r0 r) as [ -> | Hne ].
    + destruct (respond_effect r res s rn Hr)
        as (rn' & k' & q' & p' & o' & -> & Hp & Hsuf & _).
      exists rn'. simpl. split; [ | auto ].
      eapply nth_error_setNth_eq; eassumption.
    + destruct (nth_error (runs s) r0) as [ rn0 | ] eqn:Hr0.
      * destruct (respond_effect r0 res s rn0 Hr0)
          as (rn' & k' & q' & p' & o' & -> & _).
        simpl. rewrite nth_error_setNth_neq by exact Hne. exact Hsame.
      * unfold respond. rewrite Hr0. exact Hsame.
Qed.

Lemma exec_run es : forall s r rn,
  nth_error (runs s) r = Some rn ->
  exists rn',
    nth_error (runs (exec es s)) r = Some rn' /\
    runPrompt rn' = runPrompt rn /\
    exists done, workList rn = done ++ workList rn'.
Proof.
  induction es as [ | e es IH ]; intros s r rn Hr; simpl.
  - exists rn. repeat split; [ exact Hr | exists []; reflexivity ].
  - destruct (step_run s e r rn Hr) as (rn1 & Hr1 & Hp1 & done1 & Hd1).
    destruct (IH (step s e) r rn1 Hr1) as (rn2 & Hr2 & Hp2 & done2 & Hd2).
    exists rn2. repeat split; [ exact Hr2 | congruence | ].
    exists (done1 ++ done2). rewrite <- app_assoc. congruence.
Qed.

End RunFacts.

(** *** The work list *)

Lemma processQueue_starts s :
  enabled s ProcessQueue = true ->
  nth_error (runs (step s ProcessQueue)) (List.length (runs s))
  = Some (mkRun (filter eligible (queue s)) AwaitQueue (globalPrompt s)).
Proof.
  intros Hen. unfold step. rewrite Hen. simpl handle.
  unfold enabled in Hen.
  apply andb_true_iff in Hen. destruct Hen as [_ Hen].
  apply negb_true_iff, orb_false_iff in Hen. destruct Hen as [Hp Hne].
  unfold processQueue. rewrite Hp.
  destruct (filter eligible (queue s)) as [ | i l ] eqn:Hf; [ discriminate | ].
  simpl. eapply Processor.nth_error_setNth_eq.
  rewrite nth_error_app2, Nat.sub_diag by lia. reflexivity.
Qed.

(** The filter callback of line 130, read off the status. *)
Lemma eligible_status i :
  eligible i = match status i with
               | idle | error => true
               | processing | success => false
               end.
Proof. unfold eligible. destruct (status i); reflexivity. Qed.

(** C6. A call of [processQueue] that is let through starts a run whose
    work list is exactly the queue items whose status is [idle] or
    [error] at that moment, in queue order: items that are [processing]
    or [success] are left out. Whatever happens afterwards (items added,
    removed or edited, other steps and runs) the work list of that run
    is a final segment of that snapshot, so nothing is ever added to it,
    and a step of the run changes no queue entry whose identifier is not
    in the snapshot. As the state at the call is arbitrary, an item
    queued later is in the work list of the next call made while it is
    [idle] or [error]. *)
Theorem work_list_is_snapshot :
  forall s,
    enabled s ProcessQueue = true ->
    exists rn0,
      nth_error (runs (step s ProcessQueue)) (List.length (runs s)) = Some rn0 /\
      workList rn0
      = filter (fun i => match status i with
                         | idle | error => true
                         | processing | success => false
                         end) (queue s) /\
      (forall x, In x (workList rn0) <->
                 In x (queue s) /\ (status x = idle \/ status x = error)) /\
      (forall es,
          exists rn1 done,
            nth_error (runs (exec es (step s ProcessQueue))) (List.length (runs s))
            = Some rn1 /\
            workList rn0 = done ++ workList rn1 /\
            forall e res,
              e = Resume (List.length (runs s)) \/
              e = Respond (List.length (runs s)) res ->
              exists g,
                queue (step (exec es (step s ProcessQueue)) e)
                = map g (queue (exec es (step s ProcessQueue))) /\
                forall x, ~ In (id x) (map id (workList rn0)) -> g x = x).
Proof.
  intros s Hen. pose proof (processQueue_starts s Hen) as H0.
  eexists. split; [ exact H0 | ].
  split; [ apply filter_ext, eligible_status | ].
  split.
  - intros x. unfold workList; simpl. rewrite filter_In, eligible_status.
    destruct (status x); split; intros [Hx Hs]; split; auto; try discriminate;
      destruct Hs; discriminate.
  - intros es.
    destruct (RunFacts.exec_run es _ _ _ H0) as (rn1 & Hr1 & _ & done & Hd).
    exists rn1, done. split; [ exact Hr1 | ]. split; [ exact Hd | ].
    intros e res He.
    assert (Hsub : forall x, ~ In (id x) (map id (filter eligible (queue s))) ->
                             ~ In (id x) (map id (workList rn1))).
    { intros x Hx Hin. apply Hx. unfold workList at 1 in Hd. simpl in Hd.
      rewrite Hd, map_app. apply in_or_app. right. exact Hin. }
    destruct He as [ -> | -> ].
    + change (step ?t (Resume ?i)) with (resume i t).
      destruct (RunFacts.resume_effect _ _ _ Hr1)
        as (rn' & k' & q' & p' & o' & -> & _ & _ & g & Hg & Hfix).
      exists g. split; [ exact Hg | auto ].
    + change (step ?t (Respond ?i ?a)) with (respond i a t).
      destruct (RunFacts.respond_effect _ res _ _ Hr1)
        as (rn' & k' & q' & p' & o' & -> & _ & _ & g & Hg & Hfix).
      exists g. split; [ exact Hg | auto ].
Qed.

(** A queue with one item of each status: the run started on it holds
    the [error] and the [idle] item, in that order. *)
Lemma work_list_is_snapshot_witness :
  enabled (exec Cases.mixed initial) ProcessQueue = true /\
  map (fun i => (id i, status i)) (queue (exec Cases.mixed initial))
  = [ (Scenario.idA, success); (Scenario.idB, error);
      (Scenario.idC, processing); (newId Cases.fileD, idle) ] /\
  exists rn0,
    nth_error (runs (step (exec Cases.mixed initial) ProcessQueue))
              (List.length (runs (exec Cases.mixed initial))) = Some rn0 /\
    map id (workList rn0) = [ Scenario.idB; newId Cases.fileD ].
Proof.
  split; [ reflexivity | ]. split; [ reflexivity | ].
  destruct (work_list_is_snapshot (exec Cases.mixed initial) eq_refl)
    as (rn0 & H0 & Hw & _).
  exists rn0. split; [ exact H0 | ]. rewrite Hw. reflexivity.
Defined.

(** *** The instruction text *)

(** C10. The composed text is the global instruction, one space, then
    the custom instruction of the item, or nothing when the item has
    none. In a run started in state [s], whatever happens in between,
    the request sent for a work-list item carries the global instruction
    of [s] composed in this way with the custom instruction of that
    item as the work list holds it. *)
Theorem request_text_is_composed :
  (forall g item,
      finalPrompt g item
      = (g ++ " " ++ match customPrompt item with Some c => c | None => "" end)%string) /\
  (forall s es rn item prepared,
      enabled s ProcessQueue = true ->
      nth_error (runs (exec es (step s ProcessQueue))) (List.length (runs s))
      = Some rn ->
      pc rn = AwaitPrepare item ->
      prepareImageForGenAI (file item) = Resolved prepared ->
      In item (filter eligible (queue s)) /\
      exists req,
        outbox (step (exec es (step s ProcessQueue)) (Resume (List.length (runs s))))
        = (outbox (exec es (step s ProcessQueue)) ++ [req])%list /\
        text req
        = (globalPrompt s ++ " " ++
           match customPrompt item with Some c => c | None => "" end)%string).
Proof.
  assert (Hcompose : forall g item,
    finalPrompt g item
    = (g ++ " " ++ match customPrompt item with Some c => c | None => "" end)%string).
  { intros g item. unfold finalPrompt, orElse.
    destruct (customPrompt item) as [ c | ]; [ | reflexivity ].
    destruct (String.eqb c "") eqn:E; [ | reflexivity ].
    apply String.eqb_eq in E. subst c. reflexivity. }
  split; [ exact Hcompose | ].
  intros s es rn item prepared Hen Hr Hpc Hprep.
  pose proof (processQueue_starts s Hen) as H0.
  destruct (RunFacts.exec_run es _ _ _ H0) as (rn1 & Hr1 & Hp & done & Hd).
  rewrite Hr in Hr1. injection Hr1 as <-.
  simpl in Hp. unfold workList at 1 in Hd. simpl in Hd.
  split.
  - rewrite Hd. apply in_or_app. right. unfold workList. rewrite Hpc.
    left; reflexivity.
  - exists (buildRequest (runPrompt rn) item prepared).
    change (step ?t (Resume ?i)) with (resume i t).
    unfold resume. rewrite Hr, Hpc, Hprep.
    split; [ reflexivity | ].
    simpl. rewrite Hp. apply Hcompose.
Qed.

(** *** The theorems at the scenarios *)

(** The second item was removed while the first was in flight: at its
    turn the queue is left as it is and the run waits for the third. *)
Lemma removed_item_is_skipped_witness :
  present Scenario.idB (queue (exec Scenario.removedBeforeTurn initial)) = false /\
  queue (step (exec Scenario.removedBeforeTurn initial) (Resume 0))
  = queue (exec Scenario.removedBeforeTurn initial) /\
  nth_error (runs (step (exec Scenario.removedBeforeTurn initial) (Resume 0))) 0
  = Some (mkRun [Scenario.itemOf Scenario.fileC] AwaitQueue initialPrompt).
Proof.
  split; [ reflexivity | ].
  destruct (removed_item_is_skipped
              (exec Scenario.removedBeforeTurn initial) 0
              (mkRun [Scenario.itemOf Scenario.fileB; Scenario.itemOf Scenario.fileC]
                     AwaitQueue initialPrompt)
              (Scenario.itemOf Scenario.fileB) [Scenario.itemOf Scenario.fileC])
    as (Hq & _ & _ & _ & _ & Hr & _); try reflexivity.
  split; [ exact Hq | exact Hr ].
Defined.

(** The first request fails with a rate-limit message. *)
Lemma error_label_recorded_witness :
  authRejected (Some "429 Too Many Requests") = false /\
  errorLabel (Some "429 Too Many Requests") = msgRateLimited /\
  queue (step (exec Scenario.firstInFlight initial)
              (Respond 0 (Rejected (Some "429 Too Many Requests"))))
  = mapItem Scenario.idA (asError (errorLabel (Some "429 Too Many Requests")))
            (queue (exec Scenario.firstInFlight initial)).
Proof.
  split; [ reflexivity | ].
  destruct (error_label_recorded
              (exec Scenario.firstInFlight initial) 0
              (mkRun [Scenario.itemOf Scenario.fileB; Scenario.itemOf Scenario.fileC]
                     (AwaitGenerate (Scenario.itemOf Scenario.fileA)) initialPrompt)
              (Scenario.itemOf Scenario.fileA)
              (Some "429 Too Many Requests"))
    as (Hl & Hq & _); try reflexivity.
  split; [ exact Hl | exact Hq ].
Defined.

(** The request of the first of the three files. *)
Lemma request_text_is_composed_witness :
  enabled (exec Scenario.threeQueued initial) ProcessQueue = true /\
  exists req,
    outbox (step (exec [Resume 0] (step (exec Scenario.threeQueued initial) ProcessQueue))
                 (Resume 0))
    = [req] /\
    text req = (initialPrompt ++ " ")%string.
Proof.
  split; [ reflexivity | ].
  destruct (proj2 request_text_is_composed
              (exec Scenario.threeQueued initial) [Resume 0]
              (mkRun [Scenario.itemOf Scenario.fileB; Scenario.itemOf Scenario.fileC]
                     (AwaitPrepare (Scenario.itemOf Scenario.fileA)) initialPrompt)
              (Scenario.itemOf Scenario.fileA)
              (mkPrepared (Some "iVBORw0KGgo=") (Some "1:1")))
    as (_ & req & Ho & Ht); try reflexivity.
  exists req. split; [ exact Ho | exact Ht ].
Defined.

(** ** Calm executions keep the queue in order *)

Module Orderly.
Import Processor RunFacts.

Lemma distinct_NoDup l : distinct l = true -> NoDup l.
Proof.
  induction l as [ | x t IH ]; simpl; intros H; constructor.
  - apply andb_true_iff in H. destruct H as [H _].
    apply negb_true_iff in H. intros Hin.
    assert (existsb (String.eqb x) t = true); [ | congruence ].
    apply existsb_exists. exists x. split; [ exact Hin | apply String.eqb_refl ].
  - apply IH. apply andb_true_iff in H. tauto.
Qed.

Lemma mapItem_ids key f q :
  (forall j, id (f j) = id j) -> map id (mapItem key f q) = map id q.
Proof.
  intros Hf. unfold mapItem. rewrite map_map. apply map_ext.
  intros j. destruct (String.eqb (id j) key); auto.
Qed.

Lemma mapItem_in key f q i' :
  In i' (mapItem key f q) ->
  (exists j, In j q /\ id j = key /\ i' = f j) \/ (In i' q /\ id i' <> key).
Proof.
  unfold mapItem. intros Hin. apply in_map_iff in Hin.
  destruct Hin as (j & Hj & Hin).
  destruct (String.eqb (id j) key) eqn:E.
  - apply String.eqb_eq in E. left. exists j. auto.
  - apply String.eqb_neq in E. right. subst i'. auto.
Qed.

Lemma NoDup_ids_filter f (q : list QueueItem) :
  NoDup (map id q) -> NoDup (map id (filter f q)).
Proof.
  induction q as [ | i q IH ]; simpl; intros H; [ constructor | ].
  inversion H as [ | ? ? Hn Hq ]; subst.
  destruct (f i); simpl; auto.
  constructor; auto.
  intros Hin. apply Hn. apply in_map_iff in Hin.
  destruct Hin as (j & Hj & Hin). apply filter_In in Hin.
  apply in_map_iff. exists j. tauto.
Qed.

Lemma NoDup_ids_inj (q : list QueueItem) i j :
  NoDup (map id q) -> In i q -> In j q -> id i = id j -> i = j.
Proof.
  induction q as [ | a q IH ]; simpl; intros H Hi Hj E; [ contradiction | ].
  inversion H as [ | ? ? Hn Hq ]; subst.
  destruct Hi as [ -> | Hi ], Hj as [ -> | Hj ]; auto.
  - exfalso. apply Hn. rewrite E. apply in_map. exact Hj.
  - exfalso. apply Hn. rewrite <- E. apply in_map. exact Hi.
Qed.

(** *** The invariant of one item under the transitions *)

Lemma wf_unset i :
  wellFormed i = true ->
  status i = processing \/ status i = idle ->
  resultUrl i = None /\ errorMsg i = None.
Proof.
  unfold wellFormed. destruct i as [k f u st res cp err]; simpl.
  intros H [-> | ->]; destruct res, err; simpl in H; try discriminate; auto.
Qed.

Lemma wf_eligible i :
  wellFormed i = true -> eligible i = true -> resultUrl i = None.
Proof.
  unfold wellFormed, eligible. destruct i as [k f u st res cp err]; simpl.
  destruct st, res, err; simpl; intros; try discriminate; auto.
Qed.

Lemma wf_asProcessing i : resultUrl i = None -> wellFormed (asProcessing i) = true.
Proof. unfold wellFormed; simpl. intros ->. reflexivity. Qed.

Lemma wf_asSuccess url i : errorMsg i = None -> wellFormed (asSuccess url i) = true.
Proof. unfold wellFormed; simpl. intros ->. reflexivity. Qed.

Lemma wf_asError msg i : resultUrl i = None -> wellFormed (asError msg i) = true.
Proof. unfold wellFormed; simpl. intros ->. reflexivity. Qed.

Lemma wf_sameShape i j :
  sameShape i j -> wellFormed j = true -> wellFormed i = true.
Proof.
  unfold sameShape, wellFormed. intros (_ & -> & -> & ->). auto.
Qed.

Lemma wf_newlyQueued i : newlyQueued i -> wellFormed i = true.
Proof. unfold newlyQueued, wellFormed. intros (-> & -> & ->). reflexivity. Qed.

(** *** The changes the user makes are gentle *)

Lemma gentle_handleFiles files q :
  gentle q (q ++ map (fun u => mkItem (newId u) (newFile u) (newUrl u) idle None None None)
                     files).
Proof.
  intros i Hi. apply in_app_or in Hi. destruct Hi as [Hi | Hi].
  - left. exists i. unfold sameShape. auto.
  - right. apply in_map_iff in Hi. destruct Hi as (u & <- & _).
    unfold newlyQueued. auto.
Qed.

Lemma gentle_filter f q : gentle q (filter f q).
Proof.
  intros i Hi. apply filter_In in Hi. left. exists i. unfold sameShape. tauto.
Qed.

Lemma gentle_prompt key prompt q :
  gentle q (mapItem key (fun item => withPrompt item prompt) q).
Proof.
  intros i Hi. apply mapItem_in in Hi.
  destruct Hi as [(j & Hj & _ & ->) | (Hi & _)]; left.
  - exists j. unfold sameShape. simpl. auto.
  - exists i. unfold sameShape. auto.
Qed.

Lemma gentle_nil q : gentle q [].
Proof. intros i []. Qed.

(** *** Runs *)

Lemma RunInv_done q rn : pc rn = Done -> RunInv q rn.
Proof.
  intros H. unfold RunInv, workList, inFlight, current. rewrite H.
  repeat split; [ constructor | congruence | discriminate ].
Qed.

Lemma eligible_sameShape i j :
  sameShape i j -> eligible j = true -> eligible i = true.
Proof. unfold sameShape, eligible. intros (_ & -> & _). auto. Qed.

Lemma RunInv_gentle q q' rn : RunInv q rn -> gentle q q' -> RunInv q' rn.
Proof.
  intros (Hnd & Hpend & Hfl) Hg. repeat split; [ exact Hnd | | ].
  - intros w i' Hlive Hw Hi' E.
    destruct (Hg i' Hi') as [(i & Hi & Hs) | (Hst & _)].
    + apply (eligible_sameShape _ _ Hs).
      apply (Hpend w i); auto. destruct Hs as (<- & _). exact E.
    + unfold eligible. rewrite Hst. reflexivity.
  - intros i' Hin Hi'.
    destruct (Hg i' Hi') as [(i & Hi & Hs) | (Hst & _)]; [ | auto ].
    destruct Hs as (Eid & -> & _). apply Hfl; auto. rewrite <- Eid. exact Hin.
Qed.

(** A change of the queue alone. *)
Lemma Inv_gentle s q' :
  Inv s -> NoDup (map id q') -> gentle (queue s) q' ->
  Inv (setQueue (fun _ => q') s).
Proof.
  intros (Hnd & Hidle & Hone & Hwf & Hrun) Hnd' Hg.
  unfold Inv; simpl.
  split; [ exact Hnd' | ]. split; [ exact Hidle | ]. split; [ exact Hone | ].
  split.
  - intros i' Hi'. destruct (Hg i' Hi') as [(i & Hi & Hs) | Hn].
    + apply (wf_sameShape _ _ Hs). auto.
    + apply wf_newlyQueued, Hn.
  - intros r rn H. apply (RunInv_gentle (queue s)); [ apply (Hrun r rn H) | exact Hg ].
Qed.

Lemma Flying_gentle s q' :
  Flying s -> gentle (queue s) q' -> Flying (setQueue (fun _ => q') s).
Proof.
  intros Hf Hg i' Hi' Hst. simpl in *.
  destruct (Hg i' Hi') as [(i & Hi & Hs) | (Hidle & _)]; [ | congruence ].
  destruct Hs as (Eid & Est & _). rewrite Eid. apply Hf; congruence.
Qed.

(** *** Starting a run *)

Lemma nth_error_snoc {A : Type} (l : list A) x r y :
  nth_error (l ++ [x]) r = Some y ->
  nth_error l r = Some y \/ (r = List.length l /\ y = x).
Proof.
  intros H. destruct (Nat.lt_ge_cases r (List.length l)) as [Hlt | Hge].
  - rewrite nth_error_app1 in H by exact Hlt. auto.
  - rewrite nth_error_app2 in H by exact Hge.
    destruct (r - List.length l) as [ | n ] eqn:E; simpl in H.
    + right. split; [ lia | congruence ].
    + destruct n; discriminate.
Qed.

Lemma processQueue_state s :
  enabled s ProcessQueue = true ->
  step s ProcessQueue
  = mkApp (hasKey s) (queue s) true (globalPrompt s)
          (runs s ++ [mkRun (filter eligible (queue s)) AwaitQueue (globalPrompt s)])
          (outbox s)
  /\ isProcessing s = false /\ filter eligible (queue s) <> [].
Proof.
  intros Hen. unfold step. rewrite Hen. simpl handle.
  unfold enabled in Hen.
  apply andb_true_iff in Hen. destruct Hen as [_ Hen].
  apply negb_true_iff, orb_false_iff in Hen. destruct Hen as [Hp Hne].
  unfold processQueue. rewrite Hp.
  destruct (filter eligible (queue s)) as [ | i l ] eqn:Hf; [ discriminate | ].
  repeat split; try discriminate.
  unfold nextIteration, setRun, setRuns; simpl. f_equal.
  induction (runs s) as [ | a rs IH ]; simpl; [ reflexivity | ].
  f_equal. exact IH.
Qed.

Lemma Inv_processQueue s :
  Inv s -> enabled s ProcessQueue = true -> Inv (step s ProcessQueue).
Proof.
  intros (Hnd & Hidle & Hone & Hwf & Hrun) Hen.
  destruct (processQueue_state s Hen) as (-> & Hp & Hne).
  pose proof (Hidle Hp) as Hdone.
  unfold Inv; simpl. split; [ exact Hnd | ]. split; [ discriminate | ].
  split; [ | split; [ exact Hwf | ] ].
  - intros r1 r2 rn1 rn2 H1 H2 L1 L2.
    apply nth_error_snoc in H1. apply nth_error_snoc in H2.
    destruct H1 as [H1 | [-> _]]; [ exfalso; apply L1; eauto | ].
    destruct H2 as [H2 | [-> _]]; [ exfalso; apply L2; eauto | ].
    reflexivity.
  - intros r rn H. apply nth_error_snoc in H.
    destruct H as [H | [_ ->]]; [ apply RunInv_done; eauto | ].
    unfold RunInv, workList, inFlight, current; simpl.
    repeat split; [ apply NoDup_ids_filter, Hnd | | discriminate ].
    intros w i _ Hw Hi E. apply filter_In in Hw. destruct Hw as [Hw Hel].
    rewrite (NoDup_ids_inj (queue s) i w Hnd Hi Hw E). exact Hel.
Qed.

Lemma Flying_processQueue s :
  Flying s -> enabled s ProcessQueue = true -> Flying (step s ProcessQueue).
Proof.
  intros Hf Hen. destruct (processQueue_state s Hen) as (-> & _ & _).
  intros i Hi Hst. simpl in *. destruct (Hf i Hi Hst) as (r & rn & Hr & Hfl).
  exists r, rn. split; [ | exact Hfl ].
  rewrite nth_error_app1; [ exact Hr | ]. apply nth_error_Some. congruence.
Qed.

(** *** The moves of the live run *)

Lemma nth_error_setNth_cases {A : Type} (l : list A) r x r2 y z :
  nth_error l r = Some z ->
  nth_error (setNth r x l) r2 = Some y ->
  (r2 = r /\ y = x) \/ (r2 <> r /\ nth_error l r2 = Some y).
Proof.
  intros Hr H. destruct (Nat.eq_dec r2 r) as [ -> | Hne ].
  - rewrite (nth_error_setNth_eq l r x z Hr) in H. left. split; congruence.
  - rewrite nth_error_setNth_neq in H by congruence. auto.
Qed.

Lemma others_done s r rn :
  Inv s -> nth_error (runs s) r = Some rn -> pc rn <> Done ->
  forall r2 rn2, r2 <> r -> nth_error (runs s) r2 = Some rn2 -> pc rn2 = Done.
Proof.
  intros (_ & _ & Hone & _) Hr Hlive r2 rn2 Hne H2.
  destruct (pc rn2) eqn:E; try reflexivity; exfalso; apply Hne;
    apply (Hone r2 r rn2 rn H2 Hr); congruence.
Qed.

Lemma Inv_replace k q p g rs o r rn k' q' p' o' rn' :
  Inv (mkApp k q p g rs o) ->
  nth_error rs r = Some rn -> pc rn <> Done ->
  NoDup (map id q') ->
  (forall i, In i q' -> wellFormed i = true) ->
  RunInv q' rn' ->
  (p' = false -> pc rn' = Done) ->
  Inv (mkApp k' q' p' g (setNth r rn' rs) o').
Proof.
  intros HI Hr Hlive Hnd' Hwf' Hrun' Hflag.
  pose proof (others_done _ r rn HI Hr Hlive) as Hothers. simpl in Hothers.
  unfold Inv; simpl.
  split; [ exact Hnd' | ]. split; [ | split; [ | split; [ exact Hwf' | ] ] ].
  - intros Hp r2 rn2 H2.
    destruct (nth_error_setNth_cases _ _ _ _ _ _ Hr H2) as [[-> ->] | [Hne H2']];
      eauto.
  - intros r1 r2 rn1 rn2 H1 H2 L1 L2.
    destruct (nth_error_setNth_cases _ _ _ _ _ _ Hr H1) as [[-> ->] | [Hne1 H1']];
    destruct (nth_error_setNth_cases _ _ _ _ _ _ Hr H2) as [[-> ->] | [Hne2 H2']];
      try reflexivity; exfalso; eauto.
  - intros r2 rn2 H2.
    destruct (nth_error_setNth_cases _ _ _ _ _ _ Hr H2) as [[-> ->] | [Hne H2']].
    + exact Hrun'.
    + apply RunInv_done. eauto.
Qed.

Lemma NoDup_ids_tail (item : QueueItem) rest w :
  NoDup (map id (item :: rest)) -> In w rest -> id w <> id item.
Proof.
  simpl. intros H Hw E. inversion H as [ | ? ? Hn _ ]; subst.
  apply Hn. rewrite <- E. apply in_map. exact Hw.
Qed.

Lemma RunInv_continue q rest prompt :
  NoDup (map id rest) ->
  (forall w i, In w rest -> In i q -> id i = id w -> eligible i = true) ->
  RunInv q (continue rest prompt).
Proof.
  intros Hnd Hel. destruct rest as [ | a rest ].
  - apply RunInv_done. reflexivity.
  - unfold RunInv, continue, workList, inFlight, current; simpl.
    split; [ exact Hnd | ]. split; [ | discriminate ].
    intros w i _. apply Hel.
Qed.

Lemma flagAfter_done rest prompt :
  flagAfter rest true = false -> pc (continue rest prompt) = Done.
Proof. destruct rest; simpl; [ reflexivity | discriminate ]. Qed.

Lemma current_inFlight rn item : current rn = Some item -> inFlight rn = Some (id item).
Proof. unfold inFlight. intros ->. reflexivity. Qed.

Lemma current_workList rn item :
  current rn = Some item -> workList rn = item :: pendingItems rn /\ pc rn <> Done.
Proof.
  unfold current, workList. destruct (pc rn); intros H; try discriminate;
    injection H as ->; split; try reflexivity; discriminate.
Qed.

Lemma Inv_move abort k q p g rs o r rn k' q' p' o' rn' :
  Inv (mkApp k q p g rs o) ->
  nth_error rs r = Some rn ->
  Move abort q p rn q' p' rn' ->
  Inv (mkApp k' q' p' g (setNth r rn' rs) o').
Proof.
  intros HI Hr Hm.
  pose proof HI as (Hnd & Hidle & Hone & Hwf & Hrun); simpl in *.
  pose proof (Hrun r rn Hr) as (Hwl & Hpend & Hfl).
  assert (Hp : pc rn <> Done -> p = true).
  { intros Hlive. destruct p; [ reflexivity | ].
    exfalso. apply Hlive. apply (Hidle eq_refl r rn Hr). }
  destruct Hm as [ | item rest Hpc Hpe Hpres | item rest Hpc Hpe Hpres
                 | item Hpc | item url Hcur | item msg Hcur | item Hab Hcur ].
  - (* nothing happens *)
    rewrite (setNth_same rs r rn Hr). exact HI.
  - (* the item is gone from the queue *)
    assert (Hlive : pc rn <> Done) by congruence.
    unfold workList in Hwl. rewrite Hpc, Hpe in Hwl.
    apply (Inv_replace k q p g rs o r rn); auto.
    + apply RunInv_continue.
      * simpl in Hwl. inversion Hwl; assumption.
      * intros w i Hw. apply Hpend; [ exact Hlive | ]. rewrite Hpe. right. exact Hw.
    + rewrite (Hp Hlive). apply flagAfter_done.
  - (* the item is moved to processing *)
    assert (Hlive : pc rn <> Done) by congruence.
    unfold workList in Hwl. rewrite Hpc, Hpe in Hwl.
    apply (Inv_replace k q p g rs o r rn); auto.
    + rewrite mapItem_ids by reflexivity. exact Hnd.
    + intros i' Hi'. apply mapItem_in in Hi'.
      destruct Hi' as [(j & Hj & Ej & ->) | (Hi' & _)]; [ | auto ].
      apply wf_asProcessing, wf_eligible; [ auto | ].
      apply (Hpend item j); auto. rewrite Hpe. left; reflexivity.
    + unfold RunInv, workList, inFlight, current; simpl.
      split; [ exact Hwl | ]. split.
      * intros w i' _ Hw Hi' E. apply mapItem_in in Hi'.
        destruct Hi' as [(j & Hj & Ej & ->) | (Hi' & _)].
        -- exfalso. apply (NoDup_ids_tail item rest w Hwl Hw). simpl in E. congruence.
        -- apply (Hpend w i'); auto. rewrite Hpe. right. exact Hw.
      * intros i' E Hi'. injection E as E. apply mapItem_in in Hi'.
        destruct Hi' as [(j & Hj & Ej & ->) | (Hi' & Hne)];
          [ left; reflexivity | congruence ].
    + intros Hp'. rewrite (Hp Hlive) in Hp'. discriminate.
  - (* the request is sent *)
    assert (Hlive : pc rn <> Done) by congruence.
    unfold workList in Hwl. unfold inFlight, current in Hfl. rewrite Hpc in Hwl, Hfl.
    apply (Inv_replace k q p g rs o r rn); auto.
    + unfold RunInv, workList, inFlight, current; simpl.
      split; [ exact Hwl | ]. split; [ | exact Hfl ].
      intros w i _. apply Hpend. exact Hlive.
    + intros Hp'. rewrite (Hp Hlive) in Hp'. discriminate.
  - (* the result is recorded *)
    destruct (current_workList rn item Hcur) as (Ewl & Hlive).
    rewrite Ewl in Hwl. rewrite (current_inFlight rn item Hcur) in Hfl.
    apply (Inv_replace k q p g rs o r rn); auto.
    + rewrite mapItem_ids by reflexivity. exact Hnd.
    + intros i' Hi'. apply mapItem_in in Hi'.
      destruct Hi' as [(j & Hj & Ej & ->) | (Hi' & _)]; [ | auto ].
      apply wf_asSuccess. apply wf_unset; [ auto | ].
      apply Hfl; [ congruence | exact Hj ].
    + apply RunInv_continue.
      * simpl in Hwl. inversion Hwl; assumption.
      * intros w i' Hw Hi' E. apply mapItem_in in Hi'.
        destruct Hi' as [(j & Hj & Ej & ->) | (Hi' & _)].
        -- exfalso. apply (NoDup_ids_tail item _ w Hwl Hw). simpl in E. congruence.
        -- apply (Hpend w i'); auto.
    + rewrite (Hp Hlive). apply flagAfter_done.
  - (* the failure is recorded *)
    destruct (current_workList rn item Hcur) as (Ewl & Hlive).
    rewrite Ewl in Hwl. rewrite (current_inFlight rn item Hcur) in Hfl.
    apply (Inv_replace k q p g rs o r rn); auto.
    + rewrite mapItem_ids by reflexivity. exact Hnd.
    + intros i' Hi'. apply mapItem_in in Hi'.
      destruct Hi' as [(j & Hj & Ej & ->) | (Hi' & _)]; [ | auto ].
      apply wf_asError. apply wf_unset; [ auto | ].
      apply Hfl; [ congruence | exact Hj ].
    + apply RunInv_continue.
      * simpl in Hwl. inversion Hwl; assumption.
      * intros w i' Hw Hi' E. apply mapItem_in in Hi'.
        destruct Hi' as [(j & Hj & Ej & ->) | (Hi' & _)].
        -- exfalso. apply (NoDup_ids_tail item _ w Hwl Hw). simpl in E. congruence.
        -- apply (Hpend w i'); auto.
    + rewrite (Hp Hlive). apply flagAfter_done.
  - (* the run gives up *)
    destruct (current_workList rn item Hcur) as (_ & Hlive).
    apply (Inv_replace k q p g rs o r rn); auto.
    apply RunInv_done. reflexivity.
Qed.

Lemma inFlight_live rn key : inFlight rn = Some key -> pc rn <> Done.
Proof.
  unfold inFlight, current. destruct (pc rn); simpl; congruence.
Qed.

(** *** Steps and executions *)

Lemma Inv_initial : Inv initial.
Proof.
  unfold Inv, initial; simpl.
  split; [ constructor | ]. split; [ intros _ [ | r ] rn; discriminate | ].
  split; [ intros [ | r1 ] r2 rn1 rn2; discriminate | ].
  split; [ intros i [] | intros [ | r ] rn; discriminate ].
Qed.

Lemma Flying_initial : Flying initial.
Proof. intros i []. Qed.

Lemma Inv_step s e : Inv s -> calm s e = true -> Inv (step s e).
Proof.
  intros HI Hcalm. destruct (enabled s e) eqn:Hen;
    [ | unfold step; rewrite Hen; exact HI ].
  destruct e; try discriminate;
    try (unfold step; rewrite Hen; exact HI).
  - (* handleFiles *)
    unfold step; rewrite Hen. simpl in Hcalm.
    apply (Inv_gentle s (queue s ++ map (fun u => mkItem (newId u) (newFile u)
                          (newUrl u) idle None None None) files)); auto.
    + rewrite map_app, map_map. simpl. apply distinct_NoDup, Hcalm.
    + apply gentle_handleFiles.
  - (* removeItem *)
    unfold step; rewrite Hen.
    apply (Inv_gentle s (filter (fun item => negb (String.eqb (id item) key)) (queue s)));
      auto.
    + apply NoDup_ids_filter, HI.
    + apply gentle_filter.
  - (* updateItemPrompt *)
    unfold step; rewrite Hen.
    apply (Inv_gentle s (mapItem key (fun item => withPrompt item prompt) (queue s)));
      auto.
    + rewrite mapItem_ids by reflexivity. apply HI.
    + apply gentle_prompt.
  - (* clear all *)
    unfold step; rewrite Hen.
    apply (Inv_gentle s []); auto; [ constructor | apply gentle_nil ].
  - (* processQueue *)
    apply Inv_processQueue; assumption.
  - (* a run resumes *)
    unfold step; rewrite Hen. simpl handle.
    destruct (nth_error (runs s) r) as [ rn | ] eqn:Hr.
    + destruct (resume_move r s rn Hr) as (rn' & k' & q' & p' & o' & -> & Hm).
      destruct s as [k q p g rs o]; simpl in *.
      eapply Inv_move; eassumption.
    + unfold resume. rewrite Hr. exact HI.
  - (* a request settles *)
    unfold step; rewrite Hen. simpl handle.
    destruct (nth_error (runs s) r) as [ rn | ] eqn:Hr.
    + destruct (respond_move r res s rn Hr) as (rn' & k' & q' & p' & o' & -> & Hm).
      destruct s as [k q p g rs o]; simpl in *.
      eapply Inv_move; eassumption.
    + unfold respond. rewrite Hr. exact HI.
Qed.

Lemma Inv_exec es : forall s,
  Inv s -> allAlong calm s es = true -> Inv (exec es s).
Proof.
  induction es as [ | e es IH ]; simpl; intros s HI H; [ exact HI | ].
  apply andb_true_iff in H. destruct H as [He Hes].
  apply IH; [ apply Inv_step; assumption | exact Hes ].
Qed.

Lemma at_most_one {A : Type} (l : list A) :
  NoDup l -> (forall x y, In x l -> In y l -> x = y) -> List.length l <= 1.
Proof.
  destruct l as [ | a [ | b l ] ]; simpl; intros Hnd H; try lia.
  exfalso. inversion Hnd as [ | ? ? Hn _ ]; subst.
  apply Hn. left. apply H; auto.
Qed.

Lemma NoDup_of_ids (q : list QueueItem) : NoDup (map id q) -> NoDup q.
Proof.
  induction q as [ | a q IH ]; simpl; intros H; constructor;
    inversion H as [ | ? ? Hn Hq ]; subst; auto.
  intros Hin. apply Hn. apply in_map. exact Hin.
Qed.

End Orderly.

(** ** Exclusive executions keep the queue in order *)

Module Exclusive.
Import Processor RunFacts Orderly.

(** [Sequential] is [Inv] with the active flag taken as set. *)
Lemma Sequential_Inv s : Sequential s <-> Inv (setIsProcessing true s).
Proof.
  unfold Sequential, Inv; simpl. split.
  - intros (H1 & H2 & H3 & H4).
    split; [ exact H1 | ]. split; [ discriminate | ].
    split; [ exact H2 | ]. split; [ exact H3 | exact H4 ].
  - intros (H1 & _ & H2 & H3 & H4). auto.
Qed.

(** The moves of a run do not depend on the active flag. *)
Lemma Move_flag abort q p rn q' p' rn' :
  Move abort q p rn q' p' rn' -> exists p'', Move abort q true rn q' p'' rn'.
Proof.
  intros Hm.
  destruct Hm as [ | item rest Hpc Hpe Hpres | item rest Hpc Hpe Hpres
                 | item Hpc | item url Hcur | item msg Hcur | item Hab Hcur ];
    eexists.
  - apply MoveStay.
  - eapply MoveSkip; eassumption.
  - eapply MoveMark; eassumption.
  - eapply MoveSend; eassumption.
  - eapply MoveSuccess; eassumption.
  - eapply MoveError; eassumption.
  - eapply MoveAbort; eassumption.
Qed.

Lemma Sequential_move abort k q p g rs o r rn k' q' p' o' rn' :
  Sequential (mkApp k q p g rs o) ->
  nth_error rs r = Some rn ->
  Move abort q p rn q' p' rn' ->
  Sequential (mkApp k' q' p' g (setNth r rn' rs) o').
Proof.
  intros HS Hr Hm. apply Sequential_Inv in HS. simpl in HS.
  destruct (Move_flag _ _ _ _ _ _ _ Hm) as (p'' & Hm').
  pose proof (Inv_move abort k q true g rs o r rn k' q' p'' o' rn' HS Hr Hm')
    as (H1 & _ & H2 & H3 & H4).
  unfold Sequential; simpl. auto.
Qed.

Lemma Sequential_gentle s q' :
  Sequential s -> NoDup (map id q') -> gentle (queue s) q' ->
  Sequential (setQueue (fun _ => q') s).
Proof.
  intros HS Hnd Hg. apply Sequential_Inv in HS.
  pose proof (Inv_gentle (setIsProcessing true s) q' HS Hnd Hg)
    as (H1 & _ & H2 & H3 & H4).
  unfold Sequential; simpl. auto.
Qed.

Lemma all_returned (rs : list Run) :
  forallb returned rs = true ->
  forall r rn, nth_error rs r = Some rn -> pc rn = Done.
Proof.
  intros H r rn Hr. rewrite forallb_forall in H.
  pose proof (H rn (nth_error_In _ _ Hr)) as Hd.
  unfold returned in Hd. destruct (pc rn); try discriminate. reflexivity.
Qed.

Lemma Sequential_processQueue s :
  Sequential s -> enabled s ProcessQueue = true ->
  forallb returned (runs s) = true ->
  Sequential (step s ProcessQueue).
Proof.
  intros (Hnd & Hone & Hwf & Hrun) Hen Hall.
  destruct (processQueue_state s Hen) as (-> & _ & Hne).
  pose proof (all_returned _ Hall) as Hdone.
  unfold Sequential; simpl. split; [ exact Hnd | ].
  split; [ | split; [ exact Hwf | ] ].
  - intros r1 r2 rn1 rn2 H1 H2 L1 L2.
    apply nth_error_snoc in H1. apply nth_error_snoc in H2.
    destruct H1 as [H1 | [-> _]]; [ exfalso; apply L1; eauto | ].
    destruct H2 as [H2 | [-> _]]; [ exfalso; apply L2; eauto | ].
    reflexivity.
  - intros r rn H. apply nth_error_snoc in H.
    destruct H as [H | [_ ->]]; [ apply RunInv_done; eauto | ].
    unfold RunInv, workList, inFlight, current; simpl.
    repeat split; [ apply NoDup_ids_filter, Hnd | | discriminate ].
    intros w i _ Hw Hi E. apply filter_In in Hw. destruct Hw as [Hw Hel].
    rewrite (NoDup_ids_inj (queue s) i w Hnd Hi Hw E). exact Hel.
Qed.

Lemma Sequential_step s e :
  Sequential s -> exclusive s e = true -> Sequential (step s e).
Proof.
  intros HS Hex. destruct (enabled s e) eqn:Hen;
    [ | unfold step; rewrite Hen; exact HS ].
  destruct e; try (unfold step; rewrite Hen; exact HS).
  - (* handleFiles *)
    unfold step; rewrite Hen. simpl in Hex.
    apply (Sequential_gentle s (queue s ++ map (fun u => mkItem (newId u) (newFile u)
                                 (newUrl u) idle None None None) files)); auto.
    + rewrite map_app, map_map. simpl. apply distinct_NoDup, Hex.
    + apply gentle_handleFiles.
  - (* removeItem *)
    unfold step; rewrite Hen.
    apply (Sequential_gentle s
             (filter (fun item => negb (String.eqb (id item) key)) (queue s))); auto.
    + apply NoDup_ids_filter, HS.
    + apply gentle_filter.
  - (* updateItemPrompt *)
    unfold step; rewrite Hen.
    apply (Sequential_gentle s
             (mapItem key (fun item => withPrompt item prompt) (queue s))); auto.
    + rewrite mapItem_ids by reflexivity. apply HS.
    + apply gentle_prompt.
  - (* clear all *)
    unfold step; rewrite Hen.
    apply (Sequential_gentle s []); auto; [ constructor | apply gentle_nil ].
  - (* processQueue, let through: every earlier run has returned *)
    unfold exclusive in Hex. rewrite Hen in Hex. simpl in Hex.
    apply Sequential_processQueue; assumption.
  - (* a run resumes *)
    unfold step; rewrite Hen. simpl handle.
    destruct (nth_error (runs s) r) as [ rn | ] eqn:Hr.
    + destruct (resume_move r s rn Hr) as (rn' & k' & q' & p' & o' & -> & Hm).
      destruct s as [k q p g rs o]; simpl in *.
      eapply Sequential_move; eassumption.
    + unfold resume. rewrite Hr. exact HS.
  - (* a request settles *)
    unfold step; rewrite Hen. simpl handle.
    destruct (nth_error (runs s) r) as [ rn | ] eqn:Hr.
    + destruct (respond_move r res s rn Hr) as (rn' & k' & q' & p' & o' & -> & Hm).
      destruct s as [k q p g rs o]; simpl in *.
      eapply Sequential_move; eassumption.
    + unfold respond. rewrite Hr. exact HS.
Qed.

Lemma Sequential_initial : Sequential initial.
Proof.
  unfold Sequential, initial; simpl.
  split; [ constructor | ].
  split; [ intros [ | r1 ] r2 rn1 rn2; discriminate | ].
  split; [ intros i [] | intros [ | r ] rn; discriminate ].
Qed.

Lemma Sequential_exec es : forall s,
  Sequential s -> allAlong exclusive s es = true -> Sequential (exec es s).
Proof.
  induction es as [ | e es IH ]; simpl; intros s HS H; [ exact HS | ].
  apply andb_true_iff in H. destruct H as [He Hes].
  apply IH; [ apply Sequential_step; assumption | exact Hes ].
Qed.

Lemma live_run_unique s r rn :
  Sequential s -> nth_error (runs s) r = Some rn -> pc rn <> Done ->
  forall r2 rn2, r2 <> r -> nth_error (runs s) r2 = Some rn2 -> pc rn2 = Done.
Proof.
  intros (_ & Hone & _) Hr Hlive r2 rn2 Hne H2.
  destruct (pc rn2) eqn:E; try reflexivity; exfalso; apply Hne;
    apply (Hone r2 r rn2 rn H2 Hr); congruence.
Qed.

(** *** Items in flight *)

(** With a live run, whatever is [processing] is its item in flight. *)
Lemma Flying_live s r rn :
  Sequential s -> Flying s -> nth_error (runs s) r = Some rn -> pc rn <> Done ->
  forall i, In i (queue s) -> status i = processing -> inFlight rn = Some (id i).
Proof.
  intros (_ & Hone & _) Hf Hr Hlive i Hi Hst.
  destruct (Hf i Hi Hst) as (r0 & rn0 & Hr0 & Hfl).
  assert (r0 = r) by (apply (Hone r0 r rn0 rn); eauto using inFlight_live).
  subst r0. congruence.
Qed.

Lemma Flying_move k q p g rs o r rn k' q' p' o' rn' :
  Sequential (mkApp k q p g rs o) -> Flying (mkApp k q p g rs o) ->
  nth_error rs r = Some rn ->
  Move false q p rn q' p' rn' ->
  Flying (mkApp k' q' p' g (setNth r rn' rs) o').
Proof.
  intros HI Hf Hr Hm.
  pose proof (Flying_live _ r rn HI Hf Hr) as Hmine; simpl in Hmine.
  assert (Hhere : forall i', inFlight rn' = Some (id i') ->
            exists r2 rn2, nth_error (setNth r rn' rs) r2 = Some rn2 /\
                           inFlight rn2 = Some (id i')).
  { intros i' H. exists r, rn'. split; [ | exact H ].
    eapply nth_error_setNth_eq; eassumption. }
  destruct Hm as [ | item rest Hpc Hpe Hpres | item rest Hpc Hpe Hpres
                 | item Hpc | item url Hcur | item msg Hcur | item Hab Hcur ];
    intros i' Hi' Hst; simpl in *.
  - rewrite (setNth_same rs r rn Hr). apply Hf; assumption.
  - exfalso. assert (Hlive : pc rn <> Done) by congruence.
    pose proof (Hmine Hlive i' Hi' Hst) as H.
    unfold inFlight, current in H. rewrite Hpc in H. discriminate.
  - apply Hhere. apply mapItem_in in Hi'.
    destruct Hi' as [(j & Hj & Ej & ->) | (Hi' & Hne)].
    + unfold inFlight, current; simpl. congruence.
    + exfalso. assert (Hlive : pc rn <> Done) by congruence.
      pose proof (Hmine Hlive i' Hi' Hst) as H.
      unfold inFlight, current in H. rewrite Hpc in H. discriminate.
  - apply Hhere. assert (Hlive : pc rn <> Done) by congruence.
    pose proof (Hmine Hlive i' Hi' Hst) as H.
    unfold inFlight, current in *. rewrite Hpc in H. exact H.
  - exfalso. destruct (current_workList rn item Hcur) as (_ & Hlive).
    apply mapItem_in in Hi'.
    destruct Hi' as [(j & Hj & Ej & ->) | (Hi' & Hne)]; [ discriminate | ].
    pose proof (Hmine Hlive i' Hi' Hst) as H.
    rewrite (current_inFlight rn item Hcur) in H. congruence.
  - exfalso. destruct (current_workList rn item Hcur) as (_ & Hlive).
    apply mapItem_in in Hi'.
    destruct Hi' as [(j & Hj & Ej & ->) | (Hi' & Hne)]; [ discriminate | ].
    pose proof (Hmine Hlive i' Hi' Hst) as H.
    rewrite (current_inFlight rn item Hcur) in H. congruence.
  - discriminate.
Qed.

Lemma accepted_exclusive s e : accepted s e = true -> exclusive s e = true.
Proof. unfold accepted. intros H. apply andb_true_iff in H. tauto. Qed.

Lemma Flying_step s e :
  Sequential s -> Flying s -> accepted s e = true -> Flying (step s e).
Proof.
  intros HI Hf Hacc.
  destruct (enabled s e) eqn:Hen;
    [ | unfold step; rewrite Hen; exact Hf ].
  destruct e; try (unfold step; rewrite Hen; exact Hf).
  - unfold step; rewrite Hen.
    apply (Flying_gentle s (queue s ++ map (fun u => mkItem (newId u) (newFile u)
                             (newUrl u) idle None None None) files)); auto.
    apply gentle_handleFiles.
  - unfold step; rewrite Hen.
    apply (Flying_gentle s (filter (fun item => negb (String.eqb (id item) key)) (queue s)));
      auto.
    apply gentle_filter.
  - unfold step; rewrite Hen.
    apply (Flying_gentle s (mapItem key (fun item => withPrompt item prompt) (queue s)));
      auto.
    apply gentle_prompt.
  - unfold step; rewrite Hen.
    apply (Flying_gentle s []); auto. apply gentle_nil.
  - apply Flying_processQueue; assumption.
  - unfold step; rewrite Hen. simpl handle.
    destruct (nth_error (runs s) r) as [ rn | ] eqn:Hr.
    + destruct (resume_move r s rn Hr) as (rn' & k' & q' & p' & o' & -> & Hm).
      destruct s as [k q p g rs o]; simpl in *.
      eapply Flying_move; eassumption.
    + unfold resume. rewrite Hr. exact Hf.
  - unfold step; rewrite Hen. simpl handle.
    destruct (nth_error (runs s) r) as [ rn | ] eqn:Hr.
    + destruct (respond_move r res s rn Hr) as (rn' & k' & q' & p' & o' & -> & Hm).
      unfold accepted in Hacc. apply andb_true_iff in Hacc.
      destruct Hacc as [_ Hacc]. apply negb_true_iff in Hacc.
      rewrite Hacc in Hm.
      destruct s as [k q p g rs o]; simpl in *.
      eapply Flying_move; eassumption.
    + unfold respond. rewrite Hr. exact Hf.
Qed.

Lemma Flying_exec es : forall s,
  Sequential s -> Flying s -> allAlong accepted s es = true ->
  Sequential (exec es s) /\ Flying (exec es s).
Proof.
  induction es as [ | e es IH ]; simpl; intros s HI Hf H; [ auto | ].
  apply andb_true_iff in H. destruct H as [He Hes].
  apply IH; [ apply Sequential_step; auto using accepted_exclusive
            | apply Flying_step; assumption | exact Hes ].
Qed.

Lemma single_flight s : Sequential s -> Flying s -> countProcessing (queue s) <= 1.
Proof.
  intros HI Hf. unfold countProcessing.
  pose proof HI as (Hnd & Hone & _).
  apply at_most_one.
  - apply NoDup_filter, NoDup_of_ids, Hnd.
  - intros x y Hx Hy. apply filter_In in Hx, Hy.
    destruct Hx as [Hx Sx], Hy as [Hy Sy].
    assert (Ex : status x = processing) by (destruct (status x); try discriminate; reflexivity).
    assert (Ey : status y = processing) by (destruct (status y); try discriminate; reflexivity).
    destruct (Hf x Hx Ex) as (r1 & rn1 & H1 & F1).
    destruct (Hf y Hy Ey) as (r2 & rn2 & H2 & F2).
    assert (r1 = r2) by (apply (Hone r1 r2 rn1 rn2); eauto using inFlight_live).
    subst r2. apply (NoDup_ids_inj (queue s)); auto. congruence.
Qed.

End Exclusive.

(** C4, amended. In every execution from the initial state in which the
    identifiers drawn for uploads are new to the queue and
    [processQueue] is let through only when every earlier run has
    returned, at most one run is alive at any time. If moreover no
    request is rejected as [AuthRejected], at most one queue item is
    [processing] at any time, and such an item is the one a run has in
    flight: no item is moved to [processing] before the request of the
    previous one has completed. Stop may be pressed at any time. (Every
    initial segment of such an execution is one, so this holds at every
    instant.) *)
Theorem exclusive_runs_are_single_flight :
  (forall es,
      allAlong exclusive initial es = true ->
      forall r1 r2 rn1 rn2,
        nth_error (runs (exec es initial)) r1 = Some rn1 ->
        nth_error (runs (exec es initial)) r2 = Some rn2 ->
        pc rn1 <> Done -> pc rn2 <> Done -> r1 = r2) /\
  (forall es,
      allAlong accepted initial es = true ->
      countProcessing (queue (exec es initial)) <= 1 /\
      (forall i, In i (queue (exec es initial)) -> status i = processing ->
         exists r rn, nth_error (runs (exec es initial)) r = Some rn /\
                      inFlight rn = Some (id i))).
Proof.
  split.
  - intros es H.
    apply (Exclusive.Sequential_exec es initial Exclusive.Sequential_initial H).
  - intros es H.
    destruct (Exclusive.Flying_exec es initial Exclusive.Sequential_initial
                Orderly.Flying_initial H) as (HI & Hf).
    split; [ apply Exclusive.single_flight; assumption | exact Hf ].
Qed.

(** Stop is pressed during the first request; the run goes on to the
    second item, which is then the only one in [processing]. *)
Lemma exclusive_runs_are_single_flight_witness :
  allAlong accepted initial Scenario.cancelDuringFirst = true /\
  In CancelProcessing Scenario.cancelDuringFirst /\
  Scenario.view (exec Scenario.cancelDuringFirst initial)
  = [ (Scenario.idA, success, Some "data:image/png;base64,QUJD", None);
      (Scenario.idB, processing, None, None);
      (Scenario.idC, idle, None, None) ] /\
  countProcessing (queue (exec Scenario.cancelDuringFirst initial)) <= 1.
Proof.
  split; [ reflexivity | ].
  split; [ simpl; tauto | ].
  split; [ reflexivity | ].
  apply (proj2 exclusive_runs_are_single_flight Scenario.cancelDuringFirst).
  reflexivity.
Defined.

(** C5, amended. In every execution from the initial state in which the
    identifiers drawn for uploads are new to the queue and
    [processQueue] is let through only when every earlier run has
    returned, every queue item has a result exactly when it is
    [success] and an error message exactly when it is [error], at any
    time; Stop may be pressed at any time. And in every state, with no
    restriction, an item that is taken up enters [processing] with its
    error message cleared, before any new outcome is recorded. *)
Theorem exclusive_runs_keep_items_well_formed :
  (forall es,
      allAlong exclusive initial es = true ->
      forallb wellFormed (queue (exec es initial)) = true) /\
  (forall s r rn item rest i,
      nth_error (runs s) r = Some rn ->
      pc rn = AwaitQueue ->
      pendingItems rn = item :: rest ->
      present (id item) (queue s) = true ->
      In i (queue (step s (Resume r))) ->
      id i = id item ->
      status i = processing /\ errorMsg i = None).
Proof.
  split.
  - intros es H.
    pose proof (Exclusive.Sequential_exec es initial
                  Exclusive.Sequential_initial H) as HS.
    apply forallb_forall. apply HS.
  - intros s r rn item rest i Hr Hpc Hpe Hpres Hi Hid.
    apply (processing_clears_error s r rn item rest Hr Hpc Hpe Hpres i Hi Hid).
Qed.

(** Stop is pressed during a run whose first request fails; the run
    goes on and returns; a second run takes the failed item up again. *)
Lemma exclusive_runs_keep_items_well_formed_witness :
  allAlong exclusive initial Cases.stoppedThenResubmitted = true /\
  In CancelProcessing Cases.stoppedThenResubmitted /\
  Scenario.view (exec Cases.stoppedRestarted initial)
  = [ (Scenario.idA, error, None, Some msgRateLimited);
      (Scenario.idB, success, Some "data:image/png;base64,QUJD", None);
      (Scenario.idC, success, Some "data:image/png;base64,QUJD", None) ] /\
  forallb wellFormed (queue (exec Cases.stoppedThenResubmitted initial)) = true /\
  (forall i,
      In i (queue (step (exec Cases.stoppedRestarted initial) (Resume 1))) ->
      id i = Scenario.idA ->
      status i = processing /\ errorMsg i = None).
Proof.
  split; [ reflexivity | ]. split; [ simpl; tauto | ].
  split; [ reflexivity | ].
  split.
  - apply (proj1 exclusive_runs_keep_items_well_formed Cases.stoppedThenResubmitted).
    reflexivity.
  - intros i Hi Hid.
    assert (H1 : nth_error (runs (exec Cases.stoppedRestarted initial)) 1
                 = Some (mkRun [Cases.failedA] AwaitQueue initialPrompt))
      by (vm_compute; reflexivity).
    assert (H2 : present (id Cases.failedA)
                         (queue (exec Cases.stoppedRestarted initial)) = true)
      by (vm_compute; reflexivity).
    exact (proj2 exclusive_runs_keep_items_well_formed
             (exec Cases.stoppedRestarted initial) 1
             (mkRun [Cases.failedA] AwaitQueue initialPrompt)
             Cases.failedA [] i H1 eq_refl eq_refl H2 Hi Hid).
Defined.

(** * Further properties of the code *)

(** ** Strings *)

Module StringFacts.

Local Open Scope string_scope.

Lemma prefix_spec n : forall s,
  String.prefix n s = true <-> exists post, s = n ++ post.
Proof.
  induction n as [ | c n IH ]; intros s; simpl.
  - split; [ intros _; exists s; reflexivity | destruct s; reflexivity ].
  - destruct s as [ | d s ]; simpl.
    + split; [ discriminate | intros (post & H); discriminate ].
    + destruct (Ascii.ascii_dec c d) as [ -> | Hne ].
      * rewrite IH. split; intros (post & H); exists post; congruence.
      * split; [ discriminate | intros (post & H); congruence ].
Qed.

Lemma includes_unfold s n :
  includes s n
  = if String.prefix n s then true
    else match s with EmptyString => false | String _ s' => includes s' n end.
Proof. destruct s; reflexivity. Qed.

Lemma includes_spec n : forall s,
  includes s n = true <-> exists pre post, s = pre ++ n ++ post.
Proof.
  induction s as [ | c s IH ]; rewrite includes_unfold.
  - destruct (String.prefix n "") eqn:E.
    + apply prefix_spec in E. destruct E as (post & E).
      split; [ intros _; exists "", post; exact E | reflexivity ].
    + split; [ discriminate | ].
      intros (pre & post & H). destruct pre; simpl in H.
      * assert (String.prefix n "" = true) by (apply prefix_spec; eauto).
        congruence.
      * discriminate.
  - destruct (String.prefix n (String c s)) eqn:E.
    + apply prefix_spec in E. destruct E as (post & E).
      split; [ intros _; exists "", post; exact E | reflexivity ].
    + rewrite IH. split.
      * intros (pre & post & ->). exists (String c pre), post. reflexivity.
      * intros (pre & post & H). destruct pre as [ | d pre ]; simpl in H.
        -- assert (String.prefix n (String c s) = true)
             by (apply prefix_spec; eauto).
           congruence.
        -- injection H as _ ->. eauto.
Qed.

Lemma beforeDot_stem stem : forall rest,
  lacks "." stem = true -> beforeDot (stem ++ String "." rest) = stem.
Proof.
  induction stem as [ | c stem IH ]; simpl; intros rest H; [ reflexivity | ].
  apply andb_true_iff in H. destruct H as [Hc H].
  apply negb_true_iff in Hc. rewrite Hc, IH by exact H. reflexivity.
Qed.

Lemma beforeDot_whole s : lacks "." s = true -> beforeDot s = s.
Proof.
  induction s as [ | c s IH ]; simpl; intros H; [ reflexivity | ].
  apply andb_true_iff in H. destruct H as [Hc H].
  apply negb_true_iff in Hc. rewrite Hc, IH by exact H. reflexivity.
Qed.

Lemma beforeDot_lacks s : lacks "." (beforeDot s) = true.
Proof.
  induction s as [ | c s IH ]; simpl; [ reflexivity | ].
  destruct (Ascii.eqb c ".") eqn:E; simpl; [ reflexivity | ].
  rewrite E, IH. reflexivity.
Qed.

Lemma uptoComma_whole s : lacks "," s = true -> uptoComma s = s.
Proof.
  induction s as [ | c s IH ]; simpl; intros H; [ reflexivity | ].
  apply andb_true_iff in H. destruct H as [Hc H].
  apply negb_true_iff in Hc. rewrite Hc, IH by exact H. reflexivity.
Qed.

Lemma splitComma1_header header : forall tail,
  lacks "," header = true ->
  splitComma1 (header ++ String "," tail) = Some (uptoComma tail).
Proof.
  induction header as [ | c h IH ]; simpl; intros tail H; [ reflexivity | ].
  apply andb_true_iff in H. destruct H as [Hc H].
  apply negb_true_iff in Hc. rewrite Hc. apply IH, H.
Qed.

Lemma splitComma1_none s : lacks "," s = true -> splitComma1 s = None.
Proof.
  induction s as [ | c s IH ]; simpl; intros H; [ reflexivity | ].
  apply andb_true_iff in H. destruct H as [Hc H].
  apply negb_true_iff in Hc. rewrite Hc. apply IH, H.
Qed.

End StringFacts.

(** X1. A failure is fatal to the run exactly when it has a message
    that contains the phrase "Requested entity was not found" somewhere;
    a failure without a message (the rejection of a file reader or an
    image) is never fatal. *)
Theorem fatal_iff_phrase :
  forall message,
    authRejected message = true <->
    exists text pre post,
      message = Some text /\
      text = (pre ++ "Requested entity was not found" ++ post)%string.
Proof.
  intros [ text | ]; unfold authRejected, optIncludes.
  - rewrite StringFacts.includes_spec. split.
    + intros (pre & post & H). exists text, pre, post. auto.
    + intros (t & pre & post & E & H). injection E as <-. eauto.
  - split; [ discriminate | intros (t & _ & _ & E & _); discriminate ].
Qed.

(** X2. The download name of a result is "Puti-AI-", the part of the
    original file name before its first dot, and ".png": a name with
    several dots keeps only the first part, a name without a dot is
    kept whole, and the stem never contains a dot. *)
Theorem download_name_stem :
  forall stem rest,
    lacks "." stem = true ->
    downloadName (stem ++ "." ++ rest) = ("Puti-AI-" ++ stem ++ ".png")%string /\
    downloadName stem = ("Puti-AI-" ++ stem ++ ".png")%string /\
    forall name, lacks "." (beforeDot name) = true.
Proof.
  intros stem rest H. unfold downloadName. repeat split.
  - change ("." ++ rest)%string with (String "." rest).
    rewrite StringFacts.beforeDot_stem by exact H. reflexivity.
  - rewrite StringFacts.beforeDot_whole by exact H. reflexivity.
  - apply StringFacts.beforeDot_lacks.
Qed.

(** A name with two dots. *)
Lemma download_name_stem_witness :
  lacks "." "poster" = true /\
  downloadName "poster.final.jpg" = "Puti-AI-poster.png".
Proof.
  split; [ reflexivity | ].
  apply (download_name_stem "poster" "final.jpg"). reflexivity.
Defined.

(** X3. What [prepareImageForGenAI] settles with. For a file whose data
    URL is a header without comma, a comma and a payload without comma,
    and whose image decodes, the promise resolves with exactly the
    payload and one of the five labels. When the data URL has no comma
    the promise still resolves, with an undefined payload. The promise
    rejects, without a message, exactly when the reader or the image
    fails. *)
Theorem prepare_outcome :
  forall f,
    (forall header payload width height,
        dataURL f = Some (header ++ "," ++ payload)%string ->
        lacks "," header = true -> lacks "," payload = true ->
        dimensions f = Some (width, height) ->
        exists label,
          In label labels /\
          prepareImageForGenAI f = Resolved (mkPrepared (Some payload) (Some label))) /\
    (forall url width height,
        dataURL f = Some url -> lacks "," url = true ->
        dimensions f = Some (width, height) ->
        exists label,
          prepareImageForGenAI f = Resolved (mkPrepared None (Some label))) /\
    ((dataURL f = None \/ dimensions f = None) <->
     prepareImageForGenAI f = Rejected None) /\
    (forall message, prepareImageForGenAI f = Rejected message -> message = None).
Proof.
  intros f. unfold prepareImageForGenAI. repeat split.
  - intros header payload width height Hu Hh Hp Hd. rewrite Hu, Hd.
    destruct (Matcher.aspectRatioOf_total width height) as (label & -> & Hin).
    exists label. split; [ exact Hin | ].
    change ("," ++ payload)%string with (String "," payload).
    rewrite StringFacts.splitComma1_header by exact Hh.
    rewrite StringFacts.uptoComma_whole by exact Hp. reflexivity.
  - intros url width height Hu Hc Hd. rewrite Hu, Hd.
    destruct (Matcher.aspectRatioOf_total width height) as (label & -> & _).
    exists label. rewrite StringFacts.splitComma1_none by exact Hc. reflexivity.
  - intros [-> | Hd]; [ reflexivity | ].
    destruct (dataURL f); [ rewrite Hd | ]; reflexivity.
  - destruct (dataURL f); [ | auto ].
    destruct (dimensions f) as [ [w h] | ]; [ discriminate | auto ].
  - intros message. destruct (dataURL f); [ | congruence ].
    destruct (dimensions f) as [ [w h] | ]; [ discriminate | congruence ].
Qed.

(** The first file of the scenarios. *)
Lemma prepare_outcome_witness :
  exists label,
    In label labels /\
    prepareImageForGenAI (newFile Scenario.fileA)
    = Resolved (mkPrepared (Some "iVBORw0KGgo=") (Some label)).
Proof.
  apply (proj1 (prepare_outcome (newFile Scenario.fileA))
               "data:image/png;base64" "iVBORw0KGgo="
               (Num.ofInt 1000) (Num.ofInt 1000));
    reflexivity.
Defined.

(** ** Single steps of a run *)

Module StepFacts.
Import Processor.

Lemma firstInline_none ps :
  Forall (fun p => inlineData p = None) ps -> firstInline ps = None.
Proof.
  induction 1 as [ | p ps Hp _ IH ]; simpl; [ reflexivity | ].
  rewrite Hp. exact IH.
Qed.

Lemma firstInline_first pre d post :
  Forall (fun p => inlineData p = None) pre ->
  firstInline (pre ++ mkPart (Some d) :: post)
  = Some ("data:image/png;base64," ++ d)%string.
Proof.
  induction 1 as [ | p ps Hp _ IH ]; simpl; [ reflexivity | ].
  rewrite Hp. exact IH.
Qed.

(** The state after the [catch] block recorded a failure that is not fatal. *)
Lemma catchBlock_records r item rest prompt message s :
  authRejected message = false ->
  catchBlock r item rest prompt message s
  = nextIteration r rest prompt
      (setQueue (mapItem (id item) (asError (errorLabel message))) s).
Proof. intros H. unfold catchBlock. rewrite H. reflexivity. Qed.

(** What is read off a state after [nextIteration]. *)
Lemma after_nextIteration r rn0 rest prompt s :
  nth_error (runs s) r = Some rn0 ->
  queue (nextIteration r rest prompt s) = queue s /\
  hasKey (nextIteration r rest prompt s) = hasKey s /\
  outbox (nextIteration r rest prompt s) = outbox s /\
  nth_error (runs (nextIteration r rest prompt s)) r = Some (continue rest prompt) /\
  isProcessing (nextIteration r rest prompt s) = flagAfter rest (isProcessing s).
Proof.
  intros Hr.
  destruct (nextIteration_frame r rest prompt s) as (Hq & Hk & _ & Ho & Hruns & Hp).
  repeat split; try assumption.
  rewrite Hruns. unfold continue.
  eapply nth_error_setNth_eq; eassumption.
Qed.

Lemma errored key msg q i :
  In i (mapItem key (asError msg) q) -> id i = key ->
  status i = error /\ errorMsg i = Some msg.
Proof.
  intros Hin Hid. apply mapItem_hit in Hin; [ | reflexivity | exact Hid ].
  destruct Hin as (j & _ & _ & ->). split; reflexivity.
Qed.

Lemma mapItem_absent key f q : present key q = false -> mapItem key f q = q.
Proof.
  unfold present, mapItem. induction q as [ | i q IH ]; simpl; intros H.
  - reflexivity.
  - apply orb_false_iff in H. destruct H as [H1 H2].
    rewrite H1, IH by assumption. reflexivity.
Qed.

End StepFacts.

(** X4. An image that cannot be read or decoded never reaches the API
    and is not fatal: no request is sent, the credential flag is kept,
    every queue entry of the item ends in [error] with the generic
    generation-failed label, and the run goes on with the rest of its
    work list. *)
Theorem unreadable_image_is_item_error :
  forall s r rn item,
    nth_error (runs s) r = Some rn ->
    pc rn = AwaitPrepare item ->
    dataURL (file item) = None \/ dimensions (file item) = None ->
    outbox (step s (Resume r)) = outbox s /\
    hasKey (step s (Resume r)) = hasKey s /\
    queue (step s (Resume r))
    = mapItem (id item) (asError msgGenerationFailed) (queue s) /\
    (forall i, In i (queue (step s (Resume r))) -> id i = id item ->
               status i = error /\ errorMsg i = Some msgGenerationFailed) /\
    nth_error (runs (step s (Resume r))) r
    = Some (continue (pendingItems rn) (runPrompt rn)).
Proof.
  intros s r rn item Hr Hpc Hbad.
  assert (Hrej : prepareImageForGenAI (file item) = Rejected None).
  { unfold prepareImageForGenAI. destruct Hbad as [-> | Hd]; [ reflexivity | ].
    destruct (dataURL (file item)); [ rewrite Hd | ]; reflexivity. }
  assert (Hs : step s (Resume r)
               = nextIteration r (pendingItems rn) (runPrompt rn)
                   (setQueue (mapItem (id item) (asError msgGenerationFailed)) s)).
  { change (step s (Resume r)) with (resume r s). unfold resume.
    rewrite Hr, Hpc, Hrej. destruct (pendingItems rn); reflexivity. }
  rewrite Hs.
  destruct (StepFacts.after_nextIteration r rn (pendingItems rn) (runPrompt rn)
              (setQueue (mapItem (id item) (asError msgGenerationFailed)) s) Hr)
    as (Hq & Hk & Ho & Hn & _).
  rewrite Hq, Hk, Ho, Hn.
  split; [ reflexivity | ]. split; [ reflexivity | ]. split; [ reflexivity | ].
  split; [ | reflexivity ].
  intros i Hi Hid. simpl in Hi. apply (StepFacts.errored _ _ _ _ Hi Hid).
Qed.

(** X5. A response without an image is a failure of the item, not of the
    run: when the response has no parts, or no part carries inline data,
    every queue entry of the item ends in [error] with the generic
    generation-failed label, the credential flag is kept and the run
    goes on with the rest of its work list. *)
Theorem response_without_image_is_item_error :
  forall s r rn item response,
    nth_error (runs s) r = Some rn ->
    pc rn = AwaitGenerate item ->
    parts response = None \/
    (exists ps, parts response = Some ps /\
                Forall (fun p => inlineData p = None) ps) ->
    hasKey (step s (Respond r (Resolved response))) = hasKey s /\
    queue (step s (Respond r (Resolved response)))
    = mapItem (id item) (asError msgGenerationFailed) (queue s) /\
    (forall i, In i (queue (step s (Respond r (Resolved response)))) ->
               id i = id item ->
               status i = error /\ errorMsg i = Some msgGenerationFailed) /\
    nth_error (runs (step s (Respond r (Resolved response)))) r
    = Some (continue (pendingItems rn) (runPrompt rn)).
Proof.
  intros s r rn item response Hr Hpc Hnone.
  assert (Hex : extractImage response = None).
  { unfold extractImage. destruct Hnone as [-> | (ps & -> & Hall)];
      [ reflexivity | apply StepFacts.firstInline_none, Hall ]. }
  assert (Hs : step s (Respond r (Resolved response))
               = nextIteration r (pendingItems rn) (runPrompt rn)
                   (setQueue (mapItem (id item) (asError msgGenerationFailed)) s)).
  { change (step s (Respond r (Resolved response)))
      with (respond r (Resolved response) s).
    unfold respond. rewrite Hr, Hpc, Hex. reflexivity. }
  rewrite Hs.
  destruct (StepFacts.after_nextIteration r rn (pendingItems rn) (runPrompt rn)
              (setQueue (mapItem (id item) (asError msgGenerationFailed)) s) Hr)
    as (Hq & Hk & _ & Hn & _).
  rewrite Hq, Hk, Hn.
  split; [ reflexivity | ]. split; [ reflexivity | ]. split; [ | reflexivity ].
  intros i Hi Hid. simpl in Hi. apply (StepFacts.errored _ _ _ _ Hi Hid).
Qed.

(** X6. The result recorded for an item is the first part of the
    response that carries inline data, as a PNG data URL: every queue
    entry of the item ends in [success] with that URL, later parts are
    ignored, and the run goes on with the rest of its work list. *)
Theorem first_inline_part_is_recorded :
  forall s r rn item response pre d post,
    nth_error (runs s) r = Some rn ->
    pc rn = AwaitGenerate item ->
    parts response = Some (pre ++ mkPart (Some d) :: post) ->
    Forall (fun p => inlineData p = None) pre ->
    queue (step s (Respond r (Resolved response)))
    = mapItem (id item) (asSuccess ("data:image/png;base64," ++ d)%string) (queue s) /\
    (forall i, In i (queue (step s (Respond r (Resolved response)))) ->
               id i = id item ->
               status i = success /\
               resultUrl i = Some ("data:image/png;base64," ++ d)%string) /\
    hasKey (step s (Respond r (Resolved response))) = hasKey s /\
    nth_error (runs (step s (Respond r (Resolved response)))) r
    = Some (continue (pendingItems rn) (runPrompt rn)).
Proof.
  intros s r rn item response pre d post Hr Hpc Hparts Hpre.
  assert (Hex : extractImage response
                = Some ("data:image/png;base64," ++ d)%string).
  { unfold extractImage. rewrite Hparts.
    apply StepFacts.firstInline_first, Hpre. }
  assert (Hs : step s (Respond r (Resolved response))
               = nextIteration r (pendingItems rn) (runPrompt rn)
                   (setQueue (mapItem (id item)
                      (asSuccess ("data:image/png;base64," ++ d)%string)) s)).
  { change (step s (Respond r (Resolved response)))
      with (respond r (Resolved response) s).
    unfold respond. rewrite Hr, Hpc, Hex. reflexivity. }
  rewrite Hs.
  match goal with
  | |- context [nextIteration r ?l ?p ?t] =>
      destruct (StepFacts.after_nextIteration r rn l p t Hr)
        as (Hq & Hk & _ & Hn & _)
  end.
  rewrite Hq, Hk, Hn. split; [ reflexivity | ]. split; [ | auto ].
  intros i Hi Hid. simpl in Hi.
  apply Processor.mapItem_hit in Hi; [ | reflexivity | exact Hid ].
  destruct Hi as (j & _ & _ & ->). split; reflexivity.
Qed.

(** X7. Removing the item in flight does not cancel its request, and its
    outcome is dropped. If the item is removed while its image is being
    prepared, the request is still sent. If it is gone when the request
    settles, with an image or with a failure that is not fatal, the
    queue, the credential flag and the requests sent are unchanged and
    the run goes on with the rest of its work list. *)
Theorem removed_in_flight_result_is_dropped :
  forall s r rn item,
    nth_error (runs s) r = Some rn ->
    present (id item) (queue s) = false ->
    (forall prepared,
        pc rn = AwaitPrepare item ->
        prepareImageForGenAI (file item) = Resolved prepared ->
        outbox (step s (Resume r))
        = outbox s ++ [buildRequest (runPrompt rn) item prepared] /\
        queue (step s (Resume r)) = queue s) /\
    (forall res,
        pc rn = AwaitGenerate item ->
        authFailure res = false ->
        queue (step s (Respond r res)) = queue s /\
        hasKey (step s (Respond r res)) = hasKey s /\
        outbox (step s (Respond r res)) = outbox s /\
        nth_error (runs (step s (Respond r res))) r
        = Some (continue (pendingItems rn) (runPrompt rn))).
Proof.
  intros s r rn item Hr Habs. split.
  - intros prepared Hpc Hprep.
    change (step s (Resume r)) with (resume r s). unfold resume.
    rewrite Hr, Hpc, Hprep. destruct (pendingItems rn); split; reflexivity.
  - intros res Hpc Hok.
    assert (Hs : exists f,
      step s (Respond r res)
      = nextIteration r (pendingItems rn) (runPrompt rn)
          (setQueue (mapItem (id item) f) s)).
    { change (step s (Respond r res)) with (respond r res s). unfold respond.
      rewrite Hr, Hpc. destruct res as [ response | message ].
      - destruct (extractImage response) as [ imageUrl | ].
        + eexists; reflexivity.
        + eexists. apply StepFacts.catchBlock_records. reflexivity.
      - eexists. apply StepFacts.catchBlock_records. exact Hok. }
    destruct Hs as (f & ->).
    match goal with
    | |- context [nextIteration r ?l ?p ?t] =>
        destruct (StepFacts.after_nextIteration r rn l p t Hr)
          as (Hq & Hk & Ho & Hn & _)
    end.
    rewrite Hq, Hk, Ho, Hn. simpl.
    rewrite StepFacts.mapItem_absent by exact Habs. auto.
Qed.

(** ** The requests that are sent *)

Module Requests.

Lemma orElse_nonempty t d : d <> "" -> orElse (Some t) d <> "".
Proof.
  intros Hd. unfold orElse. destruct (String.eqb t "") eqn:E; [ exact Hd | ].
  apply String.eqb_neq, E.
Qed.

Lemma buildRequest_standard g item p :
  prepareImageForGenAI (file item) = Resolved p ->
  standardRequest (buildRequest g item p).
Proof.
  intros Hp. unfold standardRequest, buildRequest; simpl.
  split; [ reflexivity | ]. split; [ reflexivity | ].
  split; [ apply orElse_nonempty; discriminate | ].
  unfold prepareImageForGenAI in Hp.
  destruct (dataURL (file item)); [ | discriminate ].
  destruct (dimensions (file item)) as [ [w h] | ]; [ | discriminate ].
  injection Hp as <-. simpl.
  destruct (Matcher.aspectRatioOf_total w h) as (label & Hl & Hin). eauto.
Qed.

Lemma outbox_catchBlock r item rest prompt message s :
  outbox (catchBlock r item rest prompt message s) = outbox s.
Proof.
  unfold catchBlock. destruct (authRejected message); [ reflexivity | ].
  destruct rest; reflexivity.
Qed.

Lemma outbox_step s e :
  outbox (step s e) = outbox s \/
  exists g item p,
    prepareImageForGenAI (file item) = Resolved p /\
    outbox (step s e) = outbox s ++ [buildRequest g item p].
Proof.
  unfold step. destruct (enabled s e); [ | auto ].
  destruct e; simpl handle; try (left; reflexivity).
  - left. unfold processQueue. destruct (isProcessing s); [ reflexivity | ].
    destruct (filter eligible (queue s)); reflexivity.
  - unfold resume. destruct (nth_error (runs s) r) as [ rn | ]; [ | auto ].
    destruct (pc rn) as [ | item | item | ]; auto.
    + destruct (pendingItems rn) as [ | item rest ]; auto.
      destruct (present (id item) (queue s)); [ left; reflexivity | ].
      left. destruct rest; reflexivity.
    + destruct (pendingItems rn) as [ | next rest ];
        destruct (prepareImageForGenAI (file item)) as [ p | m ] eqn:Hp;
        try (right; exists (runPrompt rn), item, p; split; [ exact Hp | reflexivity ]);
        left; apply outbox_catchBlock.
  - unfold respond. destruct (nth_error (runs s) r) as [ rn | ]; [ | auto ].
    destruct (pc rn) as [ | item | item | ]; auto.
    left. destruct res as [ response | message ].
    + destruct (extractImage response); [ | apply outbox_catchBlock ].
      destruct (pendingItems rn); reflexivity.
    + apply outbox_catchBlock.
Qed.

End Requests.

(** X8. Every request that is ever sent, in any execution, names the
    model "gemini-3-pro-image-preview", asks for the "4K" size, carries
    a non-empty media type and one of the five supported aspect-ratio
    labels. *)
Theorem every_request_is_standard :
  forall es, Forall standardRequest (outbox (exec es initial)).
Proof.
  assert (H : forall es s, Forall standardRequest (outbox s) ->
                           Forall standardRequest (outbox (exec es s))).
  { induction es as [ | e es IH ]; simpl; intros s Hs; [ exact Hs | ].
    apply IH.
    destruct (Requests.outbox_step s e) as [-> | (g & item & p & Hp & ->)];
      [ exact Hs | ].
    apply Forall_app. split; [ exact Hs | ].
    constructor; [ | constructor ].
    apply Requests.buildRequest_standard, Hp. }
  intros es. apply H. constructor.
Qed.

(** ** A run returns *)

Module Termination.
Import Processor RunFacts.

Lemma continue_ready rest prompt p :
  (pc (continue rest prompt) = AwaitQueue -> pendingItems (continue rest prompt) <> []) /\
  (pc (continue rest prompt) = Done -> flagAfter rest p = false) /\
  List.length (workList (continue rest prompt)) <= List.length rest.
Proof.
  destruct rest as [ | a rest ]; unfold continue, workList; simpl;
    repeat split; try discriminate; auto.
Qed.

Lemma Move_ready abort q p rn q' p' rn' :
  Move abort q p rn q' p' rn' ->
  (pc rn = AwaitQueue -> pendingItems rn <> []) ->
  (pc rn = Done -> p = false) ->
  (pc rn' = AwaitQueue -> pendingItems rn' <> []) /\
  (pc rn' = Done -> p' = false) /\
  List.length (workList rn') <= List.length (workList rn).
Proof.
  intros Hm Hw Hd.
  destruct Hm as [ | item rest Hpc Hpe Hpres | item rest Hpc Hpe Hpres
                 | item Hpc | item url Hcur | item msg Hcur | item Hab Hcur ].
  - auto.
  - destruct (continue_ready rest (runPrompt rn) p) as (H1 & H2 & H3).
    repeat split; auto. unfold workList at 2. rewrite Hpc, Hpe. simpl. lia.
  - unfold workList; simpl. rewrite Hpc, Hpe.
    repeat split; try discriminate. simpl. lia.
  - unfold workList; simpl. rewrite Hpc.
    repeat split; try discriminate. simpl. lia.
  - destruct (continue_ready (pendingItems rn) (runPrompt rn) p) as (H1 & H2 & H3).
    destruct (Orderly.current_workList rn item Hcur) as (-> & _).
    repeat split; auto. simpl. lia.
  - destruct (continue_ready (pendingItems rn) (runPrompt rn) p) as (H1 & H2 & H3).
    destruct (Orderly.current_workList rn item Hcur) as (-> & _).
    repeat split; auto. simpl. lia.
  - unfold workList at 1; simpl. repeat split; try discriminate; auto. lia.
Qed.

(** A step of the run never undoes what was reached. *)
Lemma Ready_step s r n e :
  Ready s r n ->
  (e = Resume r \/ exists res, e = Respond r res) ->
  Ready (step s e) r n.
Proof.
  intros (rn & Hr & Hw & Hd & Hl) He.
  assert (Hgoal : forall abort rn' k' q' p' o',
    Move abort (queue s) (isProcessing s) rn q' p' rn' ->
    Ready (mkApp k' q' p' (globalPrompt s) (setNth r rn' (runs s)) o') r n).
  { intros abort rn' k' q' p' o' Hm.
    destruct (Move_ready _ _ _ _ _ _ _ Hm Hw Hd) as (H1 & H2 & H3).
    exists rn'. simpl. repeat split; auto; try lia.
    eapply nth_error_setNth_eq; eassumption. }
  destruct He as [ -> | (res & ->) ].
  - change (step s (Resume r)) with (resume r s).
    destruct (resume_move r s rn Hr) as (rn' & k' & q' & p' & o' & -> & Hm).
    eapply Hgoal; eassumption.
  - change (step s (Respond r res)) with (respond r res s).
    destruct (respond_move r res s rn Hr) as (rn' & k' & q' & p' & o' & -> & Hm).
    eapply Hgoal; eassumption.
Qed.

(** What is left after the item in flight is settled or given up. *)
Lemma Ready_after r rn0 s rest prompt n :
  nth_error (runs s) r = Some rn0 ->
  List.length rest <= n ->
  (forall f, Ready (nextIteration r rest prompt (setQueue f s)) r n) /\
  Ready (setRun r (mkRun rest Done prompt)
           (setIsProcessing false (setHasKey false s))) r n.
Proof.
  intros Hr Hl. split.
  - intros f.
    destruct (StepFacts.after_nextIteration r rn0 rest prompt (setQueue f s) Hr)
      as (_ & _ & _ & Hn & Hp).
    destruct (continue_ready rest prompt (isProcessing (setQueue f s)))
      as (H1 & H2 & H3).
    exists (continue rest prompt). rewrite Hp. repeat split; auto. lia.
  - exists (mkRun rest Done prompt). unfold workList; simpl.
    repeat split; try discriminate; try lia.
    eapply nth_error_setNth_eq; eassumption.
Qed.

Lemma catchBlock_ready r rn0 s item rest prompt message n :
  nth_error (runs s) r = Some rn0 ->
  List.length rest <= n ->
  Ready (catchBlock r item rest prompt message s) r n.
Proof.
  intros Hr Hl. destruct (Ready_after r rn0 s rest prompt n Hr Hl) as (H1 & H2).
  unfold catchBlock. destruct (authRejected message); [ exact H2 | apply H1 ].
Qed.

(** The request settles: the item is done with. *)
Lemma settle_strict s r rn item res n :
  nth_error (runs s) r = Some rn ->
  pc rn = AwaitGenerate item ->
  List.length (workList rn) <= S n ->
  Ready (step s (Respond r res)) r n.
Proof.
  intros Hr Hpc Hl. unfold workList in Hl. rewrite Hpc in Hl. simpl in Hl.
  assert (Hpe : List.length (pendingItems rn) <= n) by lia.
  change (step s (Respond r res)) with (respond r res s). unfold respond.
  rewrite Hr, Hpc. destruct res as [ response | message ].
  - destruct (extractImage response).
    + apply (Ready_after r rn s _ _ n Hr Hpe).
    + eapply catchBlock_ready; eassumption.
  - eapply catchBlock_ready; eassumption.
Qed.

(** The image is prepared: the request is in flight, or the item is
    done with. *)
Lemma prepare_strict s r rn item n :
  nth_error (runs s) r = Some rn ->
  pc rn = AwaitPrepare item ->
  List.length (workList rn) <= S n ->
  Ready (step s (Resume r)) r n \/
  exists rn1,
    nth_error (runs (step s (Resume r))) r = Some rn1 /\
    pc rn1 = AwaitGenerate item /\
    List.length (workList rn1) <= S n.
Proof.
  intros Hr Hpc Hl. unfold workList in Hl. rewrite Hpc in Hl. simpl in Hl.
  assert (Hpe : List.length (pendingItems rn) <= n) by lia.
  change (step s (Resume r)) with (resume r s). unfold resume.
  rewrite Hr, Hpc.
  destruct (pendingItems rn) as [ | next rest ] eqn:Epe;
    destruct (prepareImageForGenAI (file item)) as [ p | message ];
    try (left; eapply catchBlock_ready; eassumption);
    right; eexists; (split; [ simpl; eapply nth_error_setNth_eq; eassumption | ]);
    unfold workList; simpl; split; try reflexivity; simpl in Hpe; lia.
Qed.

(** The turn of an item comes: it is marked, or skipped. *)
Lemma queue_strict s r rn n :
  nth_error (runs s) r = Some rn ->
  pc rn = AwaitQueue ->
  pendingItems rn <> [] ->
  List.length (workList rn) <= S n ->
  Ready (step s (Resume r)) r n \/
  exists rn1 item,
    nth_error (runs (step s (Resume r))) r = Some rn1 /\
    pc rn1 = AwaitPrepare item /\
    List.length (workList rn1) <= S n.
Proof.
  intros Hr Hpc Hne Hl. unfold workList in Hl. rewrite Hpc in Hl.
  destruct (pendingItems rn) as [ | item rest ] eqn:Epe; [ congruence | ].
  simpl in Hl. assert (Hrest : List.length rest <= n) by lia.
  change (step s (Resume r)) with (resume r s). unfold resume.
  rewrite Hr, Hpc, Epe. destruct (present (id item) (queue s)).
  - right. exists (mkRun rest (AwaitPrepare item) (runPrompt rn)), item.
    split; [ simpl; eapply nth_error_setNth_eq; eassumption | ].
    unfold workList; simpl. split; [ reflexivity | lia ].
  - left.
    destruct (Ready_after r rn s rest (runPrompt rn) n Hr Hrest) as (H1 & _).
    exact (H1 (fun q => q)).
Qed.

Lemma resume_waits s r rn item :
  nth_error (runs s) r = Some rn -> pc rn = AwaitGenerate item ->
  step s (Resume r) = s.
Proof.
  intros Hr Hpc. change (step s (Resume r)) with (resume r s).
  unfold resume. rewrite Hr, Hpc. reflexivity.
Qed.

(** One round settles at least one item. *)
Lemma round_strict s r n res :
  Ready s r (S n) -> Ready (exec [Resume r; Resume r; Respond r res] s) r n.
Proof.
  intros (rn & Hr & Hw & Hd & Hl). simpl.
  assert (Hmono : forall t, Ready t r n ->
            Ready (step t (Respond r res)) r n /\
            Ready (step (step t (Resume r)) (Respond r res)) r n).
  { intros t Ht. split; repeat apply Ready_step; eauto. }
  destruct (pc rn) as [ | item | item | ] eqn:Hpc.
  - destruct (queue_strict s r rn n Hr Hpc (Hw eq_refl) Hl)
      as [H | (rn1 & item & Hr1 & Hpc1 & Hl1)];
      [ exact (proj2 (Hmono _ H)) | ].
    destruct (prepare_strict _ r rn1 item n Hr1 Hpc1 Hl1)
      as [H | (rn2 & Hr2 & Hpc2 & Hl2)];
      [ exact (proj1 (Hmono _ H)) | ].
    eapply settle_strict; eassumption.
  - destruct (prepare_strict s r rn item n Hr Hpc Hl)
      as [H | (rn1 & Hr1 & Hpc1 & Hl1)];
      [ exact (proj2 (Hmono _ H)) | ].
    rewrite (resume_waits _ r rn1 item Hr1 Hpc1).
    eapply settle_strict; eassumption.
  - rewrite !(resume_waits s r rn item Hr Hpc).
    eapply settle_strict; eassumption.
  - assert (H : Ready s r n).
    { exists rn. unfold workList. rewrite Hpc.
      repeat split; auto; try discriminate; simpl; lia. }
    apply (Hmono (step s (Resume r))). apply Ready_step; eauto.
Qed.

Lemma serve_ready r responses : forall s n,
  Ready s r n -> n <= List.length responses ->
  Ready (exec (serve r responses) s) r 0.
Proof.
  induction responses as [ | res responses IH ]; intros s n H Hle; simpl in *.
  - assert (n = 0) by lia. subst n. exact H.
  - change (Resume r :: Resume r :: Respond r res :: serve r responses)
      with ([Resume r; Resume r; Respond r res] ++ serve r responses).
    change (exec ([Resume r; Resume r; Respond r res] ++ serve r responses) s)
      with (exec (serve r responses)
              (exec [Resume r; Resume r; Respond r res] s)).
    destruct n as [ | n ].
    + apply (IH _ 0); [ | lia ]. simpl.
      repeat apply Ready_step; eauto.
    + apply (IH _ n); [ | lia ]. apply round_strict, H.
Qed.

Lemma Ready_zero s r :
  Ready s r 0 ->
  (exists rn, nth_error (runs s) r = Some rn /\ pc rn = Done) /\
  isProcessing s = false.
Proof.
  intros (rn & Hr & Hw & Hd & Hl).
  assert (Hpc : pc rn = Done).
  { unfold workList in Hl. destruct (pc rn) eqn:E; simpl in Hl; try lia; auto.
    exfalso. apply (Hw eq_refl). destruct (pendingItems rn); [ reflexivity | simpl in Hl; lia ]. }
  split; [ exists rn; auto | auto ].
Qed.

End Termination.

(** X9. A run always returns. Once [processQueue] is let through, the
    run has returned and the active flag is cleared after at most one
    round of its awaits per work-list item, whatever the API answers or
    rejects with and whatever the files are: no failure leaves the loop
    hanging or escapes it. *)
Theorem run_returns :
  forall s responses,
    enabled s ProcessQueue = true ->
    List.length (filter eligible (queue s)) <= List.length responses ->
    (exists rn,
        nth_error (runs (exec (serve (List.length (runs s)) responses)
                              (step s ProcessQueue)))
                  (List.length (runs s)) = Some rn /\
        pc rn = Done) /\
    isProcessing (exec (serve (List.length (runs s)) responses)
                       (step s ProcessQueue)) = false.
Proof.
  intros s responses Hen Hle.
  apply Termination.Ready_zero.
  apply (Termination.serve_ready _ _ _ (List.length (filter eligible (queue s))));
    [ | exact Hle ].
  pose proof (processQueue_starts s Hen) as H0.
  destruct (Orderly.processQueue_state s Hen) as (_ & _ & Hne).
  eexists. split; [ exact H0 | ].
  unfold workList; simpl. repeat split; try discriminate; auto.
Qed.

(** ** The active flag and the runs *)

Module Liveness.
Import Processor RunFacts.

Lemma Alive_move abort k q p g rs o r rn k' q' p' o' rn' :
  Alive (mkApp k q p g rs o) ->
  nth_error rs r = Some rn ->
  Move abort q p rn q' p' rn' ->
  Alive (mkApp k' q' p' g (setNth r rn' rs) o').
Proof.
  intros Ha Hr Hm.
  assert (Hhere : forall x, pc x <> Done ->
            exists r2 rn2, nth_error (setNth r x rs) r2 = Some rn2 /\ pc rn2 <> Done).
  { intros x H. exists r, x. split; [ | exact H ].
    eapply nth_error_setNth_eq; eassumption. }
  assert (Hcont : forall rest prompt, flagAfter rest p = true ->
            pc (continue rest prompt) <> Done).
  { intros [ | a rest ] prompt; simpl; discriminate. }
  destruct Hm as [ | item rest Hpc Hpe Hpres | item rest Hpc Hpe Hpres
                 | item Hpc | item url Hcur | item msg Hcur | item Hab Hcur ];
    unfold Alive; cbn [isProcessing runs]; intros Hp.
  - rewrite (setNth_same rs r rn Hr). apply Ha. exact Hp.
  - apply Hhere. apply Hcont. exact Hp.
  - apply Hhere. discriminate.
  - apply Hhere. discriminate.
  - apply Hhere. apply Hcont. exact Hp.
  - apply Hhere. apply Hcont. exact Hp.
  - discriminate.
Qed.

Lemma Alive_step s e : Alive s -> Alive (step s e).
Proof.
  intros Ha. destruct (enabled s e) eqn:Hen;
    [ | unfold step; rewrite Hen; exact Ha ].
  destruct e; try (unfold step; rewrite Hen; exact Ha).
  - (* processQueue *)
    destruct (Orderly.processQueue_state s Hen) as (-> & _ & Hne).
    intros _. simpl. exists (List.length (runs s)). eexists.
    split; [ rewrite nth_error_app2, Nat.sub_diag by lia; reflexivity | ].
    discriminate.
  - (* cancel *)
    unfold step; rewrite Hen. intros H. discriminate.
  - unfold step; rewrite Hen. simpl handle.
    destruct (nth_error (runs s) r) as [ rn | ] eqn:Hr.
    + destruct (resume_move r s rn Hr) as (rn' & k' & q' & p' & o' & -> & Hm).
      destruct s as [k q p g rs o]; simpl in *.
      eapply Alive_move; eassumption.
    + unfold resume. rewrite Hr. exact Ha.
  - unfold step; rewrite Hen. simpl handle.
    destruct (nth_error (runs s) r) as [ rn | ] eqn:Hr.
    + destruct (respond_move r res s rn Hr) as (rn' & k' & q' & p' & o' & -> & Hm).
      destruct s as [k q p g rs o]; simpl in *.
      eapply Alive_move; eassumption.
    + unfold respond. rewrite Hr. exact Ha.
Qed.

Lemma Alive_exec es : forall s, Alive s -> Alive (exec es s).
Proof.
  induction es as [ | e es IH ]; simpl; intros s H; [ exact H | ].
  apply IH, Alive_step, H.
Qed.

End Liveness.

(** X10. The active flag and the runs. In every execution, whenever the
    active flag is set some run has not returned. In an execution
    without cancellation in which upload identifiers are new to the
    queue, the converse holds too: while a run has not returned the
    flag is set, so the start and clear-all controls are disabled for
    exactly as long as a run is alive. *)
Theorem flag_tracks_run :
  (forall es,
      isProcessing (exec es initial) = true ->
      exists r rn, nth_error (runs (exec es initial)) r = Some rn /\ pc rn <> Done) /\
  (forall es r rn,
      allAlong calm initial es = true ->
      nth_error (runs (exec es initial)) r = Some rn ->
      pc rn <> Done ->
      isProcessing (exec es initial) = true /\
      enabled (exec es initial) ProcessQueue = false /\
      enabled (exec es initial) ClearAll = false).
Proof.
  split.
  - intros es. apply (Liveness.Alive_exec es initial). intros H. discriminate.
  - intros es r rn Hcalm Hr Hlive.
    destruct (Orderly.Inv_exec es initial Orderly.Inv_initial Hcalm)
      as (_ & Hidle & _).
    assert (Hp : isProcessing (exec es initial) = true).
    { destruct (isProcessing (exec es initial)); [ reflexivity | ].
      exfalso. apply Hlive. apply (Hidle eq_refl r rn Hr). }
    unfold enabled. rewrite Hp. simpl.
    repeat split; apply andb_false_r.
Qed.

(** While the first request of the three-file run is in flight. *)
Lemma flag_tracks_run_witness :
  allAlong calm initial Scenario.firstInFlight = true /\
  isProcessing (exec Scenario.firstInFlight initial) = true /\
  enabled (exec Scenario.firstInFlight initial) ProcessQueue = false /\
  enabled (exec Scenario.firstInFlight initial) ClearAll = false.
Proof.
  split; [ reflexivity | ].
  apply (proj2 flag_tracks_run Scenario.firstInFlight 0
           (mkRun [Scenario.itemOf Scenario.fileB; Scenario.itemOf Scenario.fileC]
                  (AwaitGenerate (Scenario.itemOf Scenario.fileA)) initialPrompt));
    [ reflexivity | reflexivity | discriminate ].
Defined.

(** ** Items no run holds *)

Module Frozen.
Import Processor RunFacts.

Lemma not_editable_not_eligible i : editable i = false -> eligible i = false.
Proof.
  unfold editable, eligible. destruct (status i); simpl; congruence.
Qed.

Lemma onlyAs_mapItem i key f q :
  (forall j, id (f j) = id j) ->
  onlyAs i q -> key <> id i -> onlyAs i (mapItem key f q).
Proof.
  intros Hf Hq Hne i' Hi' Hid. apply Orderly.mapItem_in in Hi'.
  destruct Hi' as [(j & Hj & Ej & ->) | (Hi' & _)]; [ | auto ].
  exfalso. apply Hne. rewrite <- Ej, <- Hid. symmetry. apply Hf.
Qed.

Lemma held_current rn item :
  current rn = Some item -> In (id item) (map id (workList rn)).
Proof.
  intros H. destruct (Orderly.current_workList rn item H) as (-> & _).
  left; reflexivity.
Qed.

Lemma frozen_move abort q p rn q' p' rn' i :
  Move abort q p rn q' p' rn' ->
  onlyAs i q -> ~ In (id i) (map id (workList rn)) ->
  onlyAs i q' /\ ~ In (id i) (map id (workList rn')).
Proof.
  intros Hm Hq Hfree. split.
  - destruct Hm as [ | item rest Hpc Hpe Hpres | item rest Hpc Hpe Hpres
                   | item Hpc | item url Hcur | item msg Hcur | item Hab Hcur ];
      try exact Hq; apply onlyAs_mapItem; try reflexivity; try exact Hq;
      intros E; apply Hfree; rewrite <- E.
    + unfold workList. rewrite Hpc, Hpe. left; reflexivity.
    + apply held_current, Hcur.
    + apply held_current, Hcur.
  - destruct (move_advances _ _ _ _ _ _ _ Hm) as (_ & (done & Hd) & _).
    intros Hin. apply Hfree. rewrite Hd, map_app. apply in_or_app. auto.
Qed.

Lemma frozen_step s e i :
  editable i = false -> spares (id i) e = true ->
  onlyAs i (queue s) -> unheld s (id i) ->
  onlyAs i (queue (step s e)) /\ unheld (step s e) (id i).
Proof.
  intros Hed Hsp Hq Hun.
  destruct (enabled s e) eqn:Hen; [ | unfold step; rewrite Hen; auto ].
  destruct e; try (unfold step; rewrite Hen; split; assumption).
  - (* handleFiles *)
    unfold step; rewrite Hen. split; [ | exact Hun ].
    intros i' Hi' Hid. simpl in Hi'. apply in_app_or in Hi'.
    destruct Hi' as [Hi' | Hi']; [ auto | ].
    exfalso. apply in_map_iff in Hi'. destruct Hi' as (u & <- & Hu).
    simpl in Hsp, Hid. apply negb_true_iff in Hsp.
    assert (existsb (String.eqb (id i)) (map newId files) = true); [ | congruence ].
    apply existsb_exists. exists (newId u).
    split; [ apply in_map, Hu | apply String.eqb_eq; auto ].
  - (* removeItem *)
    unfold step; rewrite Hen. split; [ | exact Hun ].
    intros i' Hi' Hid. simpl in Hi'. apply filter_In in Hi'. apply Hq; tauto.
  - (* updateItemPrompt *)
    unfold step; rewrite Hen. split; [ | exact Hun ].
    simpl. apply onlyAs_mapItem; [ reflexivity | exact Hq | ].
    intros ->. simpl in Hen. apply andb_true_iff in Hen. destruct Hen as [_ Hen].
    apply existsb_exists in Hen. destruct Hen as (j & Hj & Hk).
    apply andb_true_iff in Hk. destruct Hk as [Hk He].
    apply String.eqb_eq in Hk. rewrite (Hq j Hj Hk) in He. congruence.
  - (* clear all *)
    unfold step; rewrite Hen. split; [ intros i' [] | exact Hun ].
  - (* processQueue *)
    destruct (Orderly.processQueue_state s Hen) as (-> & _ & _). simpl.
    split; [ exact Hq | ].
    intros r rn Hr. simpl in Hr. apply Orderly.nth_error_snoc in Hr.
    destruct Hr as [Hr | (_ & ->)]; [ apply (Hun r rn Hr) | ].
    unfold workList; simpl. intros Hin. apply in_map_iff in Hin.
    destruct Hin as (j & Hid & Hj). apply filter_In in Hj. destruct Hj as [Hj Hel].
    rewrite (Hq j Hj Hid) in Hel.
    rewrite (not_editable_not_eligible i Hed) in Hel. discriminate.
  - (* a run resumes *)
    unfold step; rewrite Hen. simpl handle.
    destruct (nth_error (runs s) r) as [ rn | ] eqn:Hr;
      [ | unfold resume; rewrite Hr; auto ].
    destruct (resume_move r s rn Hr) as (rn' & k' & q' & p' & o' & -> & Hm).
    destruct (frozen_move _ _ _ _ _ _ _ i Hm Hq (Hun r rn Hr)) as (H1 & H2).
    split; [ exact H1 | ]. intros r2 rn2 H. simpl in H.
    destruct (Orderly.nth_error_setNth_cases _ _ _ _ _ _ Hr H) as [[-> ->] | [_ H']];
      [ exact H2 | apply (Hun r2 rn2 H') ].
  - (* a request settles *)
    unfold step; rewrite Hen. simpl handle.
    destruct (nth_error (runs s) r) as [ rn | ] eqn:Hr;
      [ | unfold respond; rewrite Hr; auto ].
    destruct (respond_move r res s rn Hr) as (rn' & k' & q' & p' & o' & -> & Hm).
    destruct (frozen_move _ _ _ _ _ _ _ i Hm Hq (Hun r rn Hr)) as (H1 & H2).
    split; [ exact H1 | ]. intros r2 rn2 H. simpl in H.
    destruct (Orderly.nth_error_setNth_cases _ _ _ _ _ _ Hr H) as [[-> ->] | [_ H']];
      [ exact H2 | apply (Hun r2 rn2 H') ].
Qed.

Lemma frozen_exec i es : forall s,
  editable i = false ->
  allAlong (fun _ e => spares (id i) e) s es = true ->
  onlyAs i (queue s) -> unheld s (id i) ->
  onlyAs i (queue (exec es s)).
Proof.
  induction es as [ | e es IH ]; simpl; intros s Hed H Hq Hun; [ exact Hq | ].
  apply andb_true_iff in H. destruct H as [He Hes].
  destruct (frozen_step s e i Hed He Hq Hun) as (H1 & H2).
  apply IH; assumption.
Qed.

Lemma onlyAs_of_NoDup i q : NoDup (map id q) -> In i q -> onlyAs i q.
Proof.
  intros Hnd Hi i' Hi' Hid. apply (Orderly.NoDup_ids_inj q); assumption.
Qed.

(** In a calm execution no run holds a finished item. *)
Lemma success_unheld s i :
  Inv s -> In i (queue s) -> status i = success -> unheld s (id i).
Proof.
  intros (_ & _ & _ & _ & Hrun) Hi Hst r rn Hr Hin.
  destruct (Hrun r rn Hr) as (_ & Hpend & Hfl).
  unfold workList in Hin. unfold inFlight, current in Hfl.
  assert (Hnot : eligible i = false) by (unfold eligible; rewrite Hst; reflexivity).
  assert (Hpe : In (id i) (map id (pendingItems rn)) -> pc rn <> Done -> False).
  { intros H Hlive. apply in_map_iff in H. destruct H as (w & Hw & Hin').
    rewrite (Hpend w i Hlive Hin' Hi (eq_sym Hw)) in Hnot. discriminate. }
  destruct (pc rn) as [ | item | item | ] eqn:Hpc; simpl in Hin.
  - apply Hpe; [ exact Hin | discriminate ].
  - destruct Hin as [E | Hin]; [ | apply Hpe; [ exact Hin | discriminate ] ].
    destruct (Hfl i) as [H | H]; simpl; try congruence.
  - destruct Hin as [E | Hin]; [ | apply Hpe; [ exact Hin | discriminate ] ].
    destruct (Hfl i) as [H | H]; simpl; try congruence.
  - exact Hin.
Qed.

End Frozen.

(** X11. Success is final. In an execution without cancellation in
    which upload identifiers are new to the queue, once an item is
    [success] no later event changes it, whatever follows (further
    runs, edits, a cancellation): as long as its identifier is not
    drawn again for an upload, a queue entry with that identifier is
    the item exactly as it was; it can only be removed. *)
Theorem success_is_final :
  forall es0 i es,
    allAlong calm initial es0 = true ->
    In i (queue (exec es0 initial)) ->
    status i = success ->
    allAlong (fun _ e => spares (id i) e) (exec es0 initial) es = true ->
    forall i', In i' (queue (exec es (exec es0 initial))) -> id i' = id i -> i' = i.
Proof.
  intros es0 i es Hcalm Hi Hst Hes.
  pose proof (Orderly.Inv_exec es0 initial Orderly.Inv_initial Hcalm) as HI.
  apply (Frozen.frozen_exec i es (exec es0 initial)).
  - unfold editable. rewrite Hst. reflexivity.
  - exact Hes.
  - apply Frozen.onlyAs_of_NoDup; [ apply HI | exact Hi ].
  - apply Frozen.success_unheld; assumption.
Qed.

(** X12. After the fatal exit the item is stuck. In an execution from
    the initial state in which the identifiers drawn for uploads are new
    to the queue and [processQueue] is let through only when every
    earlier run has returned (Stop may be pressed at any time), when a
    run gives up on an authentication rejection, the item whose request
    was rejected stays [processing] whatever follows, with no
    restriction on what follows but that its identifier is not drawn
    again for an upload (the key is selected again, further runs are
    started, also overlapping ones): a queue entry with that identifier
    is the item exactly as it was; no run takes it up again and it can
    only be removed. *)
Theorem item_of_aborted_run_is_stuck :
  forall es0 r rn item message i es,
    allAlong exclusive initial es0 = true ->
    nth_error (runs (exec es0 initial)) r = Some rn ->
    pc rn = AwaitGenerate item ->
    authRejected message = true ->
    In i (queue (exec es0 initial)) -> id i = id item -> status i = processing ->
    allAlong (fun _ e => spares (id i) e)
             (step (exec es0 initial) (Respond r (Rejected message))) es = true ->
    forall i',
      In i' (queue (exec es (step (exec es0 initial) (Respond r (Rejected message))))) ->
      id i' = id i -> i' = i.
Proof.
  intros es0 r rn item message i es Hex Hr Hpc Hauth Hi Hid Hst Hes.
  pose proof (Exclusive.Sequential_exec es0 initial
                Exclusive.Sequential_initial Hex) as HS.
  destruct (auth_rejected_aborts_run _ r rn item message Hr Hpc Hauth)
    as (_ & _ & Hq & _ & Hn & _).
  apply (Frozen.frozen_exec i es).
  - unfold editable. rewrite Hst. reflexivity.
  - exact Hes.
  - rewrite Hq. apply Frozen.onlyAs_of_NoDup; [ apply HS | exact Hi ].
  - assert (Hlive : pc rn <> Done) by congruence.
    pose proof (Exclusive.live_run_unique _ r rn HS Hr Hlive) as Hothers.
    assert (Hruns : runs (step (exec es0 initial) (Respond r (Rejected message)))
                    = setNth r (mkRun (pendingItems rn) Done (runPrompt rn))
                             (runs (exec es0 initial))).
    { change (step ?t (Respond r ?a)) with (respond r a t).
      unfold respond, catchBlock. rewrite Hr, Hpc, Hauth. reflexivity. }
    intros r2 rn2 H2. rewrite Hruns in H2.
    destruct (Orderly.nth_error_setNth_cases _ _ _ _ _ _ Hr H2)
      as [[-> ->] | [Hne H2']].
    + unfold workList; simpl. auto.
    + unfold workList. rewrite (Hothers r2 rn2 Hne H2'). auto.
Qed.

(** ** Removing and queueing *)

Module QueueFacts.

Lemma filter_all {A : Type} (f : A -> bool) l :
  (forall x, In x l -> f x = true) -> filter f l = l.
Proof.
  induction l as [ | a l IH ]; simpl; intros H; [ reflexivity | ].
  rewrite (H a) by auto. f_equal. apply IH. auto.
Qed.

Lemma present_false key q i :
  present key q = false -> In i q -> String.eqb (id i) key = false.
Proof.
  unfold present. intros H Hi.
  destruct (String.eqb (id i) key) eqn:E; [ | reflexivity ].
  assert (existsb (fun j => String.eqb (id j) key) q = true); [ | congruence ].
  apply existsb_exists. eauto.
Qed.

End QueueFacts.

(** X13. Removing by identifier. After [removeItem] no queue entry has
    the identifier (every entry with it is removed), every entry with
    another identifier is still in the queue, and no run is changed;
    removing a file that was just queued under an identifier new to
    the queue gives back the queue as it was. *)
Theorem remove_item_effect :
  forall s key,
    present key (queue (removeItem key s)) = false /\
    (forall i, In i (queue s) -> id i <> key -> In i (queue (removeItem key s))) /\
    runs (removeItem key s) = runs s /\
    (forall u, key = newId u -> present key (queue s) = false ->
               queue (removeItem key (handleFiles (Some [u]) s)) = queue s).
Proof.
  intros s key. repeat split.
  - unfold present, removeItem; simpl.
    destruct (existsb _ _) eqn:E; [ | reflexivity ].
    apply existsb_exists in E. destruct E as (i & Hi & Hk).
    apply filter_In in Hi. destruct Hi as [_ Hi]. rewrite Hk in Hi. discriminate.
  - intros i Hi Hne. unfold removeItem; simpl. apply filter_In.
    split; [ exact Hi | ]. apply negb_true_iff, String.eqb_neq, Hne.
  - intros u -> Habs. unfold removeItem, handleFiles; simpl.
    rewrite filter_app. simpl. rewrite String.eqb_refl. simpl.
    rewrite app_nil_r. apply QueueFacts.filter_all.
    intros i Hi. rewrite (QueueFacts.present_false _ _ _ Habs Hi). reflexivity.
Qed.

(** The second of three queued files is removed; a fourth file is
    queued and removed again. *)
Lemma remove_item_effect_witness :
  present Scenario.idB
          (queue (removeItem Scenario.idB (exec Scenario.threeQueued initial))) = false /\
  queue (removeItem (newId Cases.broken)
           (handleFiles (Some [Cases.broken]) (exec Scenario.threeQueued initial)))
  = queue (exec Scenario.threeQueued initial).
Proof.
  destruct (remove_item_effect (exec Scenario.threeQueued initial) Scenario.idB)
    as (H1 & _).
  destruct (remove_item_effect (exec Scenario.threeQueued initial) (newId Cases.broken))
    as (_ & _ & _ & H4).
  split; [ exact H1 | ]. apply (H4 Cases.broken); reflexivity.
Defined.

(** X14. An image that reports a width of zero and a finite positive
    height is sent with the label "9:16": the ratio is zero and the
    smallest supported value is the closest. *)
Theorem zero_width_is_portrait :
  forall width height,
    Num.isZero width = true -> Num.posFinite height = true ->
    aspectRatioOf width height = Some "9:16".
Proof.
  intros width height Hw Hh.
  destruct width as [ sx | | | ]; try discriminate.
  destruct height as [ | | | [ | ] m e ]; try discriminate.
  unfold aspectRatioOf, bestMatch, Num.div. cbn [SFdiv xorb].
  destruct sx; vm_compute; reflexivity.
Qed.

(** A 0 by 600 image. *)
Lemma zero_width_is_portrait_witness :
  aspectRatioOf (Num.ofInt 0) (Num.ofInt 600) = Some "9:16".
Proof. apply zero_width_is_portrait; reflexivity. Defined.

(** ** The further theorems at scenarios *)

Lemma unreadable_image_is_item_error_witness :
  dimensions (file (Scenario.itemOf Cases.broken)) = None /\
  outbox (step (exec Cases.brokenMarked initial) (Resume 0))
  = outbox (exec Cases.brokenMarked initial) /\
  queue (step (exec Cases.brokenMarked initial) (Resume 0))
  = mapItem (newId Cases.broken) (asError msgGenerationFailed)
            (queue (exec Cases.brokenMarked initial)).
Proof.
  split; [ reflexivity | ].
  destruct (unreadable_image_is_item_error
              (exec Cases.brokenMarked initial) 0
              (mkRun [Scenario.itemOf Scenario.fileB]
                     (AwaitPrepare (Scenario.itemOf Cases.broken)) initialPrompt)
              (Scenario.itemOf Cases.broken))
    as (Ho & _ & Hq & _); try reflexivity.
  - right; reflexivity.
  - split; [ exact Ho | exact Hq ].
Defined.

Lemma response_without_image_is_item_error_witness :
  queue (step (exec Scenario.firstInFlight initial)
              (Respond 0 (Resolved (mkResponse None))))
  = mapItem Scenario.idA (asError msgGenerationFailed)
            (queue (exec Scenario.firstInFlight initial)).
Proof.
  exact (proj1 (proj2
    (response_without_image_is_item_error
       (exec Scenario.firstInFlight initial) 0
       (mkRun [Scenario.itemOf Scenario.fileB; Scenario.itemOf Scenario.fileC]
              (AwaitGenerate (Scenario.itemOf Scenario.fileA)) initialPrompt)
       (Scenario.itemOf Scenario.fileA) (mkResponse None)
       eq_refl eq_refl (or_introl eq_refl)))).
Defined.

Lemma first_inline_part_is_recorded_witness :
  queue (step (exec Scenario.firstInFlight initial)
              (Respond 0 (Resolved Cases.twoImages)))
  = mapItem Scenario.idA (asSuccess "data:image/png;base64,QUJD")
            (queue (exec Scenario.firstInFlight initial)).
Proof.
  exact (proj1
    (first_inline_part_is_recorded
       (exec Scenario.firstInFlight initial) 0
       (mkRun [Scenario.itemOf Scenario.fileB; Scenario.itemOf Scenario.fileC]
              (AwaitGenerate (Scenario.itemOf Scenario.fileA)) initialPrompt)
       (Scenario.itemOf Scenario.fileA) Cases.twoImages
       [mkPart None] "QUJD" [mkPart (Some "WFla")]
       eq_refl eq_refl eq_refl
       (Forall_cons (P := fun p => inlineData p = None) (mkPart None)
                    eq_refl (Forall_nil _)))).
Defined.

Lemma removed_in_flight_result_is_dropped_witness :
  present Scenario.idA (queue (exec Cases.removedInFlight initial)) = false /\
  queue (step (exec Cases.removedInFlight initial) (Respond 0 Scenario.image))
  = queue (exec Cases.removedInFlight initial).
Proof.
  split; [ reflexivity | ].
  exact (proj1
    (proj2 (removed_in_flight_result_is_dropped
              (exec Cases.removedInFlight initial) 0
              (mkRun [Scenario.itemOf Scenario.fileB; Scenario.itemOf Scenario.fileC]
                     (AwaitGenerate (Scenario.itemOf Scenario.fileA)) initialPrompt)
              (Scenario.itemOf Scenario.fileA) eq_refl eq_refl)
           Scenario.image eq_refl eq_refl)).
Defined.

Lemma run_returns_witness :
  enabled (exec Scenario.threeQueued initial) ProcessQueue = true /\
  isProcessing
    (exec (serve 0 [Scenario.image; Scenario.notFound; Scenario.image])
          (step (exec Scenario.threeQueued initial) ProcessQueue)) = false.
Proof.
  split; [ reflexivity | ].
  apply (run_returns (exec Scenario.threeQueued initial)
           [Scenario.image; Scenario.notFound; Scenario.image]).
  - reflexivity.
  - vm_compute. repeat constructor.
Defined.

Lemma success_is_final_witness :
  allAlong calm initial Cases.firstSucceeded = true /\
  status Cases.doneA = success /\
  forall i',
    In i' (queue (exec Cases.afterSuccess (exec Cases.firstSucceeded initial))) ->
    id i' = id Cases.doneA -> i' = Cases.doneA.
Proof.
  split; [ reflexivity | ]. split; [ reflexivity | ].
  apply (success_is_final Cases.firstSucceeded Cases.doneA Cases.afterSuccess).
  - reflexivity.
  - left; reflexivity.
  - reflexivity.
  - reflexivity.
Defined.

(** Stop is pressed while the request of the second item is in flight;
    the request is then rejected; the key is selected again and a new
    run works on the third item. *)
Lemma item_of_aborted_run_is_stuck_witness :
  allAlong exclusive initial Cases.secondInFlightStopped = true /\
  In CancelProcessing Cases.secondInFlightStopped /\
  status (asProcessing (Scenario.itemOf Scenario.fileB)) = processing /\
  forall i',
    In i' (queue (exec Cases.afterAbort
                    (step (exec Cases.secondInFlightStopped initial)
                          (Respond 0 Scenario.notFound)))) ->
    id i' = Scenario.idB -> i' = asProcessing (Scenario.itemOf Scenario.fileB).
Proof.
  split; [ reflexivity | ]. split; [ simpl; tauto | ]. split; [ reflexivity | ].
  apply (item_of_aborted_run_is_stuck Cases.secondInFlightStopped 0
           (mkRun [Scenario.itemOf Scenario.fileC]
                  (AwaitGenerate (Scenario.itemOf Scenario.fileB)) initialPrompt)
           (Scenario.itemOf Scenario.fileB)
           (Some "Requested entity was not found.")
           (asProcessing (Scenario.itemOf Scenario.fileB)) Cases.afterAbort);
    try reflexivity.
  right; left; reflexivity.
Defined.

(** ** At most one request per item *)

Module Sending.
Import Processor.

Lemma Subseq_refl {A : Type} (l : list A) : Subseq l l.
Proof. induction l; constructor; assumption. Qed.

Lemma Subseq_nil {A : Type} (l : list A) : Subseq [] l.
Proof. induction l; constructor; assumption. Qed.

Lemma Subseq_trans {A : Type} (l1 l2 l3 : list A) :
  Subseq l1 l2 -> Subseq l2 l3 -> Subseq l1 l3.
Proof.
  intros H12 H23. revert l1 H12.
  induction H23 as [ | x l2 l3 _ IH | x l2 l3 _ IH ]; intros l1 H12.
  - exact H12.
  - apply SubSkip, IH, H12.
  - inversion H12; subst.
    + apply SubSkip, IH. assumption.
    + apply SubTake, IH. assumption.
Qed.

Lemma Subseq_app_l {A : Type} (l a b : list A) :
  Subseq a b -> Subseq (l ++ a) (l ++ b).
Proof. intros H. induction l; simpl; [ exact H | apply SubTake; assumption ]. Qed.

Lemma Subseq_length {A : Type} (a b : list A) :
  Subseq a b -> List.length a <= List.length b.
Proof. induction 1; simpl; lia. Qed.

(** A step that sends nothing and leaves the run with no more to send
    than before. *)
Lemma shrinks s t r rn rn' :
  nth_error (runs t) r = Some rn' ->
  runPrompt rn' = runPrompt rn ->
  outbox t = outbox s ->
  Subseq (toSendItems rn') (toSendItems rn) ->
  exists rn'' sent,
    nth_error (runs t) r = Some rn'' /\
    runPrompt rn'' = runPrompt rn /\
    outbox t = outbox s ++ map (requestOf (runPrompt rn)) sent /\
    Subseq (map fst sent ++ toSendItems rn'') (toSendItems rn) /\
    (forall ip, In ip sent ->
       prepareImageForGenAI (file (fst ip)) = Resolved (snd ip)).
Proof.
  intros Hr Hp Ho Hs. exists rn', []. simpl. rewrite app_nil_r.
  split; [ exact Hr | ]. split; [ exact Hp | ]. split; [ exact Ho | ].
  split; [ exact Hs | intros ip [] ].
Qed.

Lemma sent_nextIteration r rn0 rest prompt s :
  nth_error (runs s) r = Some rn0 ->
  exists rn',
    nth_error (runs (nextIteration r rest prompt s)) r = Some rn' /\
    runPrompt rn' = prompt /\
    outbox (nextIteration r rest prompt s) = outbox s /\
    Subseq (toSendItems rn') rest.
Proof.
  intros Hr.
  destruct (StepFacts.after_nextIteration r rn0 rest prompt s Hr)
    as (_ & _ & Ho & Hn & _).
  exists (continue rest prompt).
  split; [ exact Hn | ]. split; [ reflexivity | ]. split; [ exact Ho | ].
  destruct rest; [ apply SubNil | apply Subseq_refl ].
Qed.

Lemma sent_catchBlock r rn0 item rest prompt message s :
  nth_error (runs s) r = Some rn0 ->
  exists rn',
    nth_error (runs (catchBlock r item rest prompt message s)) r = Some rn' /\
    runPrompt rn' = prompt /\
    outbox (catchBlock r item rest prompt message s) = outbox s /\
    Subseq (toSendItems rn') rest.
Proof.
  intros Hr. unfold catchBlock. destruct (authRejected message).
  - exists (mkRun rest Done prompt).
    split; [ simpl; eapply nth_error_setNth_eq; eassumption | ].
    split; [ reflexivity | ]. split; [ reflexivity | apply Subseq_nil ].
  - apply (sent_nextIteration r rn0 rest prompt
             (setQueue (mapItem (id item) (asError (errorLabel message))) s) Hr).
Qed.

(** Line 148 to line 154: the request goes out when the image could be
    prepared. *)
Lemma sent_prepare s t r rn item rest :
  nth_error (runs s) r = Some rn ->
  toSendItems rn = item :: rest ->
  t = match prepareImageForGenAI (file item) with
      | Resolved p =>
          setRun r (mkRun rest (AwaitGenerate item) (runPrompt rn))
            (send (buildRequest (runPrompt rn) item p) s)
      | Rejected message => catchBlock r item rest (runPrompt rn) message s
      end ->
  exists rn' sent,
    nth_error (runs t) r = Some rn' /\
    runPrompt rn' = runPrompt rn /\
    outbox t = outbox s ++ map (requestOf (runPrompt rn)) sent /\
    Subseq (map fst sent ++ toSendItems rn') (toSendItems rn) /\
    (forall ip, In ip sent ->
       prepareImageForGenAI (file (fst ip)) = Resolved (snd ip)).
Proof.
  intros Hr Ht ->.
  destruct (prepareImageForGenAI (file item)) as [ p | m ] eqn:Hprep.
  - exists (mkRun rest (AwaitGenerate item) (runPrompt rn)), [(item, p)].
    split; [ simpl; eapply nth_error_setNth_eq; eassumption | ].
    split; [ reflexivity | ]. split; [ reflexivity | ].
    split; [ rewrite Ht; exact (Subseq_refl (item :: rest)) | ].
    intros ip [ <- | [] ]. exact Hprep.
  - destruct (sent_catchBlock r rn item rest (runPrompt rn) m s Hr)
      as (rn' & H1 & H2 & H3 & H4).
    apply (shrinks s _ r rn rn' H1 H2 H3). rewrite Ht.
    apply (Subseq_trans _ rest); [ exact H4 | apply SubSkip, Subseq_refl ].
Qed.

(** A step of the run itself. *)
Lemma sent_own s r rn e :
  nth_error (runs s) r = Some rn ->
  (e = Resume r \/ exists res, e = Respond r res) ->
  exists rn' sent,
    nth_error (runs (step s e)) r = Some rn' /\
    runPrompt rn' = runPrompt rn /\
    outbox (step s e) = outbox s ++ map (requestOf (runPrompt rn)) sent /\
    Subseq (map fst sent ++ toSendItems rn') (toSendItems rn) /\
    (forall ip, In ip sent ->
       prepareImageForGenAI (file (fst ip)) = Resolved (snd ip)).
Proof.
  intros Hr He.
  assert (Hstay := shrinks s s r rn rn Hr eq_refl eq_refl (Subseq_refl _)).
  assert (Ht : toSendItems rn
               = match pc rn with
                 | AwaitPrepare item => item :: pendingItems rn
                 | AwaitQueue | AwaitGenerate _ => pendingItems rn
                 | Done => []
                 end) by reflexivity.
  destruct He as [ -> | (res & ->) ].
  - change (step s (Resume r)) with (resume r s). unfold resume. rewrite Hr.
    destruct (pc rn) as [ | item | item | ] eqn:Hpc; try exact Hstay.
    + destruct (pendingItems rn) as [ | item rest ] eqn:Hpe; [ exact Hstay | ].
      destruct (present (id item) (queue s)).
      * apply (shrinks s _ r rn (mkRun rest (AwaitPrepare item) (runPrompt rn))).
        -- simpl. eapply nth_error_setNth_eq; eassumption.
        -- reflexivity.
        -- reflexivity.
        -- rewrite Ht. exact (Subseq_refl (item :: rest)).
      * destruct (sent_nextIteration r rn rest (runPrompt rn) s Hr)
          as (rn' & H1 & H2 & H3 & H4).
        apply (shrinks s _ r rn rn' H1 H2 H3). rewrite Ht.
        apply (Subseq_trans _ rest); [ exact H4 | apply SubSkip, Subseq_refl ].
    + destruct (pendingItems rn) as [ | next rest ] eqn:Hpe;
        (eapply (sent_prepare s _ r rn item _ Hr); [ exact Ht | reflexivity ]).
  - change (step s (Respond r res)) with (respond r res s). unfold respond.
    rewrite Hr.
    destruct (pc rn) as [ | item | item | ] eqn:Hpc; try exact Hstay.
    assert (Hfin : forall t,
              (exists rn', nth_error (runs t) r = Some rn' /\
                           runPrompt rn' = runPrompt rn /\
                           outbox t = outbox s /\
                           Subseq (toSendItems rn') (pendingItems rn)) ->
              exists rn' sent,
                nth_error (runs t) r = Some rn' /\
                runPrompt rn' = runPrompt rn /\
                outbox t = outbox s ++ map (requestOf (runPrompt rn)) sent /\
                Subseq (map fst sent ++ toSendItems rn') (toSendItems rn) /\
                (forall ip, In ip sent ->
                   prepareImageForGenAI (file (fst ip)) = Resolved (snd ip))).
    { intros t (rn' & H1 & H2 & H3 & H4).
      apply (shrinks s t r rn rn' H1 H2 H3). rewrite Ht. exact H4. }
    apply Hfin.
    destruct res as [ response | message ].
    + destruct (extractImage response).
      * apply (sent_nextIteration r rn _ _ (setQueue _ s) Hr).
      * apply (sent_catchBlock r rn item _ _ _ s Hr).
    + apply (sent_catchBlock r rn item _ _ _ s Hr).
Qed.

(** Only a resumed run sends. *)
Lemma respond_outbox r res s : outbox (respond r res s) = outbox s.
Proof.
  unfold respond. destruct (nth_error (runs s) r) as [ rn | ]; [ | reflexivity ].
  destruct (pc rn); try reflexivity.
  assert (Hc : forall message,
            outbox (catchBlock r item (pendingItems rn) (runPrompt rn) message s)
            = outbox s).
  { intros message. unfold catchBlock. destruct (authRejected message);
      [ reflexivity | ].
    match goal with
    | |- outbox (nextIteration ?i ?l ?p ?t) = _ =>
        destruct (nextIteration_frame i l p t) as (_ & _ & _ & -> & _)
    end. reflexivity. }
  destruct res as [ response | message ]; [ | apply Hc ].
  destruct (extractImage response); [ | apply Hc ].
  match goal with
  | |- outbox (nextIteration ?i ?l ?p ?t) = _ =>
      destruct (nextIteration_frame i l p t) as (_ & _ & _ & -> & _)
  end. reflexivity.
Qed.

(** Any event that resumes no other run. *)
Lemma sent_step s r rn e :
  nth_error (runs s) r = Some rn ->
  onlyRun r e = true ->
  exists rn' sent,
    nth_error (runs (step s e)) r = Some rn' /\
    runPrompt rn' = runPrompt rn /\
    outbox (step s e) = outbox s ++ map (requestOf (runPrompt rn)) sent /\
    Subseq (map fst sent ++ toSendItems rn') (toSendItems rn) /\
    (forall ip, In ip sent ->
       prepareImageForGenAI (file (fst ip)) = Resolved (snd ip)).
Proof.
  intros Hr Ho.
  assert (Hstay := shrinks s s r rn rn Hr eq_refl eq_refl (Subseq_refl _)).
  destruct (enabled s e) eqn:Hen; [ | unfold step; rewrite Hen; exact Hstay ].
  destruct e;
    try (unfold step; rewrite Hen;
         apply (shrinks s _ r rn rn);
         [ exact Hr | reflexivity | reflexivity | apply Subseq_refl ]).
  - (* processQueue *)
    destruct (Orderly.processQueue_state s Hen) as (-> & _ & _).
    apply (shrinks s _ r rn rn);
      [ simpl | reflexivity | reflexivity | apply Subseq_refl ].
    rewrite nth_error_app1; [ exact Hr | apply nth_error_Some; congruence ].
  - (* the run resumes *)
    simpl in Ho. apply Nat.eqb_eq in Ho. subst r0.
    apply sent_own; auto.
  - (* a request settles *)
    destruct (Nat.eq_dec r0 r) as [ -> | Hne ]; [ apply sent_own; eauto | ].
    change (step s (Respond r0 res)) with (respond r0 res s).
    apply (shrinks s _ r rn rn);
      [ | reflexivity | apply respond_outbox | apply Subseq_refl ].
    destruct (nth_error (runs s) r0) as [ rn0 | ] eqn:Hr0.
    + destruct (RunFacts.respond_effect r0 res s rn0 Hr0)
        as (rn' & k' & q' & p' & o' & -> & _).
      simpl. rewrite nth_error_setNth_neq by exact Hne. exact Hr.
    + unfold respond. rewrite Hr0. exact Hr.
Qed.

Lemma sent_exec r es : forall s rn,
  nth_error (runs s) r = Some rn ->
  allAlong (fun _ e => onlyRun r e) s es = true ->
  exists sent,
    outbox (exec es s) = outbox s ++ map (requestOf (runPrompt rn)) sent /\
    Subseq (map fst sent) (toSendItems rn) /\
    (forall ip, In ip sent ->
       prepareImageForGenAI (file (fst ip)) = Resolved (snd ip)).
Proof.
  induction es as [ | e es IH ]; intros s rn Hr H; simpl.
  - exists []. simpl. rewrite app_nil_r.
    split; [ reflexivity | ]. split; [ apply Subseq_nil | intros ip [] ].
  - simpl in H. apply andb_true_iff in H. destruct H as [He Hes].
    destruct (sent_step s r rn e Hr He) as (rn1 & sent1 & Hr1 & Hp1 & Ho1 & Hs1 & Hf1).
    destruct (IH _ rn1 Hr1 Hes) as (sent2 & Ho2 & Hs2 & Hf2).
    exists (sent1 ++ sent2).
    change (fold_left step es (step s e)) with (exec es (step s e)).
    split; [ rewrite Ho2, Ho1, Hp1, map_app, app_assoc; reflexivity | ].
    split.
    + rewrite map_app.
      apply (Subseq_trans _ (map fst sent1 ++ toSendItems rn1));
        [ apply Subseq_app_l, Hs2 | exact Hs1 ].
    + intros ip Hin. apply in_app_or in Hin. destruct Hin; auto.
Qed.

End Sending.

(** X15. No retries. A run has been started in state [s]. Whatever
    happens next (the awaits of the run settle with whatever answers,
    the user queues, removes and edits items, presses Stop and Start),
    as long as no other run is resumed, the requests sent are, in order,
    the requests built with the global instruction of [s] for the
    entries of a subsequence of the work list, each with the picture
    prepared from its file: every entry of the work list accounts for at
    most one request, so a failed request is not sent again, and an
    entry whose image cannot be prepared accounts for none. In
    particular there are at most as many requests as work-list entries. *)
Theorem at_most_one_request_per_item :
  forall s es,
    enabled s ProcessQueue = true ->
    allAlong (fun _ e => onlyRun (List.length (runs s)) e)
             (step s ProcessQueue) es = true ->
    exists sent : list (QueueItem * Prepared),
      outbox (exec es (step s ProcessQueue))
      = outbox s ++ map (requestOf (globalPrompt s)) sent /\
      Subseq (map fst sent) (filter eligible (queue s)) /\
      (forall ip, In ip sent ->
         prepareImageForGenAI (file (fst ip)) = Resolved (snd ip)) /\
      List.length (outbox (exec es (step s ProcessQueue)))
      <= List.length (outbox s) + List.length (filter eligible (queue s)).
Proof.
  intros s es Hen Hes.
  pose proof (processQueue_starts s Hen) as H0.
  destruct (Sending.sent_exec _ es _ _ H0 Hes) as (sent & Ho & Hs & Hf).
  destruct (Orderly.processQueue_state s Hen) as (Hst & _ & _).
  assert (Hout : outbox (step s ProcessQueue) = outbox s)
    by (rewrite Hst; reflexivity).
  rewrite Hout in Ho. simpl in Ho.
  change (Subseq (map fst sent) (filter eligible (queue s))) in Hs.
  exists sent. split; [ exact Ho | ]. split; [ exact Hs | ].
  split; [ exact Hf | ].
  rewrite Ho, length_app, length_map.
  apply Sending.Subseq_length in Hs. rewrite length_map in Hs. lia.
Qed.

(** The first request of the run fails, the second item is removed
    before its turn and a file is queued meanwhile: two requests are
    sent, for the first and the third item. *)
Lemma at_most_one_request_per_item_witness :
  enabled (exec Scenario.threeQueued initial) ProcessQueue = true /\
  allAlong (fun _ e => onlyRun 0 e)
           (step (exec Scenario.threeQueued initial) ProcessQueue)
           Cases.served = true /\
  map text (outbox (exec Cases.served
                      (step (exec Scenario.threeQueued initial) ProcessQueue)))
  = [ (initialPrompt ++ " ")%string; (initialPrompt ++ " ")%string ] /\
  exists sent : list (QueueItem * Prepared),
    outbox (exec Cases.served
              (step (exec Scenario.threeQueued initial) ProcessQueue))
    = map (requestOf initialPrompt) sent /\
    Subseq (map fst sent)
           (filter eligible (queue (exec Scenario.threeQueued initial))).
Proof.
  split; [ reflexivity | ]. split; [ reflexivity | ]. split; [ reflexivity | ].
  destruct (at_most_one_request_per_item (exec Scenario.threeQueued initial)
              Cases.served eq_refl eq_refl) as (sent & Ho & Hs & _).
  exists sent. split; [ exact Ho | exact Hs ].
Defined.

(** ** Prompt edits during a run *)

Module Editing.

Lemma samePicture_refl i : samePicture i i.
Proof. unfold samePicture. auto 10. Qed.

Lemma alike_refl s : alike s s.
Proof.
  unfold alike. repeat split; auto.
  induction (queue s); constructor; auto using samePicture_refl.
Qed.

Lemma present_alike key q q' :
  Forall2 samePicture q q' -> present key q = present key q'.
Proof.
  unfold present. induction 1 as [ | i j q q' Hij _ IH ]; simpl; [ reflexivity | ].
  destruct Hij as (-> & _). rewrite IH. reflexivity.
Qed.

Lemma mapItem_alike key f q q' :
  (forall i j, samePicture i j -> samePicture (f i) (f j)) ->
  Forall2 samePicture q q' ->
  Forall2 samePicture (mapItem key f q) (mapItem key f q').
Proof.
  intros Hf. unfold mapItem.
  induction 1 as [ | i j q q' Hij _ IH ]; simpl; constructor; auto.
  destruct Hij as (E & Hrest). rewrite E.
  destruct (String.eqb (id j) key); [ apply Hf | ]; unfold samePicture; auto.
Qed.

Lemma mapItem_edit key prompt q q' :
  Forall2 samePicture q q' ->
  Forall2 samePicture (mapItem key (fun item => withPrompt item prompt) q) q'.
Proof.
  unfold mapItem. induction 1 as [ | i j q q' Hij _ IH ]; simpl; constructor; auto.
  destruct (String.eqb (id i) key); [ | exact Hij ].
  unfold samePicture in *. simpl. exact Hij.
Qed.

Lemma filter_alike key q q' :
  Forall2 samePicture q q' ->
  Forall2 samePicture (filter (fun item => negb (String.eqb (id item) key)) q)
                      (filter (fun item => negb (String.eqb (id item) key)) q').
Proof.
  induction 1 as [ | i j q q' Hij _ IH ]; simpl; [ constructor | ].
  destruct Hij as (E & Hrest). rewrite E.
  destruct (String.eqb (id j) key); simpl; [ exact IH | ].
  constructor; [ unfold samePicture; auto | exact IH ].
Qed.

Lemma samePicture_asProcessing i j :
  samePicture i j -> samePicture (asProcessing i) (asProcessing j).
Proof. unfold samePicture; simpl. intuition. Qed.

Lemma samePicture_asSuccess url i j :
  samePicture i j -> samePicture (asSuccess url i) (asSuccess url j).
Proof. unfold samePicture; simpl. intuition. Qed.

Lemma samePicture_asError msg i j :
  samePicture i j -> samePicture (asError msg i) (asError msg j).
Proof. unfold samePicture; simpl. intuition. Qed.

(** The building blocks of a step keep two states alike. *)

Lemma alike_setQueue f f' s t :
  alike s t ->
  (Forall2 samePicture (queue s) (queue t) ->
   Forall2 samePicture (f (queue s)) (f' (queue t))) ->
  alike (setQueue f s) (setQueue f' t).
Proof.
  intros (Hk & Hq & Hp & Hg & Hr & Ho) Hf. unfold alike; simpl.
  repeat split; auto.
Qed.

Lemma alike_nextIteration r rest prompt s t :
  alike s t -> alike (nextIteration r rest prompt s) (nextIteration r rest prompt t).
Proof.
  intros (Hk & Hq & Hp & Hg & Hr & Ho).
  destruct rest; unfold alike; simpl; rewrite Hr; repeat split; auto.
Qed.

Lemma alike_catchBlock r item rest prompt message s t :
  alike s t ->
  alike (catchBlock r item rest prompt message s)
        (catchBlock r item rest prompt message t).
Proof.
  intros H. unfold catchBlock. destruct (authRejected message).
  - destruct H as (Hk & Hq & Hp & Hg & Hr & Ho).
    unfold alike; simpl; rewrite Hr; repeat split; auto.
  - apply alike_nextIteration, alike_setQueue; [ exact H | ].
    apply mapItem_alike. apply samePicture_asError.
Qed.

Lemma alike_resume r s t : alike s t -> alike (resume r s) (resume r t).
Proof.
  intros H. pose proof H as (Hk & Hq & Hp & Hg & Hr & Ho).
  unfold resume. rewrite <- Hr.
  destruct (nth_error (runs s) r) as [ rn | ]; [ | exact H ].
  destruct (pc rn) as [ | item | item | ]; try exact H.
  - destruct (pendingItems rn) as [ | item rest ]; [ exact H | ].
    rewrite <- (present_alike _ _ _ Hq).
    destruct (present (id item) (queue s)).
    + unfold alike; simpl; rewrite Hr; repeat split; auto.
      apply mapItem_alike; [ apply samePicture_asProcessing | exact Hq ].
    + apply alike_nextIteration, H.
  - assert (Hgo : forall rest,
      alike
        match prepareImageForGenAI (file item) with
        | Resolved p =>
            setRun r (mkRun rest (AwaitGenerate item) (runPrompt rn))
              (send (buildRequest (runPrompt rn) item p) s)
        | Rejected message => catchBlock r item rest (runPrompt rn) message s
        end
        match prepareImageForGenAI (file item) with
        | Resolved p =>
            setRun r (mkRun rest (AwaitGenerate item) (runPrompt rn))
              (send (buildRequest (runPrompt rn) item p) t)
        | Rejected message => catchBlock r item rest (runPrompt rn) message t
        end).
    { intros rest. destruct (prepareImageForGenAI (file item)).
      - unfold alike; simpl; rewrite Hr, Ho; repeat split; auto.
      - apply alike_catchBlock, H. }
    destruct (pendingItems rn); apply Hgo.
Qed.

Lemma alike_respond r res s t : alike s t -> alike (respond r res s) (respond r res t).
Proof.
  intros H. pose proof H as (Hk & Hq & Hp & Hg & Hr & Ho).
  unfold respond. rewrite <- Hr.
  destruct (nth_error (runs s) r) as [ rn | ]; [ | exact H ].
  destruct (pc rn) as [ | item | item | ]; try exact H.
  destruct res as [ response | message ]; [ | apply alike_catchBlock, H ].
  destruct (extractImage response); [ | apply alike_catchBlock, H ].
  apply alike_nextIteration, alike_setQueue; [ exact H | ].
  apply mapItem_alike. apply samePicture_asSuccess.
Qed.

(** An event that is neither an edit nor a start acts alike on alike states. *)
Lemma alike_step s t e :
  alike s t -> isEdit e = false -> isStart e = false ->
  alike (step s e) (step t e).
Proof.
  intros H He Hs. pose proof H as (Hk & Hq & Hp & Hg & Hr & Ho).
  assert (Hlen : List.length (queue s) = List.length (queue t))
    by (eapply Forall2_length; eassumption).
  assert (Hen : enabled s e = enabled t e).
  { destruct e; try discriminate; simpl; rewrite ?Hk, ?Hp, ?Hlen; try reflexivity.
    rewrite (present_alike _ _ _ Hq). reflexivity. }
  unfold step. rewrite <- Hen. destruct (enabled s e); [ | exact H ].
  destruct e; try discriminate; simpl handle.
  - unfold alike; simpl; repeat split; auto.
  - apply alike_setQueue; [ exact H | ]. intros _.
    apply Forall2_app; [ exact Hq | ].
    induction files; simpl; constructor; auto using samePicture_refl.
  - apply alike_setQueue; [ exact H | ]. intros _. apply filter_alike, Hq.
  - unfold alike; simpl; repeat split; auto.
  - apply alike_setQueue; [ exact H | ]. intros _. constructor.
  - unfold alike; simpl; repeat split; auto.
  - apply alike_resume, H.
  - apply alike_respond, H.
Qed.

(** An edit leaves a state alike to what it was. *)
Lemma alike_edit s t e : alike s t -> isEdit e = true -> alike (step s e) t.
Proof.
  intros H He. destruct e; try discriminate.
  unfold step. destruct (enabled s _); [ | exact H ].
  destruct H as (Hk & Hq & Hp & Hg & Hr & Ho).
  unfold alike; simpl; repeat split; auto. apply mapItem_edit, Hq.
Qed.

Lemma alike_exec es : forall s t,
  alike s t ->
  forallb (fun e => negb (isStart e)) es = true ->
  alike (exec es s) (exec (filter (fun e => negb (isEdit e)) es) t).
Proof.
  induction es as [ | e es IH ]; simpl; intros s t H Hes; [ exact H | ].
  apply andb_true_iff in Hes. destruct Hes as [He Hes].
  apply negb_true_iff in He.
  destruct (isEdit e) eqn:Ed; simpl.
  - apply IH; [ apply alike_edit; assumption | exact Hes ].
  - apply IH; [ apply alike_step; assumption | exact Hes ].
Qed.

End Editing.

(** X16. A custom prompt edited while runs are under way is not used by
    them. From any state, along any sequence of events that starts no
    new run, leaving out all prompt edits changes nothing but the
    custom prompts stored in the queue: the requests sent are the same,
    the runs are the same, and every queue entry has the same
    identifier, file, status, result and error. *)
Theorem prompt_edits_do_not_reach_runs :
  forall s es,
    forallb (fun e => negb (isStart e)) es = true ->
    outbox (exec es s) = outbox (exec (filter (fun e => negb (isEdit e)) es) s) /\
    runs (exec es s) = runs (exec (filter (fun e => negb (isEdit e)) es) s) /\
    Forall2 samePicture (queue (exec es s))
            (queue (exec (filter (fun e => negb (isEdit e)) es) s)).
Proof.
  intros s es Hes.
  destruct (Editing.alike_exec es s s (Editing.alike_refl s) Hes)
    as (_ & Hq & _ & _ & Hr & Ho).
  auto.
Qed.

(** The prompt typed for the second item during the run is in the queue
    but in no request. *)
Lemma prompt_edits_do_not_reach_runs_witness :
  map customPrompt (queue (exec Cases.editedDuringRun (exec Cases.started initial)))
  = [None; Some "use a red title"; None] /\
  map text (outbox (exec Cases.editedDuringRun (exec Cases.started initial)))
  = [(initialPrompt ++ " ")%string; (initialPrompt ++ " ")%string] /\
  outbox (exec Cases.editedDuringRun (exec Cases.started initial))
  = outbox (exec (filter (fun e => negb (isEdit e)) Cases.editedDuringRun)
                 (exec Cases.started initial)).
Proof.
  split; [ reflexivity | ]. split; [ reflexivity | ].
  apply (prompt_edits_do_not_reach_runs (exec Cases.started initial)
           Cases.editedDuringRun).
  reflexivity.
Defined.
